(** * xtrace_stats: per-method call statistics from Xtrace [iprint] logs

    A shallow embedding of [webspheretraditional/xtrace_stats.py] and the
    properties of its line parser, clock normalisation, per-thread call-stack
    reconstruction, aggregation, ordering and name rendering.

    Conventions of the embedding.
    - Python [int] is [Z] (unbounded).
    - Python [str] is [list ascii]: a sequence of code points, restricted to
      the code points below 256.  [len], slicing, concatenation and the
      code-point order of [str] are the ones of lists.
    - A Python [list] used as a stack keeps Python's orientation: index 0 is
      the bottom, [append] adds at the end and [pop()] removes the last
      element.
    - [stacks], a [defaultdict(list)] keyed by thread id, is a [gmap]; reading
      [stacks[tid]] creates the entry when it is missing, as the source does.
    - [stats], a [defaultdict] whose iteration order (insertion order) is
      observable through the stable sort, is an association list.
    - A raised exception is [None] in the [option] monad. *)

From Stdlib Require Import ZArith NArith List Ascii String QArith Lia Lqa Bool.
From Stdlib Require Import Sorting.Sorted Sorting.Permutation.
From stdpp Require Import gmap strings.
Import ListNotations.

Local Open Scope Z_scope.

(** ** Python values *)

Abbreviation text := (list ascii).

(** A string literal of the source. *)
Definition lit (s : string) : text := list_ascii_of_string s.

(** [len(x)] as a Python integer. *)
Definition len {A} (l : list A) : Z := Z.of_nat (length l).

(** [l[:stop]] *)
Definition slice_to {A} (l : list A) (stop : Z) : list A :=
  if stop <? 0 then firstn (Z.to_nat (Z.max 0 (len l + stop))) l
  else firstn (Z.to_nat stop) l.

(** [l[start:]] *)
Definition slice_from {A} (l : list A) (start : Z) : list A :=
  if start <? 0 then skipn (Z.to_nat (Z.max 0 (len l + start))) l
  else skipn (Z.to_nat start) l.

(** [l.pop()]: the last element and the list without it; [None] stands for
    the [IndexError] of an empty list. *)
Definition pop {A} (l : list A) : option (A * list A) :=
  match rev l with
  | [] => None
  | x :: r => Some (x, rev r)
  end.

(** [s1 == s2] on [str]. *)
Definition text_eqb (s1 s2 : text) : bool := bool_decide (s1 = s2).

(** [s1 < s2] on [str]: lexicographic on code points. *)
Fixpoint text_ltb (s1 s2 : text) : bool :=
  match s1, s2 with
  | _, [] => false
  | [], _ :: _ => true
  | c1 :: r1, c2 :: r2 =>
      match (N_of_ascii c1 ?= N_of_ascii c2)%N with
      | Lt => true
      | Gt => false
      | Eq => text_ltb r1 r2
      end
  end.

(** ** Character classes of [re] on [str] patterns, for code points below 256 *)

Definition code (c : ascii) : N := N_of_ascii c.

Definition in_range (lo hi : N) (c : ascii) : bool :=
  ((lo <=? code c) && (code c <=? hi))%N.

(** [\d] *)
Definition is_digit : ascii -> bool := in_range 48 57.

(** [\s], which is also the white space of [str.strip()]: TAB to CR, FS to
    US, SPACE, NEL (0x85) and NBSP (0xA0). *)
Definition is_space (c : ascii) : bool :=
  in_range 9 13 c || in_range 28 32 c || (code c =? 133)%N || (code c =? 160)%N.

(** [\S] *)
Definition is_nonspace (c : ascii) : bool := negb (is_space c).

(** [[0-9a-fA-F]] *)
Definition is_hex (c : ascii) : bool :=
  in_range 48 57 c || in_range 97 102 c || in_range 65 70 c.

(** [[:.]] *)
Definition is_sep (c : ascii) : bool := (code c =? 58)%N || (code c =? 46)%N.

(** [[<>]] *)
Definition is_arrow (c : ascii) : bool := (code c =? 60)%N || (code c =? 62)%N.

(** [.] without DOTALL: anything but a newline. *)
Definition is_dot (c : ascii) : bool := negb (code c =? 10)%N.

Definition is_char (x : ascii) (c : ascii) : bool := (code c =? code x)%N.

(** ** A backtracking matcher for the fragment of [re] that [LINE_RE] uses *)

Module Re.

Inductive re : Type :=
| Bol                                  (* ^ *)
| Cls (p : ascii -> bool)              (* one character of a class *)
| Rep (n : nat) (p : ascii -> bool)    (* class{n} *)
| Plus (p : ascii -> bool)             (* class+, greedy *)
| LazyStar (p : ascii -> bool)         (* class*?, lazy *)
| Cat (r1 r2 : re)                     (* r1 r2 *)
| Group (name : string) (r : re).      (* (?P<name>r) *)

(** The groups matched so far, most recent first. *)
Definition groups := list (string * text).

(** What remains to be matched: given the position, the rest of the input
    and the groups, the continuation answers with the groups of the first
    complete match, if there is one. *)
Definition cont := nat -> text -> groups -> option groups.

(** Greedy repetition: take one more character when possible, and fall back
    to stopping here if the rest then fails. *)
Fixpoint star_greedy (p : ascii -> bool) (pos : nat) (s : text) (g : groups)
    (k : cont) : option groups :=
  match s with
  | c :: s' =>
      if p c then
        match star_greedy p (S pos) s' g k with
        | Some m => Some m
        | None => k pos s g
        end
      else k pos s g
  | [] => k pos s g
  end.

(** Lazy repetition: stop here when the rest matches, else take one more. *)
Fixpoint star_lazy (p : ascii -> bool) (pos : nat) (s : text) (g : groups)
    (k : cont) : option groups :=
  match k pos s g with
  | Some m => Some m
  | None =>
      match s with
      | c :: s' => if p c then star_lazy p (S pos) s' g k else None
      | [] => None
      end
  end.

Fixpoint rep (n : nat) (p : ascii -> bool) (pos : nat) (s : text) (g : groups)
    (k : cont) : option groups :=
  match n with
  | O => k pos s g
  | S n' =>
      match s with
      | c :: s' => if p c then rep n' p (S pos) s' g k else None
      | [] => None
      end
  end.

Fixpoint run (r : re) (pos : nat) (s : text) (g : groups) (k : cont)
    : option groups :=
  match r with
  | Bol => if Nat.eqb pos 0 then k pos s g else None
  | Cls p =>
      match s with
      | c :: s' => if p c then k (S pos) s' g else None
      | [] => None
      end
  | Rep n p => rep n p pos s g k
  | Plus p =>
      match s with
      | c :: s' => if p c then star_greedy p (S pos) s' g k else None
      | [] => None
      end
  | LazyStar p => star_lazy p pos s g k
  | Cat r1 r2 => run r1 pos s g (fun pos' s' g' => run r2 pos' s' g' k)
  | Group name r =>
      run r pos s g
        (fun pos' s' g' => k pos' s' ((name, firstn (pos' - pos) s) :: g'))
  end.

Definition accept : cont := fun _ _ g => Some g.

(** A continuation that cannot start on a character of the class. *)
Definition refuses (p : ascii -> bool) (k : cont) : Prop :=
  forall pos c s g, p c = true -> k pos (c :: s) g = None.

(** [pattern.search(s)]: the first start position, from the left, at which
    the pattern matches. *)
Fixpoint search_from (r : re) (pos : nat) (s : text) : option groups :=
  match run r pos s [] accept with
  | Some m => Some m
  | None =>
      match s with
      | [] => None
      | _ :: s' => search_from r (S pos) s'
      end
  end.

Definition search (r : re) (s : text) : option groups := search_from r 0 s.

(** [m.group(name)]; [None] when the group took no part in the match. *)
Fixpoint group (name : string) (m : groups) : option text :=
  match m with
  | [] => None
  | (n, v) :: m' => if String.eqb n name then Some v else group name m'
  end.

End Re.

Declare Scope re_scope.
Delimit Scope re_scope with re.
Bind Scope re_scope with Re.re.
Infix ">>>" := Re.Cat (at level 60, right associativity) : re_scope.

(** ** The line parser *)

Definition LINE_RE : Re.re :=
  (Re.Bol >>>
   Re.Group "ts" (Re.Rep 2 is_digit >>> Re.Cls is_sep >>>
                  Re.Rep 2 is_digit >>> Re.Cls is_sep >>>
                  Re.Rep 2 is_digit >>> Re.Cls is_sep >>>
                  Re.Rep 3 is_digit) >>>
   Re.Plus is_space >>>
   Re.Group "tid" (Re.Cls (is_char "0") >>> Re.Cls (is_char "x") >>>
                   Re.Plus is_hex) >>>
   Re.Plus is_space >>>
   Re.LazyStar is_dot >>>
   Re.Group "arrow" (Re.Cls is_arrow) >>>
   Re.Plus is_space >>>
   Re.Group "method" (Re.Plus is_nonspace))%re.

(** The pattern after each of its leading parts, as the matcher meets it. *)
Definition RE_method : Re.re := Re.Group "method" (Re.Plus is_nonspace).
Definition RE_arrow : Re.re :=
  (Re.Group "arrow" (Re.Cls is_arrow) >>> Re.Plus is_space >>> RE_method)%re.
Definition RE_slack : Re.re := (Re.LazyStar is_dot >>> RE_arrow)%re.
Definition RE_tid : Re.re :=
  (Re.Group "tid" (Re.Cls (is_char "0") >>> Re.Cls (is_char "x") >>>
                   Re.Plus is_hex) >>>
   Re.Plus is_space >>> RE_slack)%re.
Definition RE_ts : Re.re :=
  (Re.Group "ts" (Re.Rep 2 is_digit >>> Re.Cls is_sep >>>
                  Re.Rep 2 is_digit >>> Re.Cls is_sep >>>
                  Re.Rep 2 is_digit >>> Re.Cls is_sep >>>
                  Re.Rep 3 is_digit) >>>
   Re.Plus is_space >>> RE_tid)%re.

(** [s.rstrip(chars)] and [s.strip()] by a class of characters. *)
Fixpoint lstrip (p : ascii -> bool) (s : text) : text :=
  match s with
  | c :: s' => if p c then lstrip p s' else s
  | [] => []
  end.

Definition rstrip (p : ascii -> bool) (s : text) : text :=
  rev (lstrip p (rev s)).

Definition strip (s : text) : text := rstrip is_space (lstrip is_space s).

(** *** The grammar of a trace line

    What [LINE_RE] accepts, said without the matcher.  [take_while p s] is
    the longest prefix of [s] in the class [p] ([lstrip p s] is the rest). *)
Fixpoint take_while (p : ascii -> bool) (s : text) : text :=
  match s with
  | c :: s' => if p c then c :: take_while p s' else []
  | [] => []
  end.

(** A non-empty run of characters of a class: [class+]. *)
Definition run_of (p : ascii -> bool) (s : text) : Prop :=
  s <> [] /\ forallb p s = true.

(** [\d{2}[:.]\d{2}[:.]\d{2}[:.]\d{3}] *)
Definition is_timestamp (ts : text) : bool :=
  match ts with
  | [h1; h2; p1; m1; m2; p2; s1; s2; p3; f1; f2; f3] =>
      is_digit h1 && is_digit h2 && is_sep p1 &&
      is_digit m1 && is_digit m2 && is_sep p2 &&
      is_digit s1 && is_digit s2 && is_sep p3 &&
      is_digit f1 && is_digit f2 && is_digit f3
  | _ => false
  end.

(** The method token that begins at [s], if one does: the longest run of
    characters that are not white space. *)
Definition method_here (s : text) : option text :=
  match s with
  | c :: _ => if is_nonspace c then Some (take_while is_nonspace s) else None
  | [] => None
  end.

(** The marker that begins at [s], if one does: a direction marker followed
    by white space and then by a method token. *)
Definition marker_here (s : text) : option (ascii * text) :=
  match s with
  | a :: c :: s' =>
      if is_arrow a && is_space c
      then option_map (pair a) (method_here (lstrip is_space s'))
      else None
  | _ => None
  end.

(** The first marker of [s] that the slack text can reach: the slack does
    not extend over a newline. *)
Fixpoint find_marker (s : text) : option (ascii * text) :=
  match marker_here s with
  | Some r => Some r
  | None =>
      match s with
      | c :: s' => if is_dot c then find_marker s' else None
      | [] => None
      end
  end.

(** The scan of a line that [LINE_RE] amounts to: the time stamp, the
    thread and the marker found, read from the left without going back. *)
Definition scan_tid (s : text) : option (text * ascii * text) :=
  match s with
  | z :: x :: s' =>
      if is_char "0" z && is_char "x" x then
        match take_while is_hex s', take_while is_space (lstrip is_hex s') with
        | _ :: _, _ :: _ =>
            option_map (fun '(a, m) => (z :: x :: take_while is_hex s', a, m))
                       (find_marker (lstrip is_space (lstrip is_hex s')))
        | _, _ => None
        end
      else None
  | _ => None
  end.

Definition scan_line (line : text) : option (text * text * ascii * text) :=
  if is_timestamp (firstn 12 line) then
    match take_while is_space (skipn 12 line) with
    | [] => None
    | _ :: _ =>
        option_map (fun '(tid, a, m) => (firstn 12 line, tid, a, m))
                   (scan_tid (lstrip is_space (skipn 12 line)))
    end
  else None.

(** [line] is a trace line with time stamp [ts], thread [tid], direction
    [a] and method [method]: the time stamp, white space, the thread token
    [0x] and hexadecimal digits, white space, slack text without a newline,
    the direction marker, white space, the method token, ending at the end
    of the line or at white space; and no marker begins inside the slack
    text. *)
Definition trace_line (line ts tid : text) (a : ascii) (method : text) : Prop :=
  exists ws1 hex ws2 slack ws3 rest : text,
    line = ts ++ ws1 ++ tid ++ ws2 ++ slack ++ a :: ws3 ++ method ++ rest /\
    is_timestamp ts = true /\
    run_of is_space ws1 /\
    tid = lit "0x" ++ hex /\ run_of is_hex hex /\
    run_of is_space ws2 /\
    forallb is_dot slack = true /\
    is_arrow a = true /\
    run_of is_space ws3 /\
    run_of is_nonspace method /\
    method_here rest = None /\
    (forall u v, slack = u ++ v -> v <> [] ->
                 marker_here (v ++ a :: ws3 ++ method ++ rest) = None).

(** The direction the description of the parser names: the first direction
    marker of the line (the time stamp, the white space and the thread token
    before it hold none). *)
Definition first_direction (line : text) : option text :=
  option_map (fun a => [a]) (find is_arrow line).

Record event := Event {
  ev_ln : Z;
  ev_ts : text;
  ev_tid : text;
  ev_arrow : text;
  ev_method : text
}.

(** [raw.rstrip('\n')]: the line the parser looks at. *)
Definition line_of (raw : text) : text := rstrip (is_char "010") raw.

(** One turn of the loop of [iter_lines]: the event yielded for line number
    [ln], or [None] when the line is skipped.  Every group of [LINE_RE]
    takes part in each of its matches ([line_re_groups] below), so the last
    branch is never taken. *)
Definition iter_line (ln : Z) (raw : text) : option event :=
  let line := line_of raw in
  match strip line with
  | [] => None
  | _ :: _ =>
      match Re.search LINE_RE line with
      | None => None
      | Some m =>
          match Re.group "ts" m, Re.group "tid" m,
                Re.group "arrow" m, Re.group "method" m with
          | Some ts, Some tid, Some arrow, Some method =>
              Some (Event ln ts tid arrow method)
          | _, _, _, _ => None
          end
      end
  end.

(** [iter_lines(fp)], with [fp] the lines of the file and [enumerate]
    counting from [ln]. *)
Fixpoint iter_lines_from (ln : Z) (fp : list text) : list event :=
  match fp with
  | [] => []
  | raw :: fp' =>
      match iter_line ln raw with
      | Some ev => ev :: iter_lines_from (ln + 1) fp'
      | None => iter_lines_from (ln + 1) fp'
      end
  end.

Definition iter_lines (fp : list text) : list event := iter_lines_from 1 fp.

(** ** [parse_ts_ms] *)

(** [s.replace(a, b)] for one-character [a] and [b]. *)
Definition replace (a b : ascii) (s : text) : text :=
  map (fun c => if is_char a c then b else c) s.

(** [s.split(sep)] for a one-character [sep]. *)
Fixpoint split (sep : ascii) (s : text) : list text :=
  match s with
  | [] => [[]]
  | c :: s' =>
      if is_char sep c then [] :: split sep s'
      else
        match split sep s' with
        | f :: r => (c :: f) :: r
        | [] => [[c]]
        end
  end.

Definition digit_val (c : ascii) : Z := Z.of_N (code c) - 48.

(** [int(s)] for a non-empty run of decimal digits.  [None] is the
    [ValueError] of a text that is not a number; the other spellings [int]
    accepts (a sign, surrounding white space, underscores) are not covered
    and cannot come out of [LINE_RE]. *)
Definition py_int (s : text) : option Z :=
  match s with
  | [] => None
  | _ :: _ =>
      if forallb is_digit s
      then Some (fold_left (fun acc c => 10 * acc + digit_val c) s 0)
      else None
  end.

Definition parse_ts_ms (ts : text) : option Z :=
  let ts := replace "." ":" ts in
  match map py_int (split ":" ts) with
  | [Some h; Some m; Some s; Some ms] =>
      Some (((h * 60 + m) * 60 + s) * 1000 + ms)
  | _ => None
  end.

(** ** [compute_stats] *)

Definition frame : Type := text * Z.

Record method_stats := MethodStats { count : Z; total_ms : Z }.

Record state := State {
  stacks : gmap text (list frame);
  stats : list (text * method_stats);
  last_abs_ms : option Z;
  day_offset : Z
}.

Definition init : state := State ∅ [] None 0.

(** The rollover handling at the head of the loop body: the absolute time
    of the event and the new [day_offset]. *)
Definition normalize (last : option Z) (offset ms : Z) : Z * Z :=
  let abs_ms := ms + offset in
  match last with
  | Some l =>
      if abs_ms <? l then
        let offset := offset + 24 * 60 * 60 * 1000 in
        (ms + offset, offset)
      else (abs_ms, offset)
  | None => (abs_ms, offset)
  end.

(** The absolute times the loop gives to a sequence of times of day, from
    the [last_abs_ms] and [day_offset] it starts with. *)
Fixpoint absolute_times (last : option Z) (offset : Z) (tods : list Z) : list Z :=
  match tods with
  | [] => []
  | ms :: rest =>
      let '(abs_ms, offset') := normalize last offset ms in
      abs_ms :: absolute_times (Some abs_ms) offset' rest
  end.

(** A time of day: less than 24 hours, in milliseconds. *)
Definition day_ms : Z := 86400000.
Definition time_of_day (ms : Z) : Prop := 0 <= ms < day_ms.

(** The stack [stacks[tid]] denotes. *)
Definition stack_of (stacks : gmap text (list frame)) (tid : text) : list frame :=
  default [] (stacks !! tid).

(** The effect of reading [stacks[tid]] on the [defaultdict]. *)
Definition touch (stacks : gmap text (list frame)) (tid : text)
    : gmap text (list frame) :=
  match stacks !! tid with
  | Some _ => stacks
  | None => <[tid := []]> stacks
  end.

(** [while stacks[tid]: ... pop ... break / temp.append]: the stack and
    [temp] when the loop ends, and the frame found. *)
Fixpoint pop_until (fuel : nat) (method : text) (stk temp : list frame)
    : list frame * list frame * option frame :=
  match fuel with
  | O => (stk, temp, None)
  | S fuel' =>
      match pop stk with
      | None => (stk, temp, None)
      | Some ((mth, s_ms), stk') =>
          if text_eqb mth method then (stk', temp, Some (mth, s_ms))
          else pop_until fuel' method stk' (temp ++ [(mth, s_ms)])
      end
  end.

(** [while temp: stacks[tid].append(temp.pop())] *)
Fixpoint put_back (fuel : nat) (stk temp : list frame) : list frame :=
  match fuel with
  | O => stk
  | S fuel' =>
      match pop temp with
      | None => stk
      | Some (f, temp') => put_back fuel' (stk ++ [f]) temp'
      end
  end.

(** [s = stats[method]; s['count'] += 1; s['total_ms'] += dur], a new
    method going to the end of the dictionary. *)
Fixpoint bump (stats : list (text * method_stats)) (method : text) (dur : Z)
    : list (text * method_stats) :=
  match stats with
  | [] => [(method, MethodStats (0 + 1) (0 + dur))]
  | (m, s) :: rest =>
      if text_eqb m method
      then (m, MethodStats (count s + 1) (total_ms s + dur)) :: rest
      else (m, s) :: bump rest method dur
  end.

(** Reading [stats[method]], [None] when the method has no entry yet, and
    the two counters it then holds (those of a fresh entry otherwise). *)
Fixpoint stats_get (stats : list (text * method_stats)) (method : text)
    : option method_stats :=
  match stats with
  | [] => None
  | (m, s) :: rest => if text_eqb m method then Some s else stats_get rest method
  end.

Definition count_of (stats : list (text * method_stats)) (method : text) : Z :=
  from_option count 0 (stats_get stats method).

Definition total_of (stats : list (text * method_stats)) (method : text) : Z :=
  from_option total_ms 0 (stats_get stats method).

(** A completed call: the method and [dur] of line 105. *)
Definition interval : Type := text * Z.

(** The body of the loop after the rollover handling.  Next to the new
    [stacks] and [stats] it reports the interval completed by this event,
    when the event is an exit that found its entry. *)
Definition apply_event (stacks : gmap text (list frame))
    (stats : list (text * method_stats)) (tid arrow method : text) (abs_ms : Z)
    : gmap text (list frame) * list (text * method_stats) * option interval :=
  if text_eqb arrow (lit ">") then
    (<[tid := stack_of stacks tid ++ [(method, abs_ms)]]> stacks, stats, None)
  else
    let stacks := touch stacks tid in
    match stack_of stacks tid with
    | [] => (stacks, stats, None)
    | _ :: _ =>
        let stk := stack_of stacks tid in
        let '(stk, temp, found) := pop_until (length stk) method stk [] in
        let stk := put_back (length temp) stk temp in
        let stacks := <[tid := stk]> stacks in
        match found with
        | None => (stacks, stats, None)
        | Some (start_method, start_ms) =>
            let dur := abs_ms - start_ms in
            if dur >=? 0
            then (stacks, bump stats method dur, Some (method, dur))
            else (stacks, stats, Some (method, dur))
        end
    end.

(** One turn of the loop of [compute_stats]. *)
Definition loop_body (st : state) (ev : event) : option (state * option interval) :=
  match parse_ts_ms (ev_ts ev) with
  | None => None
  | Some ms =>
      let '(abs_ms, offset) := normalize (last_abs_ms st) (day_offset st) ms in
      let '(stacks, stats, iv) :=
        apply_event (stacks st) (stats st) (ev_tid ev) (ev_arrow ev)
          (ev_method ev) abs_ms in
      Some (State stacks stats (Some abs_ms) offset, iv)
  end.

(** The whole loop: the final state and the intervals completed, oldest
    first. *)
Fixpoint loop (st : state) (evs : list event) : option (state * list interval) :=
  match evs with
  | [] => Some (st, [])
  | ev :: evs' =>
      match loop_body st ev with
      | None => None
      | Some (st', iv) =>
          match loop st' evs' with
          | None => None
          | Some (st'', ivs) => Some (st'', from_option (fun i => [i]) [] iv ++ ivs)
          end
      end
  end.

(** [a / b] on integers [a >= 0] and [b > 0]: the binary64 number nearest to
    the quotient, ties to even, as a rational.  (The quotients that
    overflow binary64, for which Python raises, are out of reach here.) *)
Definition truediv (a b : Z) : Q :=
  if a =? 0 then 0%Q
  else
    let e := Z.log2 a - Z.log2 b in
    let scaled (sh : Z) : Z * Z :=
      if 0 <=? sh then (a * 2 ^ sh, b) else (a, b * 2 ^ (- sh)) in
    let sh0 := 52 - e in
    let sh := if (fst (scaled sh0) / snd (scaled sh0)) <? 2 ^ 52
              then sh0 + 1 else sh0 in
    let '(n, d) := scaled sh in
    let q := n / d in
    let r := n mod d in
    let m := if (d <? 2 * r) || ((d =? 2 * r) && Z.odd q) then q + 1 else q in
    Qred (if 0 <=? sh then Qmake m (Z.to_pos (2 ^ sh))
          else Qmake (m * 2 ^ (- sh)) 1).

Record row := Row {
  r_method : text;
  r_count : Z;
  r_total_ms : Z;
  r_avg : Q
}.

(** [for method, s in stats.items(): ... result.append(...)] *)
Definition rows_of (stats : list (text * method_stats)) : list row :=
  map (fun '(method, s) =>
         let avg := if count s =? 0 then 0%Q
                    else truediv (total_ms s) (count s) in
         Row method (count s) (total_ms s) avg)
      stats.

(** [list.sort(key=...)]: a stable ascending sort that compares the keys
    with [<] alone. *)
Section Sort.
Context {A K : Type} (lt : K -> K -> bool) (key : A -> K).

Fixpoint insert_sorted (x : A) (l : list A) : list A :=
  match l with
  | [] => [x]
  | y :: l' =>
      if lt (key x) (key y) then x :: y :: l'
      else y :: insert_sorted x l'
  end.

Definition sort (l : list A) : list A := fold_left (fun acc x => insert_sorted x acc) l [].
End Sort.

(** [<] on the tuples [(-x[3], -x[1], x[0])]: the first component that
    differs decides. *)
Definition key_lt (k1 k2 : Q * Z * text) : bool :=
  let '(a1, c1, m1) := k1 in
  let '(a2, c2, m2) := k2 in
  match (a1 ?= a2)%Q with
  | Lt => true
  | Gt => false
  | Eq => if c1 =? c2 then text_ltb m1 m2 else c1 <? c2
  end.

Definition default_key (x : row) : Q * Z * text :=
  ((- r_avg x)%Q, - r_count x, r_method x).

Definition sort_default (result : list row) : list row :=
  sort key_lt default_key result.

Definition compute_stats (fp : list text) : option (list row) :=
  match loop init (iter_lines fp) with
  | None => None
  | Some (st, _) => Some (sort_default (rows_of (stats st)))
  end.

(** The order of the report in the words of its description.  [lex_le] is
    the lexicographic order of texts by code point, and [ordered_before x y]
    says that row [x] may stand before row [y]: a larger average first, then
    a larger count, then the smaller method name. *)
Inductive lex_le : text -> text -> Prop :=
| lex_nil (s : text) : lex_le [] s
| lex_lt (c1 c2 : ascii) (s1 s2 : text) :
    (code c1 < code c2)%N -> lex_le (c1 :: s1) (c2 :: s2)
| lex_eq (c : ascii) (s1 s2 : text) :
    lex_le s1 s2 -> lex_le (c :: s1) (c :: s2).

Definition ordered_before (x y : row) : Prop :=
  (r_avg y < r_avg x)%Q \/
  (r_avg x == r_avg y)%Q /\
  (r_count y < r_count x \/
   r_count x = r_count y /\ lex_le (r_method x) (r_method y)).

(** ** [ellipsize_middle] *)

Definition ellipsize_middle (t : text) (max_len : Z) (ellipsis : text) : text :=
  if max_len <=? 0 then []
  else if len t <=? max_len then t
  else if max_len <=? len ellipsis then slice_to t max_len
  else
    let keep := max_len - len ellipsis in
    let left := (keep + 1) / 2 in
    let right := keep - left in
    slice_to t left ++ ellipsis ++
      (if right >? 0 then slice_from t (- right) else []).

(** The default value of the [ellipsis] parameter. *)
Definition dots : text := lit "...".

(** The name column of [main]: [w = max(10, args.width)] and
    [name = ellipsize_middle(method, w)]. *)
Definition column_width (width : Z) : Z := Z.max 10 width.

Definition render_name (method : text) (width : Z) : text :=
  ellipsize_middle method (column_width width) dots.

(* ================= theorems ================= *)

(** ** Notions the properties are stated with *)

(** A frame that is not an entry of [method]. *)
Definition other (method : text) (f : frame) : Prop := fst f <> method.

(** The intervals that count for a method, its own when not negative, and
    the sum of the durations of a list of intervals. *)
Definition counted (m : text) (iv : interval) : bool :=
  text_eqb (fst iv) m && (0 <=? snd iv).

Definition durations (ivs : list interval) : Z :=
  fold_right Z.add 0 (map snd ivs).

(** The order of the sort keys, in words. *)
Definition key_le (k1 k2 : Q * Z * text) : Prop :=
  let '(a1, c1, m1) := k1 in
  let '(a2, c2, m2) := k2 in
  (a1 < a2)%Q \/ (a1 == a2)%Q /\ (c1 < c2 \/ c1 = c2 /\ lex_le m1 m2).

(** The four numbers of a time stamp. *)
Definition ts_fields (ts : text) : Z * Z * Z * Z :=
  match map digit_val ts with
  | [h1; h2; _; m1; m2; _; s1; s2; _; f1; f2; f3] =>
      (10 * h1 + h2, 10 * m1 + m2, 10 * s1 + s2, 10 * (10 * f1 + f2) + f3)
  | _ => (0, 0, 0, 0)
  end.

(** An event whose time stamp has the shape the pattern asks for. *)
Definition stamped (ev : event) : Prop := is_timestamp (ev_ts ev) = true.

(** Two events that differ in their line number at most. *)
Definition same_event (e1 e2 : event) : Prop :=
  ev_ts e1 = ev_ts e2 /\ ev_tid e1 = ev_tid e2 /\
  ev_arrow e1 = ev_arrow e2 /\ ev_method e1 = ev_method e2.

(** ** Sample inputs *)

(** The four lines of the end-to-end example. *)
Definition four_lines : list text :=
  [lit "10:00:00:000 0x1 > foo()V"; lit "10:00:00:050 0x1 > bar()V";
   lit "10:00:00:080 0x1 < bar()V"; lit "10:00:00:120 0x1 < foo()V"].

(** A line of another kind, as a JVM writes them between trace lines. *)
Definition noise_line : text := lit "JVMDUMP039I Processing dump event".

(** A line with a direction marker inside its slack text. *)
Definition two_marker_line : text := lit "10:00:00:000 0x1 a<b > foo()V".

(** Two lines the pattern accepts, the first with an hour field of 99. *)
Definition out_of_range_lines : list text :=
  [lit "99:00:00:000 0x1 > f()V"; lit "00:00:00:000 0x1 > f()V"].

(** Two threads with open calls. *)
Definition sample_state : state :=
  State {[ lit "0x1" := [(lit "A", 0); (lit "B", 1)];
           lit "0x2" := [(lit "A", 5)] ]} [] (Some 5) 0.

(** ** The loop body over events with their absolute times *)

(** The body of the loop after the rollover handling, run over events that
    come with their absolute time: the stacks, the statistics and the
    intervals completed, oldest first. *)
Fixpoint replay (stacks : gmap text (list frame))
    (stats : list (text * method_stats)) (evs : list (event * Z))
    : gmap text (list frame) * list (text * method_stats) * list interval :=
  match evs with
  | [] => (stacks, stats, [])
  | (ev, abs_ms) :: evs' =>
      let '(stacks1, stats1, iv) :=
        apply_event stacks stats (ev_tid ev) (ev_arrow ev) (ev_method ev) abs_ms in
      let '(stacks2, stats2, ivs) := replay stacks1 stats1 evs' in
      (stacks2, stats2, from_option (fun i => [i]) [] iv ++ ivs)
  end.

(** The entry and the exit of a call, as events of a thread. *)
Definition entry_of (tid method : text) (t : Z) : event * Z :=
  (Event 0 [] tid (lit ">") method, t).

Definition exit_of (tid method : text) (t : Z) : event * Z :=
  (Event 0 [] tid (lit "<") method, t).

(** A well-nested run of calls of one thread, with the intervals of its
    calls in the order of their exits: nothing, or a call around a
    well-nested run followed by a well-nested run. *)
Inductive nested (tid : text) : list (event * Z) -> list interval -> Prop :=
| nested_nil : nested tid [] []
| nested_call (method : text) (t_in t_out : Z)
    (body rest : list (event * Z)) (ivs_body ivs_rest : list interval) :
    nested tid body ivs_body ->
    nested tid rest ivs_rest ->
    nested tid
      (entry_of tid method t_in :: body ++ exit_of tid method t_out :: rest)
      (ivs_body ++ (method, t_out - t_in) :: ivs_rest).

(** The statistics after a list of intervals: each one that is not negative
    is added to its method. *)
Definition aggregate (stats : list (text * method_stats)) (ivs : list interval)
    : list (text * method_stats) :=
  fold_left (fun acc '(m, d) => if d >=? 0 then bump acc m d else acc) ivs stats.

(** The frames of a method on a stack and on all the stacks, and the entry
    and exit events of a method among events. *)
Definition frames_of (m : text) (stk : list frame) : Z :=
  len (List.filter (fun f => text_eqb (fst f) m) stk).

Definition open_frames (m : text) (stacks : gmap text (list frame)) : Z :=
  map_fold (fun _ stk acc => frames_of m stk + acc) 0 stacks.

Definition is_entry_of (m : text) (ev : event) : bool :=
  text_eqb (ev_arrow ev) (lit ">") && text_eqb (ev_method ev) m.

Definition is_exit_of (m : text) (ev : event) : bool :=
  negb (text_eqb (ev_arrow ev) (lit ">")) && text_eqb (ev_method ev) m.

(** The time of day of an event is a clock time: hours up to 23, minutes
    and seconds up to 59. *)
Definition clock_time (ev : event) : Prop :=
  is_timestamp (ev_ts ev) = true /\
  let '(h, m, s, _) := ts_fields (ev_ts ev) in h <= 23 /\ m <= 59 /\ s <= 59.

(** ** [main]: the table *)

(** The choices of [--sort]. *)
Inductive sort_choice := SortAvg | SortCount | SortTotal | SortMethod.

(** [c.lower()] and [s.lower()] for code points below 256: the letters A to
    Z and the accented capitals (0xC0 to 0xDE but the multiplication sign)
    move up by 32. *)
Definition lower_char (c : ascii) : ascii :=
  if in_range 65 90 c || in_range 192 214 c || in_range 216 222 c
  then ascii_of_N (code c + 32)
  else c.

Definition lower (s : text) : text := map lower_char s.

(** [<] on the tuples [(-x[1], -x[3], x[0])] and [(-x[2], -x[1], x[0])]. *)
Definition count_key_lt (k1 k2 : Z * Q * text) : bool :=
  let '(c1, a1, m1) := k1 in
  let '(c2, a2, m2) := k2 in
  if c1 =? c2 then
    match (a1 ?= a2)%Q with
    | Lt => true
    | Gt => false
    | Eq => text_ltb m1 m2
    end
  else c1 <? c2.

Definition total_key_lt (k1 k2 : Z * Z * text) : bool :=
  let '(t1, c1, m1) := k1 in
  let '(t2, c2, m2) := k2 in
  if t1 =? t2 then (if c1 =? c2 then text_ltb m1 m2 else c1 <? c2)
  else t1 <? t2.

Definition count_key (x : row) : Z * Q * text :=
  (- r_count x, (- r_avg x)%Q, r_method x).

Definition total_key (x : row) : Z * Z * text :=
  (- r_total_ms x, - r_count x, r_method x).

Definition method_key (x : row) : text := lower (r_method x).

(** The [rows.sort] of [main] for each choice of [--sort]. *)
Definition resort (choice : sort_choice) (rows : list row) : list row :=
  match choice with
  | SortCount => sort count_key_lt count_key rows
  | SortTotal => sort total_key_lt total_key rows
  | SortMethod => sort text_ltb method_key rows
  | SortAvg => rows
  end.

(** [if args.top and args.top > 0: rows = rows[:args.top]] *)
Definition take_top (top : Z) (rows : list row) : list row :=
  if negb (top =? 0) && (top >? 0) then slice_to rows top else rows.

(** The format specifications [<w] and [>w]: padding with spaces up to the
    width, never cutting. *)
Definition ljust (s : text) (w : Z) : text :=
  s ++ repeat " "%char (Z.to_nat (w - len s)).

Definition rjust (s : text) (w : Z) : text :=
  repeat " "%char (Z.to_nat (w - len s)) ++ s.

Definition digit_char (d : Z) : ascii := ascii_of_N (Z.to_N (48 + d)).

(** The decimal digits of [n >= 0]; the fuel is a bound on their number. *)
Fixpoint digits_of (fuel : nat) (n : Z) : text :=
  match fuel with
  | O => []
  | S fuel' =>
      if n <? 10 then [digit_char n]
      else digits_of fuel' (n / 10) ++ [digit_char (n mod 10)]
  end.

(** The presentation type [d]. *)
Definition format_d (n : Z) : text :=
  if n <? 0 then "-"%char :: digits_of (S (Z.to_nat (Z.log2 (- n)))) (- n)
  else digits_of (S (Z.to_nat (Z.log2 n))) n.

(** The integer nearest to [q >= 0], ties to even. *)
Definition round_half_even (q : Q) : Z :=
  let n := Qnum q in
  let d := Z.pos (Qden q) in
  let f := n / d in
  let r := n mod d in
  if (d <? 2 * r) || ((d =? 2 * r) && Z.odd f) then f + 1 else f.

(** The presentation type [.3f] of a binary64 number held as a rational:
    the decimal with three places nearest to it, ties to even. *)
Definition format_3f (q : Q) : text :=
  let n := round_half_even ((if Qle_bool 0 q then q else - q) * 1000) in
  (if Qle_bool 0 q then [] else ["-"%char]) ++
  format_d (n / 1000) ++ "."%char ::
  [digit_char (n / 100 mod 10); digit_char (n / 10 mod 10); digit_char (n mod 10)].

(** The header line, the rule under it and the line of a row. *)
Definition header_line (w : Z) : text :=
  ljust (lit "Method") w ++ " "%char :: rjust (lit "Count") 7 ++
  " "%char :: rjust (lit "Total(ms)") 12 ++ " "%char :: rjust (lit "Avg(ms)") 10.

Definition rule_line (w : Z) : text :=
  repeat "-"%char (length (header_line w)).

Definition row_line (w : Z) (x : row) : text :=
  let name := ellipsize_middle (r_method x) w dots in
  ljust name w ++ " "%char :: rjust (format_d (r_count x)) 7 ++
  " "%char :: rjust (format_d (r_total_ms x)) 12 ++
  " "%char :: rjust (format_3f (r_avg x)) 10.

(** [main] on the parsed arguments: the lines it prints, for the lines [fp]
    of the log file. *)
Definition main (fp : list text) (top : Z) (choice : sort_choice) (width : Z)
    : option (list text) :=
  match compute_stats fp with
  | None => None
  | Some rows =>
      let rows := resort choice rows in
      let rows := take_top top rows in
      let w := Z.max 10 width in
      Some (header_line w :: rule_line w :: map (row_line w) rows)
  end.

(** ** Invariants of the stacks and of the statistics *)

(** Every open frame was entered at [t] or before. *)
Definition started_by (t : Z) (stacks : gmap text (list frame)) : Prop :=
  map_Forall (fun _ stk => Forall (fun f : frame => snd f <= t) stk) stacks.

(** The intervals of a method, and the entry and exit events of a method. *)
Definition completed (m : text) (ivs : list interval) : Z :=
  len (List.filter (fun iv => text_eqb (fst iv) m) ivs).

Definition entries (m : text) (evs : list event) : Z :=
  len (List.filter (is_entry_of m) evs).

Definition exits (m : text) (evs : list event) : Z :=
  len (List.filter (is_exit_of m) evs).

(** The statistics hold each method once, with a count of at least one and
    a total that is not negative. *)
Definition stats_ok (stats : list (text * method_stats)) : Prop :=
  NoDup (map fst stats) /\
  Forall (fun e => 1 <= count (snd e) /\ 0 <= total_ms (snd e)) stats.

(** A row as [compute_stats] builds them from sound statistics. *)
Definition row_ok (x : row) : Prop :=
  1 <= r_count x /\ 0 <= r_total_ms x /\
  r_avg x = truediv (r_total_ms x) (r_count x) /\ (0 <= r_avg x)%Q.

(** The orders of [--sort count], [--sort total] and [--sort method] in
    words: [x] may stand before [y]. *)
Definition ordered_by_count (x y : row) : Prop :=
  r_count y < r_count x \/
  r_count x = r_count y /\
  ((r_avg y < r_avg x)%Q \/
   (r_avg x == r_avg y)%Q /\ lex_le (r_method x) (r_method y)).

Definition ordered_by_total (x y : row) : Prop :=
  r_total_ms y < r_total_ms x \/
  r_total_ms x = r_total_ms y /\
  (r_count y < r_count x \/
   r_count x = r_count y /\ lex_le (r_method x) (r_method y)).

Definition ordered_by_method (x y : row) : Prop :=
  lex_le (lower (r_method x)) (lower (r_method y)).

(** The order of the keys of [--sort count] and [--sort total], in words. *)
Definition count_key_le (k1 k2 : Z * Q * text) : Prop :=
  let '(c1, a1, m1) := k1 in
  let '(c2, a2, m2) := k2 in
  c1 < c2 \/ c1 = c2 /\ ((a1 < a2)%Q \/ (a1 == a2)%Q /\ lex_le m1 m2).

Definition total_key_le (k1 k2 : Z * Z * text) : Prop :=
  let '(t1, c1, m1) := k1 in
  let '(t2, c2, m2) := k2 in
  t1 < t2 \/ t1 = t2 /\ (c1 < c2 \/ c1 = c2 /\ lex_le m1 m2).

(** * Properties *)

(** ** Python lists *)

Lemma len_nonneg {A} (l : list A) : 0 <= len l.
Proof. unfold len. lia. Qed.

Lemma len_app {A} (l1 l2 : list A) : len (l1 ++ l2) = len l1 + len l2.
Proof. unfold len. rewrite length_app. lia. Qed.

Lemma pop_snoc {A} (l : list A) (x : A) : pop (l ++ [x]) = Some (x, l).
Proof. unfold pop. rewrite rev_unit, rev_involutive. reflexivity. Qed.

Lemma slice_to_nonneg {A} (l : list A) (n : Z) :
  0 <= n -> slice_to l n = firstn (Z.to_nat n) l.
Proof.
  intros Hn. unfold slice_to.
  destruct (Z.ltb_spec n 0); [lia | reflexivity].
Qed.

Lemma slice_from_neg {A} (l : list A) (n : Z) :
  0 < n <= len l -> slice_from l (- n) = skipn (length l - Z.to_nat n) l.
Proof.
  intros Hn. unfold slice_from, len in *.
  destruct (Z.ltb_spec (- n) 0); [| lia].
  f_equal. lia.
Qed.

Lemma len_firstn {A} (l : list A) (n : nat) :
  Z.of_nat n <= len l -> len (firstn n l) = Z.of_nat n.
Proof. unfold len. intros H. rewrite length_firstn. lia. Qed.

Lemma len_skipn {A} (l : list A) (n : nat) :
  len (skipn n l) = Z.of_nat (length l - n).
Proof. unfold len. now rewrite length_skipn. Qed.

(** ** [ellipsize_middle] *)

Lemma len_dots : len dots = 3.
Proof. reflexivity. Qed.

(** The general case of [ellipsize_middle]: a text longer than a width
    beyond the ellipsis keeps [left] characters of its head and [right] of
    its tail. *)
Lemma ellipsize_middle_cut (t : text) (w : Z) :
  3 < w -> w < len t ->
  let left := Z.to_nat ((w - 3 + 1) / 2) in
  let right := Z.to_nat (w - 3 - (w - 3 + 1) / 2) in
  ellipsize_middle t w dots =
    firstn left t ++ dots ++ skipn (length t - right) t /\
  Z.of_nat left + Z.of_nat right = w - 3 /\
  (right <= left)%nat /\
  (left < length t)%nat.
Proof.
  intros Hw Ht left right.
  assert (Hq : 0 < (w - 3 + 1) / 2 <= w - 3).
  { split.
    - apply Z.div_str_pos. lia.
    - apply Z.div_le_upper_bound; lia. }
  assert (Hr : 2 * ((w - 3 + 1) / 2) >= w - 3).
  { pose proof (Z.mod_pos_bound (w - 3 + 1) 2 ltac:(lia)).
    pose proof (Z.div_mod (w - 3 + 1) 2 ltac:(lia)). lia. }
  unfold len in Ht.
  repeat split; try (subst left right; lia).
  unfold ellipsize_middle. rewrite len_dots.
  destruct (Z.leb_spec w 0); [lia |].
  destruct (Z.leb_spec (len t) w); [unfold len in *; lia |].
  destruct (Z.leb_spec w 3); [lia |].
  rewrite slice_to_nonneg by lia. fold left.
  destruct (Z.gtb_spec (w - 3 - (w - 3 + 1) / 2) 0) as [Hpos | Hzero].
  - rewrite slice_from_neg by (unfold len; lia). reflexivity.
  - assert (right = 0%nat) as -> by (subst right; lia).
    rewrite Nat.sub_0_r, skipn_all. reflexivity.
Qed.

(** C9. A method name longer than a column width [w >= 10] is rendered as
    its first [left] characters, the three dots and its last [right]
    characters, where [left + right = w - 3]; the rendered name is exactly
    [w] long; [left] is one more than [right] when [w - 3] is odd (and they
    are equal when it is even).  The name column of [main] renders with
    [ellipsize_middle] at its width. *)
Theorem ellipsize_middle_centered (s : text) (w : Z) :
  10 <= w -> len s > w ->
  exists left right : nat,
    ellipsize_middle s w dots =
      firstn left s ++ lit "..." ++ skipn (length s - right) s /\
    Z.of_nat left + Z.of_nat right = w - 3 /\
    len (ellipsize_middle s w dots) = w /\
    (Z.odd (w - 3) = true -> left = S right) /\
    (Z.even (w - 3) = true -> left = right) /\
    render_name s w = ellipsize_middle s w dots.
Proof.
  intros Hw Hs.
  destruct (ellipsize_middle_cut s w) as (Heq & Hsum & Hle & Hlt); [lia.. |].
  set (left := Z.to_nat ((w - 3 + 1) / 2)) in *.
  set (right := Z.to_nat (w - 3 - (w - 3 + 1) / 2)) in *.
  exists left, right. split; [exact Heq |]. split; [exact Hsum |].
  assert (Hdiv : 0 <= (w - 3 + 1) / 2) by (apply Z.div_pos; lia).
  split; [| split; [| split]].
  - rewrite Heq, !len_app, len_dots, len_firstn, len_skipn by (unfold len in *; lia).
    unfold len in *. lia.
  - intros Hodd. rewrite Z.odd_spec in Hodd. destruct Hodd as [k Hk].
    assert ((w - 3 + 1) / 2 = k + 1).
    { replace (w - 3 + 1) with ((k + 1) * 2) by lia. apply Z.div_mul. lia. }
    subst left right. lia.
  - intros Heven. rewrite Z.even_spec in Heven. destruct Heven as [k Hk].
    assert ((w - 3 + 1) / 2 = k).
    { replace (w - 3 + 1) with (1 + k * 2) by lia.
      rewrite Z.div_add by lia. reflexivity. }
    subst left right. lia.
  - unfold render_name, column_width. f_equal. lia.
Qed.

Lemma ellipsize_middle_centered_witness :
  exists left right : nat,
    ellipsize_middle (lit "com/ibm/Foo.bar()V") 10 dots =
      firstn left (lit "com/ibm/Foo.bar()V") ++ lit "..." ++
      skipn (length (lit "com/ibm/Foo.bar()V") - right) (lit "com/ibm/Foo.bar()V") /\
    Z.of_nat left + Z.of_nat right = 10 - 3 /\
    len (ellipsize_middle (lit "com/ibm/Foo.bar()V") 10 dots) = 10 /\
    (Z.odd (10 - 3) = true -> left = S right) /\
    (Z.even (10 - 3) = true -> left = right) /\
    render_name (lit "com/ibm/Foo.bar()V") 10 =
      ellipsize_middle (lit "com/ibm/Foo.bar()V") 10 dots.
Proof.
  apply (ellipsize_middle_centered (lit "com/ibm/Foo.bar()V") 10);
    [lia | reflexivity].
Defined.

Example ellipsize_middle_example :
  ellipsize_middle (lit "com/ibm/Foo.bar()V") 10 dots = lit "com/...()V".
Proof. reflexivity. Qed.

(** C10. [ellipsize_middle] is defined on every text and every width, and
    its result never exceeds the width: it is [min(len(text), max(0,
    max_len))] long.  A width of zero or less gives the empty text, a text
    that fits is returned as it is, and a longer text at a width of 1 to 3
    is cut to its first [max_len] characters. *)
Theorem ellipsize_middle_length (t : text) (max_len : Z) :
  len (ellipsize_middle t max_len dots) = Z.min (len t) (Z.max 0 max_len) /\
  (max_len <= 0 -> ellipsize_middle t max_len dots = []) /\
  (len t <= max_len -> ellipsize_middle t max_len dots = t) /\
  (0 < max_len <= 3 -> max_len < len t ->
   ellipsize_middle t max_len dots = firstn (Z.to_nat max_len) t).
Proof.
  pose proof (len_nonneg t) as Hlen.
  assert (Hnil : max_len <= 0 -> ellipsize_middle t max_len dots = []).
  { intros H. unfold ellipsize_middle. destruct (Z.leb_spec max_len 0); [reflexivity | lia]. }
  assert (Hfit : len t <= max_len -> ellipsize_middle t max_len dots = t).
  { intros H. unfold ellipsize_middle.
    destruct (Z.leb_spec max_len 0).
    - destruct t; [reflexivity | unfold len in *; simpl in *; lia].
    - destruct (Z.leb_spec (len t) max_len); [reflexivity | lia]. }
  assert (Hcut : 0 < max_len <= 3 -> max_len < len t ->
                 ellipsize_middle t max_len dots = firstn (Z.to_nat max_len) t).
  { intros H1 H2. unfold ellipsize_middle. rewrite len_dots.
    destruct (Z.leb_spec max_len 0); [lia |].
    destruct (Z.leb_spec (len t) max_len); [lia |].
    destruct (Z.leb_spec max_len 3); [| lia].
    apply slice_to_nonneg. lia. }
  split; [| auto].
  destruct (Z.le_gt_cases max_len 0) as [H0 | H0].
  { rewrite Hnil by assumption. unfold len at 1. simpl. lia. }
  destruct (Z.le_gt_cases (len t) max_len) as [H1 | H1].
  { rewrite Hfit by assumption. lia. }
  destruct (Z.le_gt_cases max_len 3) as [H3 | H3].
  { rewrite Hcut by lia. rewrite len_firstn by lia. lia. }
  destruct (ellipsize_middle_cut t max_len) as (Heq & Hsum & Hle & Hlt); [lia.. |].
  rewrite Heq, !len_app, len_dots, len_firstn, len_skipn by (unfold len in *; lia).
  unfold len in *. lia.
Qed.

Lemma ellipsize_middle_length_witness :
  ellipsize_middle (lit "abcdef") 0 dots = [] /\
  ellipsize_middle (lit "abcdef") 6 dots = lit "abcdef" /\
  ellipsize_middle (lit "abcdef") 2 dots = lit "ab".
Proof.
  destruct (ellipsize_middle_length (lit "abcdef") 0) as (_ & H0 & _ & _).
  destruct (ellipsize_middle_length (lit "abcdef") 6) as (_ & _ & H6 & _).
  destruct (ellipsize_middle_length (lit "abcdef") 2) as (_ & _ & _ & H2).
  split; [apply H0; lia |].
  split; [apply H6; vm_compute; discriminate |].
  apply H2; [lia | reflexivity].
Defined.

(** ** The call-stack reconstructor *)

Lemma text_eqb_eq (s1 s2 : text) : text_eqb s1 s2 = true <-> s1 = s2.
Proof. unfold text_eqb. apply bool_decide_eq_true. Qed.

Lemma text_eqb_refl (s : text) : text_eqb s s = true.
Proof. now apply text_eqb_eq. Qed.

Lemma text_eqb_neq (s1 s2 : text) : s1 <> s2 -> text_eqb s1 s2 = false.
Proof. intros H. unfold text_eqb. now apply bool_decide_eq_false. Qed.

(** The search loop, when the stack holds an entry of the method: it stops
    at the topmost one, with the frames above it in [temp], top first. *)
Lemma pop_until_found (method : text) (s_ms : Z) (below above : list frame) :
  Forall (other method) above ->
  forall (fuel : nat) (temp : list frame),
    (length above < fuel)%nat ->
    pop_until fuel method (below ++ (method, s_ms) :: above) temp =
      (below, temp ++ rev above, Some (method, s_ms)).
Proof.
  induction above as [| f above IH] using rev_ind; intros Hall fuel temp Hfuel.
  - destruct fuel as [| fuel]; [simpl in Hfuel; lia |].
    cbn [pop_until]. rewrite pop_snoc, text_eqb_refl, app_nil_r. reflexivity.
  - apply Forall_app in Hall as [Hall Hf].
    apply Forall_inv in Hf. unfold other in Hf.
    rewrite length_app in Hfuel. simpl in Hfuel.
    destruct fuel as [| fuel]; [lia |].
    cbn [pop_until].
    replace (below ++ (method, s_ms) :: above ++ [f])
      with ((below ++ (method, s_ms) :: above) ++ [f])
      by (rewrite <- app_assoc; reflexivity).
    rewrite pop_snoc. destruct f as [mth s]. simpl in Hf.
    rewrite text_eqb_neq by assumption.
    rewrite IH by (assumption || lia).
    rewrite rev_unit. simpl. rewrite <- app_assoc. reflexivity.
Qed.

(** The search loop, when no frame is an entry of the method: the stack is
    emptied into [temp]. *)
Lemma pop_until_missing (method : text) (stk : list frame) :
  Forall (other method) stk ->
  forall (fuel : nat) (temp : list frame),
    (length stk <= fuel)%nat ->
    pop_until fuel method stk temp = ([], temp ++ rev stk, None).
Proof.
  induction stk as [| f stk IH] using rev_ind; intros Hall fuel temp Hfuel.
  - destruct fuel; simpl; rewrite app_nil_r; reflexivity.
  - apply Forall_app in Hall as [Hall Hf].
    apply Forall_inv in Hf. unfold other in Hf.
    rewrite length_app in Hfuel. simpl in Hfuel.
    destruct fuel as [| fuel]; [lia |].
    cbn [pop_until]. rewrite pop_snoc. destruct f as [mth s]. simpl in Hf.
    rewrite text_eqb_neq by assumption.
    rewrite IH by (assumption || lia).
    rewrite rev_unit. simpl. rewrite <- app_assoc. reflexivity.
Qed.

(** The second loop gives the frames of [temp] back in their stack order. *)
Lemma put_back_all (temp : list frame) :
  forall (fuel : nat) (stk : list frame),
    (length temp <= fuel)%nat ->
    put_back fuel stk temp = stk ++ rev temp.
Proof.
  induction temp as [| f temp IH] using rev_ind; intros fuel stk Hfuel.
  - destruct fuel; simpl; rewrite app_nil_r; reflexivity.
  - rewrite length_app in Hfuel. simpl in Hfuel.
    destruct fuel as [| fuel]; [lia |].
    cbn [put_back]. rewrite pop_snoc, IH by lia.
    rewrite rev_unit. simpl. rewrite <- app_assoc. reflexivity.
Qed.

Lemma stack_of_insert (stacks : gmap text (list frame)) (tid : text) (stk : list frame) :
  stack_of (<[tid := stk]> stacks) tid = stk.
Proof. unfold stack_of. now rewrite lookup_insert_eq. Qed.

Lemma stack_of_touch (stacks : gmap text (list frame)) (tid tid' : text) :
  stack_of (touch stacks tid) tid' = stack_of stacks tid'.
Proof.
  unfold touch, stack_of.
  destruct (stacks !! tid) eqn:E; [reflexivity |].
  destruct (decide (tid = tid')) as [-> | Hne].
  - now rewrite lookup_insert_eq, E.
  - now rewrite lookup_insert_ne.
Qed.

Lemma touch_insert (stacks : gmap text (list frame)) (tid : text) (stk : list frame) :
  <[tid := stk]> (touch stacks tid) = <[tid := stk]> stacks.
Proof.
  unfold touch. destruct (stacks !! tid); [reflexivity |].
  apply insert_insert_eq.
Qed.

Lemma touch_is_insert (stacks : gmap text (list frame)) (tid : text) :
  touch stacks tid = <[tid := stack_of stacks tid]> stacks.
Proof.
  unfold touch, stack_of. destruct (stacks !! tid) eqn:E; simpl.
  - symmetry. now apply insert_id.
  - reflexivity.
Qed.

(** An entry pushes its frame. *)
Lemma apply_entry stacks stats (tid method : text) (t : Z) :
  apply_event stacks stats tid (lit ">") method t =
    (<[tid := stack_of stacks tid ++ [(method, t)]]> stacks, stats, None).
Proof. reflexivity. Qed.

(** An exit whose method has an open entry on the thread: the topmost such
    frame leaves the stack, the frames above it stay, and the interval is
    counted unless it is negative. *)
Lemma apply_exit_found stacks stats (tid arrow method : text) (t s_ms : Z)
    (below above : list frame) :
  arrow <> lit ">" ->
  stack_of stacks tid = below ++ (method, s_ms) :: above ->
  Forall (other method) above ->
  apply_event stacks stats tid arrow method t =
    (<[tid := below ++ above]> stacks,
     (if t - s_ms >=? 0 then bump stats method (t - s_ms) else stats),
     Some (method, t - s_ms)).
Proof.
  intros Harrow Hstk Habove. unfold apply_event.
  rewrite text_eqb_neq by assumption.
  rewrite stack_of_touch, Hstk.
  destruct (below ++ (method, s_ms) :: above) as [| f0 stk0] eqn:E.
  { destruct below; discriminate. }
  rewrite <- E.
  rewrite pop_until_found
    by (assumption || (rewrite length_app; simpl; lia)).
  rewrite put_back_all by (simpl; lia).
  change ([] ++ rev above) with (rev above).
  rewrite rev_involutive, touch_insert.
  destruct (t - s_ms >=? 0); reflexivity.
Qed.

(** An exit whose method has no open entry on the thread. *)
Lemma apply_exit_missing stacks stats (tid arrow method : text) (t : Z) :
  arrow <> lit ">" ->
  Forall (other method) (stack_of stacks tid) ->
  apply_event stacks stats tid arrow method t =
    (<[tid := stack_of stacks tid]> stacks, stats, None).
Proof.
  intros Harrow Hall. unfold apply_event.
  rewrite text_eqb_neq by assumption.
  rewrite stack_of_touch.
  destruct (stack_of stacks tid) as [| f0 stk0] eqn:E.
  { rewrite touch_is_insert, E. reflexivity. }
  rewrite pop_until_missing by (assumption || lia).
  rewrite put_back_all by (simpl; lia).
  change ([] ++ rev (f0 :: stk0)) with (rev (f0 :: stk0)).
  rewrite rev_involutive, touch_insert. reflexivity.
Qed.

(** Every stack splits at its topmost entry of a method, if it has one. *)
Lemma split_topmost (method : text) (stk : list frame) :
  Forall (other method) stk \/
  exists s_ms below above,
    stk = below ++ (method, s_ms) :: above /\ Forall (other method) above.
Proof.
  induction stk as [| [m s] stk IH].
  - left. constructor.
  - destruct IH as [Hall | (s_ms & below & above & -> & Habove)].
    + destruct (decide (m = method)) as [-> | Hne].
      * right. exists s, [], stk. split; [reflexivity | assumption].
      * left. constructor; assumption.
    + right. exists s_ms, ((m, s) :: below), above. split; [reflexivity | assumption].
Qed.

(** C1, as the code has it.  An exit of [method] at time [t] on a thread
    whose topmost entry of [method] has frames above it removes that entry
    alone: the frames above it go back on the stack in their order and stay
    open, and the interval [(method, t - start_time)] is completed (and
    counted when it is not negative). *)
Theorem exit_removes_topmost_entry stacks stats (tid method : text) (t s_ms : Z)
    (below above : list frame) :
  stack_of stacks tid = below ++ (method, s_ms) :: above ->
  Forall (other method) above ->
  let '(stacks', stats', iv) := apply_event stacks stats tid (lit "<") method t in
  stack_of stacks' tid = below ++ above /\
  iv = Some (method, t - s_ms) /\
  stats' = (if t - s_ms >=? 0 then bump stats method (t - s_ms) else stats).
Proof.
  intros Hstk Habove.
  rewrite (apply_exit_found stacks stats tid (lit "<") method t s_ms below above)
    by (assumption || discriminate).
  rewrite stack_of_insert. auto.
Qed.

Lemma exit_removes_topmost_entry_witness :
  let stacks : gmap text (list frame) :=
    {[ lit "0x1" := [(lit "A", 0); (lit "B", 1)] ]} in
  let '(stacks', stats', iv) :=
    apply_event stacks [] (lit "0x1") (lit "<") (lit "A") 2 in
  stack_of stacks' (lit "0x1") = [] ++ [(lit "B", 1)] /\
  iv = Some (lit "A", 2 - 0) /\
  stats' = (if 2 - 0 >=? 0 then bump [] (lit "A") (2 - 0) else []).
Proof.
  apply (exit_removes_topmost_entry
           {[ lit "0x1" := [(lit "A", 0); (lit "B", 1)] ]} []
           (lit "0x1") (lit "A") 2 0 [] [(lit "B", 1)]).
  - reflexivity.
  - repeat constructor. discriminate.
Defined.

(** C1 as stated fails: the frames above the matching entry are not
    discarded.  After [Entry(A,0), Entry(B,1)], the exit of [A] leaves [B]
    on the stack. *)
Lemma exit_discards_frames_above_counterexample :
  ~ (forall stacks stats (tid method : text) (t s_ms : Z) (below above : list frame),
        stack_of stacks tid = below ++ (method, s_ms) :: above ->
        Forall (other method) above ->
        stack_of (apply_event stacks stats tid (lit "<") method t).1.1 tid = below).
Proof.
  intros H.
  specialize (H {[ lit "0x1" := [(lit "A", 0); (lit "B", 1)] ]} []
                (lit "0x1") (lit "A") 2 0 [] [(lit "B", 1)]).
  assert (Hstk : stack_of
            (apply_event {[ lit "0x1" := [(lit "A", 0); (lit "B", 1)] ]} []
               (lit "0x1") (lit "<") (lit "A") 2).1.1 (lit "0x1")
          = [(lit "B", 1)]) by (vm_compute; reflexivity).
  rewrite Hstk in H. discriminate H.
  - reflexivity.
  - repeat constructor. discriminate.
Qed.

(** C4. An exit on a thread whose stack is empty or has no entry of the
    method is dropped: no interval, the statistics as they were, and the
    thread's stack holding the same frames in the same order. *)
Theorem exit_unmatched_dropped stacks stats (tid method : text) (t : Z) :
  Forall (other method) (stack_of stacks tid) ->
  let '(stacks', stats', iv) := apply_event stacks stats tid (lit "<") method t in
  iv = None /\ stats' = stats /\ stack_of stacks' tid = stack_of stacks tid.
Proof.
  intros Hall.
  rewrite apply_exit_missing by (assumption || discriminate).
  rewrite stack_of_insert. auto.
Qed.

Lemma exit_unmatched_dropped_witness :
  let stacks : gmap text (list frame) :=
    {[ lit "0x1" := [(lit "A", 0); (lit "B", 1)] ]} in
  let stats := [(lit "A", MethodStats 1 7)] in
  let '(stacks', stats', iv) :=
    apply_event stacks stats (lit "0x1") (lit "<") (lit "X") 2 in
  iv = None /\ stats' = stats /\
  stack_of stacks' (lit "0x1") = stack_of stacks (lit "0x1").
Proof.
  apply (exit_unmatched_dropped
           {[ lit "0x1" := [(lit "A", 0); (lit "B", 1)] ]}
           [(lit "A", MethodStats 1 7)] (lit "0x1") (lit "X") 2).
  vm_compute. repeat constructor; discriminate.
Defined.

(** The stacks of the other threads after any event. *)
Lemma apply_event_frame stacks stats (tid arrow method : text) (t : Z) (tid' : text) :
  tid' <> tid ->
  (apply_event stacks stats tid arrow method t).1.1 !! tid' = stacks !! tid'.
Proof.
  intros Hne.
  destruct (decide (arrow = lit ">")) as [-> | Harrow].
  - rewrite apply_entry. simpl. now rewrite lookup_insert_ne.
  - destruct (split_topmost method (stack_of stacks tid))
      as [Hall | (s_ms & below & above & Hstk & Habove)].
    + rewrite apply_exit_missing by assumption. simpl. now rewrite lookup_insert_ne.
    + rewrite (apply_exit_found _ _ _ _ _ _ s_ms below above) by assumption.
      simpl. now rewrite lookup_insert_ne.
Qed.

Lemma loop_body_inv (st : state) (ev : event) (st' : state) (iv : option interval) :
  loop_body st ev = Some (st', iv) ->
  exists ms,
    parse_ts_ms (ev_ts ev) = Some ms /\
    let abs_ms := (normalize (last_abs_ms st) (day_offset st) ms).1 in
    let r := apply_event (stacks st) (stats st) (ev_tid ev) (ev_arrow ev)
               (ev_method ev) abs_ms in
    stacks st' = r.1.1 /\ stats st' = r.1.2 /\ iv = r.2 /\
    last_abs_ms st' = Some abs_ms /\
    day_offset st' = (normalize (last_abs_ms st) (day_offset st) ms).2.
Proof.
  unfold loop_body. intros H.
  destruct (parse_ts_ms (ev_ts ev)) as [ms |]; [| discriminate].
  exists ms. split; [reflexivity |].
  destruct (normalize (last_abs_ms st) (day_offset st) ms) as [abs_ms offset].
  cbn [fst snd].
  destruct (apply_event (stacks st) (stats st) (ev_tid ev) (ev_arrow ev)
              (ev_method ev) abs_ms) as [[stacks' stats'] iv'].
  injection H as <- <-. simpl. repeat split; reflexivity.
Qed.

(** C7. Processing one event of thread [tid], an entry or an exit, matched
    or not, leaves the stack of every other thread as it was: in the body of
    the loop, and so in each turn of the loop. *)
Theorem other_threads_untouched (tid tid' : text) :
  tid' <> tid ->
  (forall stacks stats (arrow method : text) (t : Z),
     let stacks' := (apply_event stacks stats tid arrow method t).1.1 in
     stacks' !! tid' = stacks !! tid' /\
     stack_of stacks' tid' = stack_of stacks tid') /\
  (forall (st : state) (ev : event) (st' : state) (iv : option interval),
     ev_tid ev = tid ->
     loop_body st ev = Some (st', iv) ->
     stacks st' !! tid' = stacks st !! tid' /\
     stack_of (stacks st') tid' = stack_of (stacks st) tid').
Proof.
  intros Hne. split.
  - intros stacks stats arrow method t stacks'.
    assert (H : stacks' !! tid' = stacks !! tid')
      by now apply apply_event_frame.
    split; [exact H |]. unfold stack_of. now rewrite H.
  - intros st ev st' iv <- Hstep.
    destruct (loop_body_inv _ _ _ _ Hstep) as (ms & _ & Hstacks & _).
    assert (H : stacks st' !! tid' = stacks st !! tid').
    { rewrite Hstacks. now apply apply_event_frame. }
    split; [exact H |]. unfold stack_of. now rewrite H.
Qed.

Lemma other_threads_untouched_witness :
  let ev := Event 4 (lit "00:00:00:007") (lit "0x1") (lit "<") (lit "A") in
  exists st' iv,
    loop_body sample_state ev = Some (st', iv) /\
    stacks st' !! lit "0x2" = stacks sample_state !! lit "0x2" /\
    stack_of (stacks st') (lit "0x2") = stack_of (stacks sample_state) (lit "0x2").
Proof.
  intros ev.
  destruct (loop_body sample_state ev) as [[st' iv] |] eqn:E;
    [| vm_compute in E; discriminate E].
  exists st', iv. split; [reflexivity |].
  apply (other_threads_untouched (lit "0x1") (lit "0x2") ltac:(discriminate))
    with (ev := ev) (iv := iv); [reflexivity | exact E].
Defined.

(** ** The clock normaliser *)

Lemma normalize_first (offset ms : Z) : normalize None offset ms = (ms + offset, offset).
Proof. reflexivity. Qed.

Lemma normalize_next (l offset ms : Z) :
  normalize (Some l) offset ms =
    if ms + offset <? l then (ms + (offset + day_ms), offset + day_ms)
    else (ms + offset, offset).
Proof. reflexivity. Qed.

(** After a time of day [p] at offset [offset], the next time of day is
    not given an earlier absolute time, and is again a time of day plus the
    offset of the moment. *)
Lemma normalize_monotone (p offset ms : Z) :
  time_of_day p -> time_of_day ms ->
  let '(abs_ms, offset') := normalize (Some (p + offset)) offset ms in
  p + offset <= abs_ms /\ abs_ms = ms + offset'.
Proof.
  unfold time_of_day, day_ms. intros Hp Hms. rewrite normalize_next.
  unfold day_ms. destruct (Z.ltb_spec (ms + offset) (p + offset)); lia.
Qed.

Lemma absolute_times_sorted_from (tods : list Z) :
  Forall time_of_day tods ->
  forall p offset,
    time_of_day p ->
    Sorted Z.le (p + offset :: absolute_times (Some (p + offset)) offset tods).
Proof.
  induction tods as [| ms tods IH]; intros Hall p offset Hp.
  - repeat constructor.
  - apply Forall_cons_iff in Hall as [Hms Hall].
    cbn [absolute_times].
    pose proof (normalize_monotone p offset ms Hp Hms) as Hstep.
    destruct (normalize (Some (p + offset)) offset ms) as [abs_ms offset'].
    destruct Hstep as [Hle ->].
    constructor; [apply IH; assumption | constructor; exact Hle].
Qed.

Lemma absolute_times_sorted (tods : list Z) :
  Forall time_of_day tods ->
  StronglySorted Z.le (absolute_times None 0 tods).
Proof.
  intros Hall. apply Sorted_StronglySorted; [intros x y z; apply Z.le_trans |].
  destruct tods as [| ms tods]; [constructor |].
  apply Forall_cons_iff in Hall as [Hms Hall].
  cbn [absolute_times]. rewrite normalize_first.
  now apply absolute_times_sorted_from.
Qed.

Lemma last_cons_default {A} (a : A) (l : list A) (d : A) :
  List.last (a :: l) d = List.last l a.
Proof.
  revert a d. induction l as [| b l IH]; intros a d; [reflexivity |].
  change (List.last (a :: b :: l) d) with (List.last (b :: l) d).
  now rewrite !IH.
Qed.

(** The clock of the loop after a run of events is the last of the absolute
    times of their times of day. *)
Lemma loop_clock (evs : list event) :
  forall (st st' : state) (ivs : list interval) (tods : list Z),
    loop st evs = Some (st', ivs) ->
    map (fun ev => parse_ts_ms (ev_ts ev)) evs = map Some tods ->
    last_abs_ms st' =
      List.last (map Some (absolute_times (last_abs_ms st) (day_offset st) tods))
                (last_abs_ms st).
Proof.
  induction evs as [| ev evs IH]; intros st st' ivs tods Hloop Htods.
  - destruct tods; [| discriminate]. now injection Hloop as <- _.
  - destruct tods as [| tod tods]; [discriminate |].
    injection Htods as Htod Htods. cbn [loop] in Hloop.
    destruct (loop_body st ev) as [[st1 iv] |] eqn:Hstep; [| discriminate].
    destruct (loop st1 evs) as [[st2 ivs2] |] eqn:Hrest; [| discriminate].
    injection Hloop as <- _.
    destruct (loop_body_inv _ _ _ _ Hstep) as (ms & Hms & _ & _ & _ & Hlast & Hoff).
    assert (ms = tod) as -> by congruence.
    rewrite (IH _ _ _ _ Hrest Htods), Hlast, Hoff.
    cbn [absolute_times].
    destruct (normalize (last_abs_ms st) (day_offset st) tod) as [abs_ms offset'].
    cbn [fst snd map]. now rewrite last_cons_default.
Qed.

(** C3, as the code has it.  For times of day within one day (below
    86,400,000 ms) the absolute times are [time_of_day + day_offset], with
    one day-length added to [day_offset] whenever that falls below the
    previous absolute time, and they never decrease along the events; the
    clock of the loop after any run of events is the last of them.
    [23:59:59:900] followed by [00:00:00:100] gives [t2 > t1] with
    [t2 - t1 = 200]. *)
Theorem absolute_times_monotone (tods : list Z) :
  Forall time_of_day tods ->
  StronglySorted Z.le (absolute_times None 0 tods) /\
  (forall last offset ms,
     normalize last offset ms =
       match last with
       | Some l =>
           if ms + offset <? l then (ms + (offset + 86400000), offset + 86400000)
           else (ms + offset, offset)
       | None => (ms + offset, offset)
       end) /\
  (forall evs st' ivs,
     loop init evs = Some (st', ivs) ->
     map (fun ev => parse_ts_ms (ev_ts ev)) evs = map Some tods ->
     last_abs_ms st' = List.last (map Some (absolute_times None 0 tods)) None) /\
  (exists t1 t2,
     parse_ts_ms (lit "23:59:59:900") = Some 86399900 /\
     parse_ts_ms (lit "00:00:00:100") = Some 100 /\
     absolute_times None 0 [86399900; 100] = [t1; t2] /\
     t2 > t1 /\ t2 - t1 = 200).
Proof.
  intros Hall. split; [now apply absolute_times_sorted |].
  split; [intros [l |] offset ms; reflexivity |].
  split.
  - intros evs st' ivs Hloop Htods.
    apply (loop_clock evs init st' ivs tods Hloop Htods).
  - exists 86399900, 86400100. repeat split; reflexivity.
Qed.

Lemma absolute_times_monotone_witness :
  StronglySorted Z.le (absolute_times None 0 [86399900; 100; 50; 86399999; 0]).
Proof.
  apply (absolute_times_monotone [86399900; 100; 50; 86399999; 0]).
  repeat constructor; discriminate.
Defined.

(** C3 as stated fails for the events of lines the parser accepts: an hour
    field of 99 is followed by an absolute time that is smaller. *)
Lemma absolute_times_counterexample :
  ~ (forall (fp : list text) (tods : list Z),
        map (fun ev => parse_ts_ms (ev_ts ev)) (iter_lines fp) = map Some tods ->
        StronglySorted Z.le (absolute_times None 0 tods)).
Proof.
  intros H.
  specialize (H out_of_range_lines [356400000; 0] ltac:(vm_compute; reflexivity)).
  change (absolute_times None 0 [356400000; 0]) with [356400000; 86400000] in H.
  apply StronglySorted_inv in H as [_ H].
  apply Forall_inv in H. lia.
Qed.

(** ** The order of the report *)

Section SortFacts.
Context {A K : Type} (lt : K -> K -> bool) (key : A -> K).

(** [x] may stand before [y]: the key of [y] is not below the key of [x]. *)
Let before (x y : A) : Prop := lt (key y) (key x) = false.

Hypothesis lt_asym : forall a b, lt a b = true -> lt b a = false.
Hypothesis le_trans :
  forall a b c, lt b a = false -> lt c b = false -> lt c a = false.

Lemma insert_sorted_perm (x : A) (l : list A) :
  Permutation (x :: l) (insert_sorted lt key x l).
Proof.
  induction l as [| y l IH]; simpl; [reflexivity |].
  destruct (lt (key x) (key y)); [reflexivity |].
  rewrite perm_swap. now apply perm_skip.
Qed.

Lemma insert_sorted_sorted (x : A) (l : list A) :
  StronglySorted before l -> StronglySorted before (insert_sorted lt key x l).
Proof.
  induction l as [| y l IH]; intros Hs; simpl.
  - repeat constructor.
  - apply StronglySorted_inv in Hs as [Hs Hy].
    destruct (lt (key x) (key y)) eqn:E.
    + constructor; [constructor; assumption |].
      assert (Hxy : before x y) by (apply lt_asym; exact E).
      constructor; [exact Hxy |].
      eapply List.Forall_impl; [| exact Hy].
      intros z Hyz. unfold before in *. eapply le_trans; eassumption.
    + constructor; [apply IH; exact Hs |].
      eapply Permutation_Forall; [apply insert_sorted_perm |].
      constructor; [exact E | exact Hy].
Qed.

Lemma sort_acc (l : list A) :
  forall acc,
    StronglySorted before acc ->
    let r := fold_left (fun acc x => insert_sorted lt key x acc) l acc in
    StronglySorted before r /\ Permutation (l ++ acc) r.
Proof.
  induction l as [| x l IH]; intros acc Hacc; simpl.
  - split; [assumption | reflexivity].
  - destruct (IH (insert_sorted lt key x acc)) as [Hs Hp].
    { now apply insert_sorted_sorted. }
    split; [exact Hs |].
    etransitivity; [| exact Hp].
    rewrite <- (insert_sorted_perm x acc). apply Permutation_middle.
Qed.

Lemma sort_sorted (l : list A) : StronglySorted before (sort lt key l).
Proof. apply (sort_acc l []). constructor. Qed.

Lemma sort_perm (l : list A) : Permutation l (sort lt key l).
Proof.
  destruct (sort_acc l [] ltac:(constructor)) as [_ Hp].
  now rewrite app_nil_r in Hp.
Qed.
End SortFacts.

Lemma text_ltb_lex_le (s1 s2 : text) : text_ltb s2 s1 = false <-> lex_le s1 s2.
Proof.
  revert s2. induction s1 as [| c1 s1 IH]; intros s2.
  - split; [constructor |]. now destruct s2.
  - destruct s2 as [| c2 s2]; simpl.
    + split; [discriminate | inversion 1].
    + fold (code c1) (code c2).
      destruct (N.compare_spec (code c2) (code c1)) as [Heq | Hlt | Hgt].
      * assert (c2 = c1) as ->.
        { unfold code in Heq. rewrite <- (ascii_N_embedding c1), <- (ascii_N_embedding c2).
          now f_equal. }
        rewrite IH. split; [now constructor |].
        inversion 1; subst; [lia | assumption].
      * split; [discriminate |].
        inversion 1; subst; lia.
      * split; [intros _; now constructor | reflexivity].
Qed.

Lemma lex_le_total (s1 s2 : text) : lex_le s1 s2 \/ lex_le s2 s1.
Proof.
  revert s2. induction s1 as [| c1 s1 IH]; intros s2; [left; constructor |].
  destruct s2 as [| c2 s2]; [right; constructor |].
  destruct (N.compare_spec (code c1) (code c2)) as [Heq | Hlt | Hgt].
  - assert (c1 = c2) as ->.
    { unfold code in Heq. rewrite <- (ascii_N_embedding c1), <- (ascii_N_embedding c2).
      now f_equal. }
    destruct (IH s2); [left | right]; now constructor.
  - left. now constructor.
  - right. now constructor.
Qed.

Lemma lex_le_trans (s1 s2 s3 : text) : lex_le s1 s2 -> lex_le s2 s3 -> lex_le s1 s3.
Proof.
  intros H12. revert s3. induction H12; intros s3 H23.
  - constructor.
  - inversion H23; subst; apply lex_lt; lia.
  - inversion H23; subst; [now apply lex_lt | apply lex_eq; auto].
Qed.

Lemma key_lt_false (k1 k2 : Q * Z * text) : key_lt k2 k1 = false <-> key_le k1 k2.
Proof.
  destruct k1 as [[a1 c1] m1], k2 as [[a2 c2] m2]. unfold key_lt, key_le.
  destruct (a2 ?= a1)%Q eqn:E.
  - apply Qeq_alt in E.
    destruct (Z.eqb_spec c2 c1) as [-> | Hne].
    + rewrite text_ltb_lex_le. split.
      * intros H. right. split; [now symmetry |]. right. auto.
      * intros [H | [_ [H | [_ H]]]]; [lra | lia | assumption].
    + destruct (Z.ltb_spec c2 c1); split; try discriminate; try reflexivity.
      * intros [H' | [_ [H' | [H' _]]]]; [lra | lia | lia].
      * intros _. right. split; [now symmetry |]. left. lia.
  - apply Qlt_alt in E. split; [discriminate |].
    intros [H | [H _]]; lra.
  - apply Qgt_alt in E. split; [| reflexivity].
    intros _. left. lra.
Qed.

Lemma key_le_total (k1 k2 : Q * Z * text) : key_le k1 k2 \/ key_le k2 k1.
Proof.
  destruct k1 as [[a1 c1] m1], k2 as [[a2 c2] m2]. unfold key_le.
  destruct (Q_dec a1 a2) as [[H | H] | H]; [left; left; exact H | right; left; exact H |].
  destruct (Z.lt_total c1 c2) as [Hc | [Hc | Hc]].
  - left. right. split; [assumption |]. left. assumption.
  - destruct (lex_le_total m1 m2); [left | right]; right;
      (split; [assumption || now symmetry |]); right; auto.
  - right. right. split; [now symmetry |]. left. assumption.
Qed.

Lemma key_le_trans (k1 k2 k3 : Q * Z * text) : key_le k1 k2 -> key_le k2 k3 -> key_le k1 k3.
Proof.
  destruct k1 as [[a1 c1] m1], k2 as [[a2 c2] m2], k3 as [[a3 c3] m3]. unfold key_le.
  intros [H12 | [E12 H12]] [H23 | [E23 H23]]; try (left; lra).
  right. split; [lra |].
  destruct H12 as [H12 | [-> H12]], H23 as [H23 | [-> H23]]; try (left; lia).
  right. split; [reflexivity |]. eapply lex_le_trans; eassumption.
Qed.

Lemma key_lt_asym (k1 k2 : Q * Z * text) : key_lt k1 k2 = true -> key_lt k2 k1 = false.
Proof.
  intros H. apply key_lt_false.
  destruct (key_le_total k1 k2) as [Hle | Hle]; [assumption |].
  apply key_lt_false in Hle. congruence.
Qed.

Lemma key_lt_le_trans (k1 k2 k3 : Q * Z * text) :
  key_lt k2 k1 = false -> key_lt k3 k2 = false -> key_lt k3 k1 = false.
Proof. rewrite !key_lt_false. apply key_le_trans. Qed.

Lemma default_key_le (x y : row) :
  key_le (default_key x) (default_key y) <-> ordered_before x y.
Proof.
  unfold key_le, default_key, ordered_before.
  split.
  - intros [H | [E [H | [H1 H2]]]]; [left; lra | right; split; [lra | left; lia] |].
    right. split; [lra |]. right. split; [lia | assumption].
  - intros [H | [E [H | [H1 H2]]]]; [left; lra | right; split; [lra | left; lia] |].
    right. split; [lra |]. right. split; [lia | assumption].
Qed.

(** The rows come out of the sort in the order of the report. *)
Lemma sort_default_sorted (result : list row) :
  StronglySorted ordered_before (sort_default result).
Proof.
  pose proof (sort_sorted key_lt default_key key_lt_asym key_lt_le_trans result) as H.
  unfold sort_default.
  induction H as [| x l Hl IH Hx]; constructor; [exact IH |].
  eapply List.Forall_impl; [| exact Hx].
  intros y Hxy. apply default_key_le, key_lt_false. exact Hxy.
Qed.

Lemma sort_default_perm (result : list row) :
  Permutation result (sort_default result).
Proof. apply sort_perm; [apply key_lt_asym | apply key_lt_le_trans]. Qed.

(** ** The matcher *)

Ltac by_char c :=
  destruct c as [[] [] [] [] [] [] [] []]; vm_compute; congruence.

Lemma space_not_zero (c : ascii) : is_space c = true -> is_char "0" c = false.
Proof. by_char c. Qed.

Lemma hex_not_space (c : ascii) : is_hex c = true -> is_space c = false.
Proof. by_char c. Qed.

Lemma space_not_arrow (c : ascii) : is_space c = true -> is_arrow c = false.
Proof. by_char c. Qed.

Lemma arrow_not_space (c : ascii) : is_arrow c = true -> is_space c = false.
Proof. by_char c. Qed.

Lemma digit_not_space (c : ascii) : is_digit c = true -> is_space c = false.
Proof. by_char c. Qed.

Lemma space_nonspace (c : ascii) : is_space c = true -> is_nonspace c = false.
Proof. unfold is_nonspace. now intros ->. Qed.

Lemma is_char_eq (x c : ascii) : is_char x c = true <-> c = x.
Proof.
  unfold is_char, code. rewrite N.eqb_eq. split; [| now intros ->].
  intros H. rewrite <- (ascii_N_embedding c), <- (ascii_N_embedding x). now f_equal.
Qed.

Lemma take_while_lstrip (p : ascii -> bool) (s : text) :
  take_while p s ++ lstrip p s = s.
Proof.
  induction s as [| c s IH]; simpl; [reflexivity |].
  destruct (p c); simpl; [now f_equal | reflexivity].
Qed.

Lemma take_while_all (p : ascii -> bool) (s : text) : forallb p (take_while p s) = true.
Proof.
  induction s as [| c s IH]; simpl; [reflexivity |].
  destruct (p c) eqn:E; simpl; [now rewrite E | reflexivity].
Qed.

Lemma firstn_take_while (p : ascii -> bool) (s : text) :
  firstn (length (take_while p s)) s = take_while p s.
Proof.
  induction s as [| c s IH]; simpl; [reflexivity |].
  destruct (p c); simpl; [now f_equal | reflexivity].
Qed.

(** After [lstrip] the text is empty or begins outside the class. *)
Lemma lstrip_head (p : ascii -> bool) (s : text) :
  match lstrip p s with
  | [] => True
  | c :: _ => p c = false
  end.
Proof.
  induction s as [| c s IH]; simpl; [exact I |].
  destruct (p c) eqn:E; [exact IH | exact E].
Qed.

Module ReFacts.
Import Re.

(** A greedy repetition that fails has tried to stop where it began. *)
Lemma star_greedy_none p pos s g k :
  star_greedy p pos s g k = None -> k pos s g = None.
Proof.
  destruct s as [| c s]; simpl; [auto |].
  destruct (p c); [| auto].
  destruct (star_greedy p (S pos) s g k); [discriminate | auto].
Qed.

(** A greedy repetition takes the whole run of its class, when a match of
    the rest one character earlier would be a match of the rest here too. *)
Lemma star_greedy_max p (k : cont) :
  (forall pos c s g,
     p c = true -> k (S pos) s g = None -> k pos (c :: s) g = None) ->
  forall s pos g,
    star_greedy p pos s g k =
      k (pos + length (take_while p s))%nat (lstrip p s) g.
Proof.
  intros Hk. induction s as [| c s IH]; intros pos g; simpl.
  - now rewrite Nat.add_0_r.
  - destruct (p c) eqn:E; simpl.
    + rewrite IH. replace (pos + S (length (take_while p s)))%nat
        with (S pos + length (take_while p s))%nat by lia.
      destruct (k (S pos + length (take_while p s))%nat (lstrip p s) g) eqn:Ek;
        [reflexivity |].
      apply Hk; [exact E |].
      apply star_greedy_none with (p := p). now rewrite IH.
    + now rewrite Nat.add_0_r.
Qed.

(** [pattern.search] of an anchored pattern is a match at the start. *)
Lemma search_from_bol r s pos :
  (0 < pos)%nat -> search_from (Bol >>> r) pos s = None.
Proof.
  revert pos. induction s as [| c s IH]; intros pos Hpos; simpl;
    destruct pos; try lia; simpl; [reflexivity |].
  apply IH. lia.
Qed.

Lemma search_bol r s : search (Bol >>> r) s = run r 0 s [] accept.
Proof.
  unfold search. destruct s as [| c s]; simpl.
  - now destruct (run r 0 [] [] accept).
  - destruct (run r 0 (c :: s) [] accept); [reflexivity |].
    apply search_from_bol. lia.
Qed.

End ReFacts.

Lemma line_re_tails : LINE_RE = (Re.Bol >>> RE_ts)%re.
Proof. reflexivity. Qed.

(** The method group: the longest run outside white space. *)
Lemma run_method pos s g :
  Re.run RE_method pos s g Re.accept =
    option_map (fun m => ("method"%string, m) :: g) (method_here s).
Proof.
  unfold RE_method. cbn [Re.run].
  destruct s as [| c s]; [reflexivity |].
  unfold method_here. destruct (is_nonspace c) eqn:E; [| reflexivity].
  rewrite ReFacts.star_greedy_max by discriminate.
  replace (S pos + length (take_while is_nonspace s) - pos)%nat
    with (S (length (take_while is_nonspace s))) by lia.
  unfold Re.accept. cbn [take_while firstn option_map]. rewrite E.
  now rewrite firstn_take_while.
Qed.

Lemma method_here_refuses : Re.refuses is_space
  (fun pos s g => Re.run RE_method pos s g Re.accept).
Proof.
  intros pos c s g Hc. rewrite run_method. unfold method_here.
  now rewrite space_nonspace.
Qed.

(** The marker: the arrow, white space and the method. *)
Lemma run_arrow pos s g :
  Re.run RE_arrow pos s g Re.accept =
    option_map (fun '(a, m) => ("method"%string, m) :: ("arrow"%string, [a]) :: g)
               (marker_here s).
Proof.
  unfold RE_arrow. cbn [Re.run].
  destruct s as [| a [| c s]]; cbn [marker_here].
  - reflexivity.
  - destruct (is_arrow a); reflexivity.
  - destruct (is_arrow a) eqn:Ea; [| reflexivity].
    destruct (is_space c) eqn:Ec; [| reflexivity]. cbn [andb].
    rewrite (ReFacts.star_greedy_max is_space
               (fun pos s g => Re.run RE_method pos s g Re.accept))
      by (intros pos' c' s' g' Hc' _; exact (method_here_refuses pos' c' s' g' Hc')).
    cbn beta. rewrite run_method.
    replace (S pos - pos)%nat with 1%nat by lia. cbn [firstn].
    destruct (method_here (lstrip is_space s)); reflexivity.
Qed.

(** The slack text and the marker: the first marker within reach. *)
Lemma run_slack s : forall pos g,
  Re.run RE_slack pos s g Re.accept =
    option_map (fun '(a, m) => ("method"%string, m) :: ("arrow"%string, [a]) :: g)
               (find_marker s).
Proof.
  unfold RE_slack. cbn [Re.run].
  induction s as [| c s IH]; intros pos g.
  - cbn [Re.star_lazy find_marker]. rewrite run_arrow.
    destruct (marker_here []) as [[a m] |]; reflexivity.
  - cbn [Re.star_lazy find_marker]. rewrite run_arrow.
    destruct (marker_here (c :: s)) as [[a m] |]; [reflexivity |].
    cbn [option_map].
    destruct (is_dot c); [apply IH | reflexivity].
Qed.

(** White space before the slack text: the slack text can start after all
    of it. *)
Lemma slack_after_space :
  forall pos c s g,
    is_space c = true ->
    Re.run RE_slack (S pos) s g Re.accept = None ->
    Re.run RE_slack pos (c :: s) g Re.accept = None.
Proof.
  intros pos c s g Hc. rewrite !run_slack. cbn [find_marker].
  assert (marker_here (c :: s) = None) as ->.
  { unfold marker_here. destruct s; [reflexivity |].
    now rewrite space_not_arrow. }
  destruct (is_dot c); [auto | reflexivity].
Qed.

(** The thread token and what follows it. *)
Lemma run_tid pos s g :
  Re.run RE_tid pos s g Re.accept =
    option_map
      (fun '(tid, a, m) =>
         ("method"%string, m) :: ("arrow"%string, [a]) :: ("tid"%string, tid) :: g)
      (scan_tid s).
Proof.
  unfold RE_tid, scan_tid. cbn [Re.run].
  destruct s as [| z [| x s]].
  - reflexivity.
  - destruct (is_char "0" z); reflexivity.
  - destruct (is_char "0" z); [| reflexivity].
    destruct (is_char "x" x); [| reflexivity]. cbn [andb].
    destruct s as [| h s]; [reflexivity |]. cbn [take_while lstrip].
    destruct (is_hex h) eqn:Eh; [| reflexivity].
    rewrite ReFacts.star_greedy_max; cycle 1.
    { intros pos' c' s' g' Hc' _. now rewrite (hex_not_space _ Hc'). }
    replace (S (S (S pos)) + length (take_while is_hex s) - pos)%nat
      with (3 + length (take_while is_hex s))%nat by lia.
    cbn [Nat.add firstn]. rewrite firstn_take_while.
    destruct (lstrip is_hex s) as [| c1 s1]; [reflexivity |].
    cbn [take_while lstrip].
    destruct (is_space c1) eqn:Ec; [| reflexivity].
    rewrite ReFacts.star_greedy_max by exact slack_after_space.
    rewrite run_slack.
    destruct (find_marker (lstrip is_space s1)) as [[a m] |]; reflexivity.
Qed.

Lemma tid_refuses_space : Re.refuses is_space
  (fun pos s g => Re.run RE_tid pos s g Re.accept).
Proof.
  intros pos c s g Hc. rewrite run_tid. unfold scan_tid.
  destruct s; [reflexivity |]. now rewrite (space_not_zero _ Hc).
Qed.

Ltac split_if :=
  match goal with
  | |- context [if ?b then _ else _] => destruct b
  end.

(** The time stamp and what follows it. *)
Lemma run_ts s g :
  Re.run RE_ts 0 s g Re.accept =
    option_map
      (fun '(ts, tid, a, m) =>
         ("method"%string, m) :: ("arrow"%string, [a]) :: ("tid"%string, tid)
           :: ("ts"%string, ts) :: g)
      (scan_line s).
Proof.
  unfold RE_ts, scan_line. cbn [Re.run Re.rep].
  do 12 (destruct s as [| ? s];
         [cbn; repeat first [reflexivity | split_if] |]).
  cbn [firstn skipn is_timestamp].
  do 12 (split_if; [| reflexivity]).
  cbn [andb Nat.sub]. rewrite !firstn_O, !skipn_O.
  destruct s as [| c s]; [reflexivity |]. cbn [take_while lstrip].
  destruct (is_space c) eqn:Ec; [| reflexivity].
  rewrite (ReFacts.star_greedy_max is_space
             (fun pos s g => Re.run RE_tid pos s g Re.accept))
    by (intros pos' c' s' g' Hc' _; exact (tid_refuses_space pos' c' s' g' Hc')).
  cbn beta. rewrite run_tid.
  destruct (scan_tid (lstrip is_space s)) as [[[tid a'] m] |]; reflexivity.
Qed.

(** [LINE_RE.search(line)] is the scan of the line. *)
Lemma search_line (line : text) :
  Re.search LINE_RE line =
    option_map
      (fun '(ts, tid, a, m) =>
         [("method"%string, m); ("arrow"%string, [a]); ("tid"%string, tid);
          ("ts"%string, ts)])
      (scan_line line).
Proof. rewrite line_re_tails, ReFacts.search_bol. apply run_ts. Qed.

(** Every group of [LINE_RE] takes part in each of its matches. *)
Lemma line_re_groups (line : text) (m : Re.groups) :
  Re.search LINE_RE line = Some m ->
  exists ts tid a method,
    scan_line line = Some (ts, tid, a, method) /\
    Re.group "ts" m = Some ts /\ Re.group "tid" m = Some tid /\
    Re.group "arrow" m = Some [a] /\ Re.group "method" m = Some method.
Proof.
  rewrite search_line.
  destruct (scan_line line) as [[[[ts tid] a] method] |]; [| discriminate].
  intros [= <-]. exists ts, tid, a, method. repeat split; reflexivity.
Qed.

Lemma iter_line_scan (ln : Z) (raw : text) :
  iter_line ln raw =
    match strip (line_of raw) with
    | [] => None
    | _ :: _ =>
        option_map (fun '(ts, tid, a, m) => Event ln ts tid [a] m)
                   (scan_line (line_of raw))
    end.
Proof.
  unfold iter_line. fold (line_of raw).
  destruct (strip (line_of raw)) as [| c0 s0]; [reflexivity |].
  rewrite search_line.
  destruct (scan_line (line_of raw)) as [[[[ts tid] arr] method] |]; reflexivity.
Qed.

(** ** The grammar of a trace line *)

Lemma run_of_cons (p : ascii -> bool) (s : text) :
  run_of p s <-> exists c s', s = c :: s' /\ p c = true /\ forallb p s' = true.
Proof.
  unfold run_of. split.
  - intros [Hne Hall]. destruct s as [| c s']; [congruence |].
    simpl in Hall. apply andb_true_iff in Hall as [Hc Hall]. eauto.
  - intros (c & s' & -> & Hc & Hall). split; [discriminate |].
    simpl. now rewrite Hc, Hall.
Qed.

Lemma run_of_take_while (p : ascii -> bool) (s : text) :
  take_while p s <> [] -> run_of p (take_while p s).
Proof. intros H. split; [exact H | apply take_while_all]. Qed.

Lemma lstrip_app_all (p : ascii -> bool) (u s : text) :
  forallb p u = true -> lstrip p (u ++ s) = lstrip p s.
Proof.
  induction u as [| c u IH]; simpl; [reflexivity |].
  intros H. apply andb_true_iff in H as [-> H]. auto.
Qed.

Lemma take_while_app_all (p : ascii -> bool) (u s : text) :
  forallb p u = true -> take_while p (u ++ s) = u ++ take_while p s.
Proof.
  induction u as [| c u IH]; simpl; [reflexivity |].
  intros H. apply andb_true_iff in H as [-> H]. now rewrite IH.
Qed.

Lemma lstrip_app_stop (p : ascii -> bool) (u : text) (a : ascii) (s : text) :
  p a = false -> lstrip p (u ++ a :: s) = lstrip p u ++ a :: s.
Proof.
  intros Ha. induction u as [| c u IH]; simpl; [now rewrite Ha |].
  destruct (p c); [exact IH | reflexivity].
Qed.

Lemma forallb_lstrip (p q : ascii -> bool) (s : text) :
  forallb q s = true -> forallb q (lstrip p s) = true.
Proof.
  induction s as [| c s IH]; simpl; [reflexivity |].
  intros H. destruct (p c); [| exact H].
  apply andb_true_iff in H as [_ H]. auto.
Qed.

(** No method token begins at [s]: [s] is empty or begins with white space. *)
Lemma method_here_none (s : text) :
  method_here s = None -> take_while is_nonspace s = [].
Proof.
  destruct s as [| c s]; [reflexivity |]. simpl.
  destruct (is_nonspace c); [discriminate | reflexivity].
Qed.

Lemma method_here_lstrip (s : text) : method_here (lstrip is_nonspace s) = None.
Proof.
  pose proof (lstrip_head is_nonspace s) as H.
  destruct (lstrip is_nonspace s) as [| c s']; [reflexivity |].
  simpl. now rewrite H.
Qed.

Lemma method_here_inv (s m : text) :
  method_here s = Some m ->
  run_of is_nonspace m /\ s = m ++ lstrip is_nonspace s /\
  method_here (lstrip is_nonspace s) = None.
Proof.
  destruct s as [| c s]; [discriminate |]. unfold method_here.
  destruct (is_nonspace c) eqn:E; [| discriminate]. intros [= <-].
  split; [| split].
  - apply (run_of_take_while is_nonspace (c :: s)). simpl. now rewrite E.
  - symmetry. apply (take_while_lstrip is_nonspace (c :: s)).
  - apply method_here_lstrip.
Qed.

Lemma method_here_run (m rest : text) :
  run_of is_nonspace m -> method_here rest = None ->
  method_here (m ++ rest) = Some m.
Proof.
  intros Hm Hrest. apply run_of_cons in Hm as (c & m' & -> & Hc & Hall).
  simpl. rewrite Hc. rewrite take_while_app_all by assumption.
  now rewrite method_here_none, app_nil_r.
Qed.

Lemma marker_here_inv (s : text) (a : ascii) (m : text) :
  marker_here s = Some (a, m) ->
  exists ws3 rest,
    s = a :: ws3 ++ m ++ rest /\ is_arrow a = true /\
    run_of is_space ws3 /\ run_of is_nonspace m /\ method_here rest = None.
Proof.
  destruct s as [| a' [| c s]]; try discriminate. unfold marker_here.
  destruct (is_arrow a') eqn:Ea; [| discriminate].
  destruct (is_space c) eqn:Ec; [| discriminate]. cbn [andb].
  destruct (method_here (lstrip is_space s)) as [m' |] eqn:Em; [| discriminate].
  intros [= <- <-].
  apply method_here_inv in Em as (Hm & Hs & Hrest).
  exists (c :: take_while is_space s), (lstrip is_nonspace (lstrip is_space s)).
  split; [| split; [assumption | split; [| split; assumption]]].
  - simpl. rewrite <- Hs, take_while_lstrip. reflexivity.
  - apply run_of_cons. exists c, (take_while is_space s).
    split; [reflexivity | split; [assumption | apply take_while_all]].
Qed.

Lemma marker_here_run (a : ascii) (ws3 m rest : text) :
  is_arrow a = true -> run_of is_space ws3 -> run_of is_nonspace m ->
  method_here rest = None ->
  marker_here (a :: ws3 ++ m ++ rest) = Some (a, m).
Proof.
  intros Ha Hws Hm Hrest.
  apply run_of_cons in Hws as (c & ws & -> & Hc & Hall).
  simpl. rewrite Ha, Hc. simpl.
  rewrite lstrip_app_all by assumption.
  pose proof Hm as Hm'. apply run_of_cons in Hm' as (x & m' & -> & Hx & _).
  assert (lstrip is_space ((x :: m') ++ rest) = (x :: m') ++ rest) as ->.
  { simpl. unfold is_nonspace in Hx. now destruct (is_space x). }
  now rewrite method_here_run.
Qed.

Lemma find_marker_inv (s : text) (a : ascii) (m : text) :
  find_marker s = Some (a, m) ->
  exists slack y,
    s = slack ++ y /\ forallb is_dot slack = true /\
    marker_here y = Some (a, m) /\
    (forall u v, slack = u ++ v -> v <> [] -> marker_here (v ++ y) = None).
Proof.
  induction s as [| c s IH]; cbn [find_marker].
  - destruct (marker_here []) eqn:E; [| discriminate]. discriminate E.
  - destruct (marker_here (c :: s)) as [r |] eqn:E.
    + intros [= ->]. exists [], (c :: s).
      split; [reflexivity | split; [reflexivity | split; [assumption |]]].
      intros u v Huv Hv. apply eq_sym, app_eq_nil in Huv as [_ ->]. congruence.
    + destruct (is_dot c) eqn:Ec; [| discriminate].
      intros H. destruct (IH H) as (slack & y & -> & Hdot & Hy & Hfirst).
      exists (c :: slack), y.
      split; [reflexivity | split; [simpl; now rewrite Ec | split; [assumption |]]].
      intros [| c' u] v Huv Hv; simpl in Huv.
      * subst v. exact E.
      * injection Huv as _ Huv. eauto.
Qed.

Lemma find_marker_reach (slack y : text) :
  forallb is_dot slack = true ->
  (forall u v, slack = u ++ v -> v <> [] -> marker_here (v ++ y) = None) ->
  find_marker (slack ++ y) = find_marker y.
Proof.
  induction slack as [| c slack IH]; intros Hdot Hfirst; [reflexivity |].
  simpl in Hdot. apply andb_true_iff in Hdot as [Hc Hdot].
  change ((c :: slack) ++ y) with (c :: slack ++ y). cbn [find_marker].
  pose proof (Hfirst [] (c :: slack) eq_refl ltac:(discriminate)) as H0.
  change ((c :: slack) ++ y) with (c :: slack ++ y) in H0.
  rewrite H0, Hc. apply IH; [assumption |].
  intros u v -> Hv. apply (Hfirst (c :: u) v); [reflexivity | assumption].
Qed.

Lemma find_marker_here (y : text) (r : ascii * text) :
  marker_here y = Some r -> find_marker y = Some r.
Proof. intros H. destruct y; cbn [find_marker]; now rewrite H. Qed.

Lemma is_timestamp_length (ts : text) : is_timestamp ts = true -> length ts = 12%nat.
Proof.
  do 13 (destruct ts as [| ? ts]; try discriminate). reflexivity.
Qed.

(** The scan accepts the trace lines, and only them. *)
Lemma scan_line_sound (line ts tid : text) (a : ascii) (method : text) :
  scan_line line = Some (ts, tid, a, method) -> trace_line line ts tid a method.
Proof.
  unfold scan_line.
  destruct (is_timestamp (firstn 12 line)) eqn:Ets; [| discriminate].
  destruct (take_while is_space (skipn 12 line)) as [| w ws] eqn:Ews1; [discriminate |].
  destruct (scan_tid (lstrip is_space (skipn 12 line)))
    as [[[tid' a'] m'] |] eqn:Etid; [| discriminate].
  intros [= <- <- <- <-].
  unfold scan_tid in Etid.
  destruct (lstrip is_space (skipn 12 line)) as [| z [| x s2]] eqn:Es1;
    try discriminate.
  destruct (is_char "0" z) eqn:Ez; [| discriminate].
  destruct (is_char "x" x) eqn:Ex; [| discriminate]. cbn [andb] in Etid.
  apply is_char_eq in Ez, Ex. subst z x.
  destruct (take_while is_hex s2) as [| h hs] eqn:Ehex; [discriminate |].
  destruct (take_while is_space (lstrip is_hex s2)) as [| w2 ws2] eqn:Ews2;
    [discriminate |].
  destruct (find_marker (lstrip is_space (lstrip is_hex s2)))
    as [[a m] |] eqn:Efind; [| discriminate].
  injection Etid as <- <- <-.
  apply find_marker_inv in Efind as (slack & y & Hy & Hdot & Hmark & Hfirst).
  apply marker_here_inv in Hmark as (ws3 & rest & -> & Ha & Hws3 & Hm & Hrest).
  exists (w :: ws), (h :: hs), (w2 :: ws2), slack, ws3, rest.
  split; [| split; [assumption |]].
  { rewrite <- Hy, <- Ews2, take_while_lstrip, <- Ehex.
    change (("0"%char :: "x"%char :: take_while is_hex s2) ++ lstrip is_hex s2)
      with ("0"%char :: "x"%char :: take_while is_hex s2 ++ lstrip is_hex s2).
    rewrite (take_while_lstrip is_hex s2).
    rewrite <- Es1, <- Ews1, take_while_lstrip. symmetry. apply firstn_skipn. }
  split; [rewrite <- Ews1; apply run_of_take_while; rewrite Ews1; discriminate |].
  split; [reflexivity |].
  split; [rewrite <- Ehex; apply run_of_take_while; rewrite Ehex; discriminate |].
  split; [rewrite <- Ews2; apply run_of_take_while; rewrite Ews2; discriminate |].
  do 5 (split; [assumption |]). exact Hfirst.
Qed.

Lemma space_not_hex (c : ascii) : is_space c = true -> is_hex c = false.
Proof.
  intros H. destruct (is_hex c) eqn:E; [| reflexivity].
  apply hex_not_space in E. congruence.
Qed.

Lemma take_while_stop (p : ascii -> bool) (c : ascii) (s : text) :
  p c = false -> take_while p (c :: s) = [].
Proof. simpl. now intros ->. Qed.

Lemma lstrip_stop (p : ascii -> bool) (c : ascii) (s : text) :
  p c = false -> lstrip p (c :: s) = c :: s.
Proof. simpl. now intros ->. Qed.

Lemma scan_line_complete (line ts tid : text) (a : ascii) (method : text) :
  trace_line line ts tid a method -> scan_line line = Some (ts, tid, a, method).
Proof.
  intros (ws1 & hex & ws2 & slack & ws3 & rest & -> & Hts & Hws1 & -> & Hhex &
          Hws2 & Hdot & Ha & Hws3 & Hm & Hrest & Hfirst).
  pose proof (is_timestamp_length ts Hts) as Hlen.
  apply run_of_cons in Hws1 as (w1 & ws1' & -> & Hw1 & Hall1).
  apply run_of_cons in Hhex as (h & hex' & -> & Hh & Hallh).
  apply run_of_cons in Hws2 as (w2 & ws2' & -> & Hw2 & Hall2).
  set (y := a :: ws3 ++ method ++ rest) in *.
  unfold scan_line.
  rewrite <- Hlen, take_app_length, drop_app_length, Hts.
  change ((w1 :: ws1') ++ (lit "0x" ++ h :: hex') ++ (w2 :: ws2') ++ slack ++ y)
    with (w1 :: ws1' ++ "0"%char :: "x"%char :: (h :: hex') ++ (w2 :: ws2') ++ slack ++ y).
  cbn [take_while lstrip]. rewrite Hw1.
  rewrite lstrip_app_all by assumption.
  rewrite lstrip_stop by reflexivity.
  unfold scan_tid.
  change (is_char "0" "0" && is_char "x" "x") with true. cbn iota.
  change ((h :: hex') ++ (w2 :: ws2') ++ slack ++ y)
    with (h :: hex' ++ w2 :: ws2' ++ slack ++ y).
  cbn [take_while lstrip]. rewrite Hh.
  rewrite take_while_app_all, lstrip_app_all by assumption.
  rewrite take_while_stop, lstrip_stop by now apply space_not_hex.
  cbn [take_while lstrip]. rewrite Hw2.
  rewrite lstrip_app_all by assumption.
  unfold y at 1. rewrite lstrip_app_stop by now apply arrow_not_space. fold y.
  rewrite find_marker_reach.
  - rewrite (find_marker_here y (a, method)) by now apply marker_here_run.
    cbn [option_map]. now rewrite app_nil_r.
  - now apply forallb_lstrip.
  - intros u v Huv Hv. apply (Hfirst (take_while is_space slack ++ u) v); [| assumption].
    now rewrite <- app_assoc, <- Huv, take_while_lstrip.
Qed.

(** The scan of a line succeeds exactly on the trace lines. *)
Lemma scan_line_spec (line ts tid : text) (a : ascii) (method : text) :
  scan_line line = Some (ts, tid, a, method) <-> trace_line line ts tid a method.
Proof. split; [apply scan_line_sound | apply scan_line_complete]. Qed.

Lemma lstrip_nil (p : ascii -> bool) (s : text) :
  lstrip p s = [] -> forallb p s = true.
Proof.
  induction s as [| c s IH]; simpl; [reflexivity |].
  destruct (p c); [exact IH | discriminate].
Qed.

(** A trace line is not blank. *)
Lemma trace_line_not_blank (line ts tid : text) (a : ascii) (method : text) :
  trace_line line ts tid a method -> strip line <> [].
Proof.
  intros (ws1 & hex & ws2 & slack & ws3 & rest & -> & Hts & _).
  do 13 (destruct ts as [| ? ts]; try discriminate).
  cbn [is_timestamp] in Hts.
  do 11 (apply andb_true_iff in Hts as [Hts _]).
  apply digit_not_space in Hts.
  unfold strip. cbn [app lstrip]. rewrite Hts.
  unfold rstrip. intros H.
  apply (f_equal (@rev ascii)) in H. rewrite rev_involutive in H.
  apply lstrip_nil in H. rewrite forallb_forall in H.
  specialize (H a0). rewrite Hts in H. discriminate H.
  apply in_rev. rewrite rev_involutive. now left.
Qed.

(** The parser yields an event exactly for the raw lines that are trace
    lines once their trailing newlines are gone. *)
Lemma iter_line_spec (ln : Z) (raw : text) (ev : event) :
  iter_line ln raw = Some ev <->
  exists ts tid a method,
    ev = Event ln ts tid [a] method /\ trace_line (line_of raw) ts tid a method.
Proof.
  rewrite iter_line_scan. split.
  - destruct (strip (line_of raw)) as [| c0 s0]; [discriminate |].
    destruct (scan_line (line_of raw)) as [[[[ts tid] a] method] |] eqn:E;
      [| discriminate].
    intros [= <-]. exists ts, tid, a, method.
    split; [reflexivity | now apply scan_line_sound].
  - intros (ts & tid & a & method & -> & Hline).
    pose proof (trace_line_not_blank _ _ _ _ _ Hline) as Hblank.
    destruct (strip (line_of raw)) as [| c0 s0]; [congruence |].
    now rewrite (scan_line_complete _ _ _ _ _ Hline).
Qed.

(** ** [parse_ts_ms] on the time stamps of the parser *)

Lemma sep_replace (p : ascii) :
  is_sep p = true -> (if is_char "." p then ":"%char else p) = ":"%char.
Proof. by_char p. Qed.

Lemma digit_replace (d : ascii) :
  is_digit d = true -> (if is_char "." d then ":"%char else d) = d.
Proof. by_char d. Qed.

Lemma digit_not_colon (d : ascii) : is_digit d = true -> is_char ":" d = false.
Proof. by_char d. Qed.

Lemma digit_val_range (d : ascii) : is_digit d = true -> 0 <= digit_val d <= 9.
Proof.
  unfold is_digit, in_range, digit_val. intros H.
  apply andb_true_iff in H as [H1 H2].
  apply N.leb_le in H1, H2. lia.
Qed.

Lemma parse_ts_ms_timestamp (ts : text) :
  is_timestamp ts = true ->
  let '(h, m, s, ms) := ts_fields ts in
  parse_ts_ms ts = Some (((h * 60 + m) * 60 + s) * 1000 + ms) /\
  0 <= h <= 99 /\ 0 <= m <= 99 /\ 0 <= s <= 99 /\ 0 <= ms <= 999.
Proof.
  do 13 (destruct ts as [| ? ts]; try discriminate).
  cbn [is_timestamp]. intros H.
  do 11 (apply andb_true_iff in H as [H ?]).
  unfold ts_fields. cbn [map]. split.
  - unfold parse_ts_ms, replace. cbn [map].
    repeat match goal with
           | Hd : is_digit ?d = true |- _ => rewrite (digit_replace d Hd)
           | Hp : is_sep ?p = true |- _ => rewrite (sep_replace p Hp)
           end.
    cbn [split].
    repeat match goal with
           | Hd : is_digit ?d = true |- _ => rewrite (digit_not_colon d Hd)
           end.
    change (is_char ":" ":") with true. cbn iota.
    unfold py_int. cbn [forallb map].
    repeat match goal with
           | Hd : is_digit ?d = true |- context [is_digit ?d] => rewrite Hd
           end.
    cbn [andb fold_left]. reflexivity.
  - repeat match goal with
           | Hd : is_digit ?d = true |- _ =>
               apply digit_val_range in Hd
           end.
    lia.
Qed.

Lemma parse_ts_ms_total (ts : text) :
  is_timestamp ts = true -> exists ms, parse_ts_ms ts = Some ms /\ 0 <= ms.
Proof.
  intros H. apply parse_ts_ms_timestamp in H.
  destruct (ts_fields ts) as [[[h m] s] ms].
  destruct H as (-> & Hh & Hm & Hs & Hms). eexists. split; [reflexivity | lia].
Qed.

(** ** The loop over the events of a file *)

Lemma iter_line_stamped (ln : Z) (raw : text) (ev : event) :
  iter_line ln raw = Some ev -> stamped ev.
Proof.
  intros H. apply iter_line_spec in H as (ts & tid & a & method & -> & Hline).
  destruct Hline as (ws1 & hex & ws2 & slack & ws3 & rest & _ & Hts & _).
  exact Hts.
Qed.

Lemma iter_lines_stamped (fp : list text) :
  forall ln, Forall stamped (iter_lines_from ln fp).
Proof.
  induction fp as [| raw fp IH]; intros ln; cbn [iter_lines_from]; [constructor |].
  destruct (iter_line ln raw) as [ev |] eqn:E; [| apply IH].
  constructor; [eapply iter_line_stamped; eassumption | apply IH].
Qed.

(** The loop does not raise on the events of the parser. *)
Lemma loop_body_total (st : state) (ev : event) :
  stamped ev -> exists st' iv, loop_body st ev = Some (st', iv).
Proof.
  intros H. apply parse_ts_ms_total in H as (ms & Hms & _).
  unfold loop_body. rewrite Hms.
  destruct (normalize (last_abs_ms st) (day_offset st) ms) as [abs_ms offset].
  destruct (apply_event (stacks st) (stats st) (ev_tid ev) (ev_arrow ev)
              (ev_method ev) abs_ms) as [[stacks' stats'] iv].
  eauto.
Qed.

Lemma loop_total (evs : list event) :
  Forall stamped evs -> forall st, exists st' ivs, loop st evs = Some (st', ivs).
Proof.
  induction 1 as [| ev evs Hev _ IH]; intros st; cbn [loop]; [eauto |].
  destruct (loop_body_total st ev Hev) as (st1 & iv & ->).
  destruct (IH st1) as (st' & ivs & ->). eauto.
Qed.

Lemma loop_app (evs1 evs2 : list event) :
  forall st,
    loop st (evs1 ++ evs2) =
      match loop st evs1 with
      | None => None
      | Some (st1, ivs1) =>
          match loop st1 evs2 with
          | None => None
          | Some (st2, ivs2) => Some (st2, ivs1 ++ ivs2)
          end
      end.
Proof.
  induction evs1 as [| ev evs1 IH]; intros st; cbn [loop app].
  - destruct (loop st evs2) as [[st2 ivs2] |]; reflexivity.
  - destruct (loop_body st ev) as [[st' iv] |]; [| reflexivity].
    rewrite IH. destruct (loop st' evs1) as [[st1 ivs1] |]; [| reflexivity].
    destruct (loop st1 evs2) as [[st2 ivs2] |]; [| reflexivity].
    now rewrite app_assoc.
Qed.

Lemma loop_body_same (st : state) (e1 e2 : event) :
  same_event e1 e2 -> loop_body st e1 = loop_body st e2.
Proof.
  intros (Hts & Htid & Harrow & Hmethod). unfold loop_body.
  now rewrite Hts, Htid, Harrow, Hmethod.
Qed.

Lemma loop_same (evs1 evs2 : list event) :
  Forall2 same_event evs1 evs2 -> forall st, loop st evs1 = loop st evs2.
Proof.
  induction 1 as [| e1 e2 evs1 evs2 He _ IH]; intros st; cbn [loop]; [reflexivity |].
  rewrite (loop_body_same st e1 e2 He).
  destruct (loop_body st e2) as [[st' iv] |]; [| reflexivity].
  now rewrite IH.
Qed.

Lemma iter_line_renumber (ln ln' : Z) (raw : text) :
  match iter_line ln raw, iter_line ln' raw with
  | Some e1, Some e2 => same_event e1 e2
  | None, None => True
  | _, _ => False
  end.
Proof.
  rewrite !iter_line_scan.
  destruct (strip (line_of raw)) as [| c0 s0]; [exact I |].
  destruct (scan_line (line_of raw)) as [[[[ts tid] a] method] |]; [| exact I].
  repeat split.
Qed.

Lemma iter_lines_renumber (fp : list text) :
  forall ln ln', Forall2 same_event (iter_lines_from ln fp) (iter_lines_from ln' fp).
Proof.
  induction fp as [| raw fp IH]; intros ln ln'; cbn [iter_lines_from]; [constructor |].
  pose proof (iter_line_renumber ln ln' raw) as H.
  destruct (iter_line ln raw), (iter_line ln' raw); try contradiction.
  - constructor; [exact H | apply IH].
  - apply IH.
Qed.

Lemma iter_lines_from_app (pre post : list text) :
  forall ln,
    iter_lines_from ln (pre ++ post) =
      iter_lines_from ln pre ++ iter_lines_from (ln + len pre) post.
Proof.
  induction pre as [| raw pre IH]; intros ln; cbn [iter_lines_from app].
  - unfold len. simpl. now rewrite Z.add_0_r.
  - rewrite IH.
    replace (ln + 1 + len pre) with (ln + len (raw :: pre))
      by (unfold len; simpl length; lia).
    destruct (iter_line ln raw); reflexivity.
Qed.

Lemma same_event_refl (evs : list event) : Forall2 same_event evs evs.
Proof. induction evs; constructor; [repeat split | assumption]. Qed.

(** A line the parser skips leaves no trace in the run. *)
Lemma skipped_line_no_effect (ln : Z) (raw : text) (pre post : list text) (st : state) :
  iter_line ln raw = None ->
  loop st (iter_lines (pre ++ raw :: post)) = loop st (iter_lines (pre ++ post)).
Proof.
  intros Hskip. apply loop_same. unfold iter_lines.
  rewrite !iter_lines_from_app. apply Forall2_app; [apply same_event_refl |].
  cbn [iter_lines_from].
  pose proof (iter_line_renumber ln (1 + len pre) raw) as H.
  rewrite Hskip in H.
  destruct (iter_line (1 + len pre) raw); [contradiction |].
  apply iter_lines_renumber.
Qed.

(** ** The aggregator *)

Lemma stats_get_bump stats (m : text) (d : Z) (m' : text) :
  stats_get (bump stats m d) m' =
    if text_eqb m m'
    then Some (MethodStats (count_of stats m + 1) (total_of stats m + d))
    else stats_get stats m'.
Proof.
  unfold count_of, total_of.
  induction stats as [| [k s] stats IH]; cbn [bump stats_get].
  - destruct (text_eqb m m'); reflexivity.
  - destruct (text_eqb k m) eqn:Ekm; cbn [stats_get].
    + apply text_eqb_eq in Ekm as ->.
      destruct (text_eqb m m'); reflexivity.
    + rewrite IH. destruct (text_eqb k m') eqn:Ekm'; [| reflexivity].
      apply text_eqb_eq in Ekm' as ->. now rewrite text_eqb_neq by
        (intros ->; rewrite text_eqb_refl in Ekm; discriminate).
Qed.

Lemma count_of_bump stats (m : text) (d : Z) (m' : text) :
  count_of (bump stats m d) m' =
    count_of stats m' + (if text_eqb m m' then 1 else 0) /\
  total_of (bump stats m d) m' =
    total_of stats m' + (if text_eqb m m' then d else 0).
Proof.
  unfold count_of at 1, total_of at 1. rewrite stats_get_bump.
  destruct (text_eqb m m') eqn:E.
  - apply text_eqb_eq in E as ->. simpl. auto.
  - fold (count_of stats m') (total_of stats m'). lia.
Qed.

(** What an event does to the statistics: nothing, or the interval it
    completes is added when it is not negative. *)
Lemma apply_event_stats stacks stats (tid arrow method : text) (t : Z) :
  let '(_, stats', iv) := apply_event stacks stats tid arrow method t in
  match iv with
  | None => stats' = stats
  | Some (m, d) =>
      m = method /\ stats' = (if d >=? 0 then bump stats m d else stats)
  end.
Proof.
  destruct (decide (arrow = lit ">")) as [-> | Harrow].
  - now rewrite apply_entry.
  - destruct (split_topmost method (stack_of stacks tid))
      as [Hall | (s_ms & below & above & Hstk & Habove)].
    + now rewrite apply_exit_missing.
    + now rewrite (apply_exit_found _ _ _ _ _ _ s_ms below above).
Qed.

Lemma loop_body_stats (st : state) (ev : event) (st' : state) (iv : option interval) :
  loop_body st ev = Some (st', iv) ->
  match iv with
  | None => stats st' = stats st
  | Some (m, d) =>
      m = ev_method ev /\
      stats st' = (if d >=? 0 then bump (stats st) m d else stats st)
  end.
Proof.
  intros Hstep.
  destruct (loop_body_inv _ _ _ _ Hstep) as (ms & _ & _ & Hstats & Hiv & _).
  pose proof (apply_event_stats (stacks st) (stats st) (ev_tid ev) (ev_arrow ev)
                (ev_method ev) (normalize (last_abs_ms st) (day_offset st) ms).1) as H.
  destruct (apply_event (stacks st) (stats st) (ev_tid ev) (ev_arrow ev)
              (ev_method ev) (normalize (last_abs_ms st) (day_offset st) ms).1)
    as [[stacks' stats'] iv'].
  cbn [fst snd] in Hstats, Hiv. rewrite Hstats, Hiv. exact H.
Qed.

Lemma loop_counts (evs : list event) :
  forall st st' ivs,
    loop st evs = Some (st', ivs) ->
    forall m,
      count_of (stats st') m =
        count_of (stats st) m + len (List.filter (counted m) ivs) /\
      total_of (stats st') m =
        total_of (stats st) m + durations (List.filter (counted m) ivs).
Proof.
  induction evs as [| ev evs IH]; intros st st' ivs Hloop m; cbn [loop] in Hloop.
  - injection Hloop as <- <-. unfold len, durations. simpl. lia.
  - destruct (loop_body st ev) as [[st1 iv] |] eqn:Hstep; [| discriminate].
    destruct (loop st1 evs) as [[st2 ivs2] |] eqn:Hrest; [| discriminate].
    injection Hloop as <- <-.
    destruct (IH _ _ _ Hrest m) as [Hc Ht]. rewrite Hc, Ht.
    apply loop_body_stats in Hstep.
    destruct iv as [[m1 d] |]; cbn [from_option app].
    + destruct Hstep as [_ ->]. cbn [List.filter].
      assert (Hcnt : counted m (m1, d) = text_eqb m1 m && (0 <=? d)) by reflexivity.
      rewrite Hcnt.
      destruct (count_of_bump (stats st) m1 d m) as [Hcb Htb].
      destruct (Z.geb_spec d 0), (Z.leb_spec 0 d); try lia.
      * rewrite Hcb, Htb.
        destruct (text_eqb m1 m); cbn [andb]; unfold len, durations;
          cbn [length map fold_right snd]; lia.
      * rewrite andb_false_r. auto.
    + rewrite Hstep. auto.
Qed.

(** C6. An interval completed by an event is added to its method when it is
    not negative, the count by one and the total by the duration, and is
    dropped when it is negative; the other methods keep their statistics.
    Hence after any file each method's count is the number of its completed
    intervals that are not negative, and its total is their sum. *)
Theorem counts_completed_intervals (st : state) (ev : event) (st' : state)
    (m : text) (d : Z) :
  loop_body st ev = Some (st', Some (m, d)) ->
  (0 <= d ->
   count_of (stats st') m = count_of (stats st) m + 1 /\
   total_of (stats st') m = total_of (stats st) m + d) /\
  (d < 0 -> stats st' = stats st) /\
  (forall m', m' <> m -> stats_get (stats st') m' = stats_get (stats st) m') /\
  (forall fp : list text,
     exists st_end ivs,
       loop init (iter_lines fp) = Some (st_end, ivs) /\
       forall m',
         count_of (stats st_end) m' = len (List.filter (counted m') ivs) /\
         total_of (stats st_end) m' = durations (List.filter (counted m') ivs)).
Proof.
  intros Hstep. apply loop_body_stats in Hstep as [_ Hstats].
  split; [| split; [| split]].
  - intros Hd. rewrite Hstats. destruct (Z.geb_spec d 0); [| lia].
    destruct (count_of_bump (stats st) m d m) as [-> ->].
    rewrite text_eqb_refl. auto.
  - intros Hd. rewrite Hstats. destruct (Z.geb_spec d 0); [lia | reflexivity].
  - intros m' Hne. rewrite Hstats. destruct (d >=? 0); [| reflexivity].
    rewrite stats_get_bump, text_eqb_neq by congruence. reflexivity.
  - intros fp.
    destruct (loop_total (iter_lines fp) (iter_lines_stamped fp 1) init)
      as (st_end & ivs & Hloop).
    exists st_end, ivs. split; [exact Hloop |].
    intros m'. destruct (loop_counts _ _ _ _ Hloop m') as [Hc Ht].
    rewrite Hc, Ht. unfold count_of, total_of. simpl. lia.
Qed.

Lemma counts_completed_intervals_witness :
  let ev := Event 4 (lit "00:00:00:007") (lit "0x1") (lit "<") (lit "A") in
  exists st',
    loop_body sample_state ev = Some (st', Some (lit "A", 7)) /\
    count_of (stats st') (lit "A") = count_of (stats sample_state) (lit "A") + 1 /\
    total_of (stats st') (lit "A") = total_of (stats sample_state) (lit "A") + 7.
Proof.
  intros ev.
  destruct (loop_body sample_state ev) as [[st' iv] |] eqn:E;
    [| vm_compute in E; discriminate E].
  assert (Hiv : iv = Some (lit "A", 7)).
  { assert (H : option_map snd (loop_body sample_state ev) = Some (Some (lit "A", 7)))
      by (vm_compute; reflexivity).
    rewrite E in H. now injection H. }
  subst iv. exists st'. split; [reflexivity |].
  apply (counts_completed_intervals sample_state ev st' (lit "A") 7 E). lia.
Defined.

(** ** The report *)

(** C8. The default order of the report: the rows are those of the result,
    each standing before all the rows after it, where a row stands before
    another when its average is larger, or the averages are equal and its
    count is larger, or both are equal and its method name is not greater in
    the lexicographic order.  [compute_stats] returns its rows in this
    order, for every file. *)
Theorem sort_default_ordered (result : list row) :
  StronglySorted ordered_before (sort_default result) /\
  Permutation result (sort_default result) /\
  (forall fp : list text,
     exists (st : state) (ivs : list interval),
       loop init (iter_lines fp) = Some (st, ivs) /\
       compute_stats fp = Some (sort_default (rows_of (stats st))) /\
       StronglySorted ordered_before (sort_default (rows_of (stats st)))).
Proof.
  split; [apply sort_default_sorted |].
  split; [apply sort_default_perm |].
  intros fp.
  destruct (loop_total (iter_lines fp) (iter_lines_stamped fp 1) init)
    as (st & ivs & Hloop).
  exists st, ivs. split; [exact Hloop |].
  split; [| apply sort_default_sorted].
  unfold compute_stats. now rewrite Hloop.
Qed.

(** ** The example of the description *)

(** C5. On the four lines of the example the analyzer gives two rows, the
    one of [foo] before the one of [bar]: [foo] with count 1, total 120 and
    average 120, and [bar] with count 1, total 30 and average 30.  The
    lines as a file holds them, newline at the end, give the same. *)
Theorem four_line_example :
  compute_stats four_lines =
    Some [Row (lit "foo()V") 1 120 120; Row (lit "bar()V") 1 30 30] /\
  compute_stats (map (fun l => l ++ ["010"%char]) four_lines) =
    compute_stats four_lines.
Proof. split; vm_compute; reflexivity. Qed.

(** ** The line parser *)

(** C2, as the code has it.  The parser yields an event for a line exactly
    when the line, its trailing newlines removed, is a trace line: the time
    stamp, white space, the thread token, white space, slack text, a
    direction marker, white space and a method token free of white space.
    The direction and the method are those of the first direction marker
    after the thread token that is followed by white space and a method
    token.  Any other line is skipped, and the run over the file is the run
    over the file without that line: same stacks, same rollover state, same
    statistics, same report. *)
Theorem parser_yields_trace_lines (ln : Z) (raw : text) :
  (forall ev,
     iter_line ln raw = Some ev <->
     exists ts tid a method,
       ev = Event ln ts tid [a] method /\
       trace_line (line_of raw) ts tid a method) /\
  (iter_line ln raw = None ->
   forall (pre post : list text) (st : state),
     loop st (iter_lines (pre ++ raw :: post)) = loop st (iter_lines (pre ++ post)) /\
     compute_stats (pre ++ raw :: post) = compute_stats (pre ++ post)).
Proof.
  split; [intros ev; apply iter_line_spec |].
  intros Hskip pre post st.
  split; [now apply (skipped_line_no_effect ln) |].
  unfold compute_stats. now rewrite (skipped_line_no_effect ln).
Qed.

Lemma parser_yields_trace_lines_witness :
  iter_line 2 noise_line = None /\
  compute_stats (firstn 1 four_lines ++ noise_line :: skipn 1 four_lines) =
    compute_stats (firstn 1 four_lines ++ skipn 1 four_lines).
Proof.
  split; [reflexivity |].
  apply (parser_yields_trace_lines 2 noise_line); [reflexivity | exact init].
Defined.

Example two_marker_line_event :
  iter_line 1 two_marker_line =
    Some (Event 1 (lit "10:00:00:000") (lit "0x1") (lit ">") (lit "foo()V")).
Proof. reflexivity. Qed.

(** C2 as stated fails: the direction is not always the one of the first
    direction marker after the thread token.  In [two_marker_line] the first
    marker is [<], which no white space follows, and the event is the entry
    of the second marker. *)
Lemma first_marker_counterexample :
  ~ (forall (ln : Z) (raw : text) (ev : event),
        iter_line ln raw = Some ev -> first_direction raw = Some (ev_arrow ev)).
Proof.
  intros H. specialize (H 1 two_marker_line _ two_marker_line_event).
  vm_compute in H. discriminate H.
Qed.

(** The frames an exit leaves above its entry stay open: a later exit
    completes them. *)
Example kept_frame_completes :
  compute_stats
    [lit "10:00:00:000 0x1 > A"; lit "10:00:00:001 0x1 > B";
     lit "10:00:00:002 0x1 < A"; lit "10:00:00:003 0x1 < B"] =
    Some [Row (lit "A") 1 2 2; Row (lit "B") 1 2 2].
Proof. vm_compute. reflexivity. Qed.

(** * Further properties *)

Example main_example :
  main four_lines 0 SortAvg 10 =
    Some [lit "Method       Count    Total(ms)    Avg(ms)";
          lit "------------------------------------------";
          lit "foo()V           1          120    120.000";
          lit "bar()V           1           30     30.000"].
Proof. vm_compute. reflexivity. Qed.

Example format_3f_examples :
  format_3f (truediv 1 3) = lit "0.333" /\
  format_3f (truediv 2 3) = lit "0.667" /\
  format_3f (truediv 1 8) = lit "0.125" /\
  format_3f (truediv 1 16) = lit "0.062" /\
  format_3f (truediv 123456789 1000) = lit "123456.789" /\
  format_3f (truediv 1 2000) = lit "0.001" /\
  format_d 0 = lit "0" /\ format_d 1234567 = lit "1234567" /\ format_d (-45) = lit "-45".
Proof. vm_compute. repeat split. Qed.

(** ** [ellipsize_middle] with any ellipsis *)

Lemma ellipsize_middle_len (t e : text) (w : Z) :
  len (ellipsize_middle t w e) = Z.min (len t) (Z.max 0 w).
Proof.
  pose proof (len_nonneg t) as Ht. pose proof (len_nonneg e) as He.
  unfold ellipsize_middle.
  destruct (Z.leb_spec w 0); [unfold len at 1; simpl; lia |].
  destruct (Z.leb_spec (len t) w); [lia |].
  destruct (Z.leb_spec w (len e)).
  - rewrite slice_to_nonneg, len_firstn by lia. lia.
  - assert (Hq : 0 < (w - len e + 1) / 2 <= w - len e).
    { split; [apply Z.div_str_pos; lia | apply Z.div_le_upper_bound; lia]. }
    assert (Hr : w - len e <= 2 * ((w - len e + 1) / 2)).
    { pose proof (Z.mod_pos_bound (w - len e + 1) 2 ltac:(lia)).
      pose proof (Z.div_mod (w - len e + 1) 2 ltac:(lia)). lia. }
    rewrite !len_app, slice_to_nonneg, len_firstn by lia.
    destruct (Z.gtb_spec (w - len e - (w - len e + 1) / 2) 0).
    + rewrite slice_from_neg, len_skipn by lia. unfold len in *. lia.
    + unfold len at 3. simpl. lia.
Qed.

(** X1. Whatever the ellipsis, [ellipsize_middle] returns a text of exactly
    [min(len(text), max(0, max_len))] characters: it never overflows the
    width and never shortens a text that fits. *)
Theorem ellipsize_middle_any_ellipsis (t e : text) (max_len : Z) :
  len (ellipsize_middle t max_len e) = Z.min (len t) (Z.max 0 max_len) /\
  (0 < max_len -> (ellipsize_middle t max_len e = t <-> len t <= max_len)).
Proof.
  split; [apply ellipsize_middle_len |].
  intros Hw. split.
  - intros Heq. pose proof (ellipsize_middle_len t e max_len) as H.
    rewrite Heq in H. lia.
  - intros Hfit. unfold ellipsize_middle.
    destruct (Z.leb_spec max_len 0); [lia |].
    destruct (Z.leb_spec (len t) max_len); [reflexivity | lia].
Qed.

Lemma ellipsize_middle_any_ellipsis_witness :
  ellipsize_middle (lit "abcdefgh") 5 (lit "~") = lit "abcdefgh" <->
  len (lit "abcdefgh") <= 5.
Proof.
  apply (ellipsize_middle_any_ellipsis (lit "abcdefgh") (lit "~") 5). lia.
Defined.

(** X2. Shortening is idempotent: a text already shortened to a width is
    returned as it is when shortened to that width again. *)
Theorem ellipsize_middle_idempotent (t e : text) (max_len : Z) :
  ellipsize_middle (ellipsize_middle t max_len e) max_len e =
    ellipsize_middle t max_len e.
Proof.
  destruct (Z.le_gt_cases max_len 0) as [H | H].
  - unfold ellipsize_middle. destruct (Z.leb_spec max_len 0); [reflexivity | lia].
  - pose proof (ellipsize_middle_len t e max_len) as Hlen.
    unfold ellipsize_middle at 1.
    destruct (Z.leb_spec max_len 0); [lia |].
    destruct (Z.leb_spec (len (ellipsize_middle t max_len e)) max_len);
      [reflexivity | lia].
Qed.

(** ** [parse_ts_ms] *)









Lemma split_length (s : text) :
  length (split ":" s) = S (length (List.filter (is_char ":") s)).
Proof.
  induction s as [| c s IH]; simpl; [reflexivity |].
  destruct (is_char ":" c); simpl; [now rewrite IH |].
  destruct (split ":" s) as [| f r]; simpl in *; [discriminate | exact IH].
Qed.

Lemma filter_colon_replace (s : text) :
  List.filter (is_char ":") (replace "." ":" s) =
    map (fun _ => ":"%char) (List.filter is_sep s).
Proof.
  unfold replace. induction s as [| c s IH]; simpl; [reflexivity |].
  rewrite IH. clear IH.
  destruct (is_sep c) eqn:E.
  - now rewrite (sep_replace c E).
  - assert (H : is_char ":" (if is_char "." c then ":"%char else c) = false)
      by (revert E; by_char c).
    now rewrite H.
Qed.

(** X4. [parse_ts_ms] raises on every text that does not hold exactly three
    separators ([:] or [.]): the four-way unpacking fails. *)
Theorem parse_ts_ms_separators (ts : text) :
  length (List.filter is_sep ts) <> 3%nat -> parse_ts_ms ts = None.
Proof.
  intros Hsep. unfold parse_ts_ms.
  pose proof (split_length (replace "." ":" ts)) as Hlen.
  rewrite filter_colon_replace, length_map in Hlen.
  rewrite <- (length_map py_int) in Hlen.
  destruct (map py_int (split ":" (replace "." ":" ts)))
    as [| [h |] [| [m |] [| [s |] [| [ms |] [| x l]]]]]; try reflexivity.
  simpl in Hlen. lia.
Qed.

Lemma parse_ts_ms_separators_witness : parse_ts_ms (lit "10:00:00") = None.
Proof. apply parse_ts_ms_separators. vm_compute. lia. Defined.

(** X5. On a time stamp of the parser whose minutes and seconds are below
    60, the four fields are read back from the milliseconds by division;
    with hours below 24 the result is a time of day, below 86,400,000. *)
Theorem parse_ts_ms_clock (ts : text) :
  is_timestamp ts = true ->
  let '(h, m, s, f) := ts_fields ts in
  m <= 59 -> s <= 59 ->
  exists v,
    parse_ts_ms ts = Some v /\
    v / 3600000 = h /\ v / 60000 mod 60 = m /\
    v / 1000 mod 60 = s /\ v mod 1000 = f /\
    (h <= 23 -> time_of_day v).
Proof.
  intros Hts. apply parse_ts_ms_timestamp in Hts.
  destruct (ts_fields ts) as [[[h m] s] f].
  destruct Hts as (Hv & Hh & Hm & Hs & Hf). intros Hm' Hs'.
  eexists. split; [exact Hv |].
  unfold time_of_day, day_ms.
  repeat split; try (Z.div_mod_to_equations; lia).
Qed.

Lemma parse_ts_ms_clock_witness :
  exists v,
    parse_ts_ms (lit "21:00:05.736") = Some v /\
    v / 3600000 = 21 /\ v / 60000 mod 60 = 0 /\
    v / 1000 mod 60 = 5 /\ v mod 1000 = 736 /\
    (21 <= 23 -> time_of_day v).
Proof.
  apply (parse_ts_ms_clock (lit "21:00:05.736") eq_refl); vm_compute; discriminate.
Defined.

(** ** The clock normaliser *)

Lemma absolute_times_no_rollover (tods : list Z) :
  forall p offset,
    Sorted Z.le (p :: tods) ->
    absolute_times (Some (p + offset)) offset tods = map (fun ms => ms + offset) tods.
Proof.
  induction tods as [| ms tods IH]; intros p offset Hs; [reflexivity |].
  apply Sorted_inv in Hs as [Hs Hp]. apply HdRel_inv in Hp.
  cbn [absolute_times map]. rewrite normalize_next.
  destruct (Z.ltb_spec (ms + offset) (p + offset)); [lia |].
  f_equal. now apply IH.
Qed.

(** X6. A log whose times of day never go back is left as it is: no day is
    added, and every absolute time is the time of day read. *)
Theorem absolute_times_same_day (tods : list Z) :
  Sorted Z.le tods -> absolute_times None 0 tods = tods.
Proof.
  intros Hs. destruct tods as [| ms tods]; [reflexivity |].
  cbn [absolute_times]. rewrite normalize_first, Z.add_0_r. f_equal.
  rewrite <- (Z.add_0_r ms) at 1.
  rewrite absolute_times_no_rollover by assumption.
  rewrite <- (map_id tods) at 2. apply map_ext. intros a. lia.
Qed.

Lemma absolute_times_same_day_witness :
  absolute_times None 0 [36000000; 36000050; 36000050; 36000120] =
    [36000000; 36000050; 36000050; 36000120].
Proof.
  apply absolute_times_same_day. repeat constructor; discriminate.
Defined.

Lemma absolute_times_days (tods : list Z) :
  Forall time_of_day tods ->
  forall last k,
    0 <= k ->
    Forall2 (fun ms a => a mod day_ms = ms /\ ms <= a)
            tods (absolute_times last (k * day_ms) tods).
Proof.
  induction 1 as [| ms tods Hms _ IH]; intros last k Hk; [constructor |].
  cbn [absolute_times]. unfold time_of_day, day_ms in Hms.
  assert (Hstep : exists k', 0 <= k' /\
            normalize last (k * day_ms) ms = (ms + k' * day_ms, k' * day_ms)).
  { destruct last as [l |].
    - rewrite normalize_next.
      destruct (ms + k * day_ms <? l).
      + exists (k + 1). split; [lia |]. f_equal; lia.
      + exists k. auto.
    - exists k. auto. }
  destruct Hstep as (k' & Hk' & ->).
  constructor; [| now apply IH].
  split.
  - rewrite Z.mod_add by (unfold day_ms; lia).
    apply Z.mod_small. exact Hms.
  - unfold day_ms. lia.
Qed.

(** X7. For times of day within one day, the rollover handling adds whole
    days only: every absolute time is at or after its time of day, and its
    remainder by 86,400,000 is that time of day. *)
Theorem absolute_times_keep_time_of_day (tods : list Z) :
  Forall time_of_day tods ->
  Forall2 (fun ms a => a mod 86400000 = ms /\ ms <= a)
          tods (absolute_times None 0 tods).
Proof. intros H. apply (absolute_times_days tods H None 0). lia. Qed.

Lemma absolute_times_keep_time_of_day_witness :
  Forall2 (fun ms a => a mod 86400000 = ms /\ ms <= a)
          [86399900; 100; 50] (absolute_times None 0 [86399900; 100; 50]).
Proof.
  apply absolute_times_keep_time_of_day. repeat constructor; discriminate.
Defined.

(** ** The loop as a replay of timed events *)

Lemma replay_app (evs1 evs2 : list (event * Z)) :
  forall stacks stats,
    replay stacks stats (evs1 ++ evs2) =
      let '(stacks1, stats1, ivs1) := replay stacks stats evs1 in
      let '(stacks2, stats2, ivs2) := replay stacks1 stats1 evs2 in
      (stacks2, stats2, ivs1 ++ ivs2).
Proof.
  induction evs1 as [| [ev t] evs1 IH]; intros stacks stats; cbn [replay app].
  - destruct (replay stacks stats evs2) as [[stacks2 stats2] ivs2]. reflexivity.
  - destruct (apply_event stacks stats (ev_tid ev) (ev_arrow ev) (ev_method ev) t)
      as [[stacks1 stats1] iv].
    rewrite IH.
    destruct (replay stacks1 stats1 evs1) as [[stacks2 stats2] ivs1].
    destruct (replay stacks2 stats2 evs2) as [[stacks3 stats3] ivs2].
    now rewrite app_assoc.
Qed.

(** The loop is the replay of its events at their absolute times. *)
Lemma loop_replay (evs : list event) :
  forall (st st' : state) (ivs : list interval) (tods : list Z),
    loop st evs = Some (st', ivs) ->
    map (fun ev => parse_ts_ms (ev_ts ev)) evs = map Some tods ->
    replay (stacks st) (stats st)
      (combine evs (absolute_times (last_abs_ms st) (day_offset st) tods)) =
      (stacks st', stats st', ivs).
Proof.
  induction evs as [| ev evs IH]; intros st st' ivs tods Hloop Htods.
  - destruct tods; [| discriminate]. now injection Hloop as <- <-.
  - destruct tods as [| tod tods]; [discriminate |].
    injection Htods as Htod Htods. cbn [loop] in Hloop.
    destruct (loop_body st ev) as [[st1 iv] |] eqn:Hstep; [| discriminate].
    destruct (loop st1 evs) as [[st2 ivs2] |] eqn:Hrest; [| discriminate].
    injection Hloop as <- <-.
    destruct (loop_body_inv _ _ _ _ Hstep)
      as (ms & Hms & Hstacks & Hstats & Hiv & Hlast & Hoff).
    assert (ms = tod) as -> by congruence.
    specialize (IH _ _ _ _ Hrest Htods). rewrite Hlast, Hoff in IH.
    cbn [absolute_times].
    destruct (normalize (last_abs_ms st) (day_offset st) tod) as [abs_ms offset'].
    cbn [fst snd combine replay] in *.
    destruct (apply_event (stacks st) (stats st) (ev_tid ev) (ev_arrow ev)
                (ev_method ev) abs_ms) as [[stacks1 stats1] iv1].
    cbn [fst snd] in *. subst stacks1 stats1 iv1. now rewrite IH.
Qed.

Lemma aggregate_app stats (ivs1 ivs2 : list interval) :
  aggregate stats (ivs1 ++ ivs2) = aggregate (aggregate stats ivs1) ivs2.
Proof. unfold aggregate. apply fold_left_app. Qed.

(** The statistics are those of the intervals completed. *)
Lemma replay_stats (evs : list (event * Z)) :
  forall stacks stats,
    (replay stacks stats evs).1.2 = aggregate stats (replay stacks stats evs).2.
Proof.
  induction evs as [| [ev t] evs IH]; intros stacks stats; cbn [replay];
    [reflexivity |].
  pose proof (apply_event_stats stacks stats (ev_tid ev) (ev_arrow ev)
                (ev_method ev) t) as H.
  destruct (apply_event stacks stats (ev_tid ev) (ev_arrow ev) (ev_method ev) t)
    as [[stacks1 stats1] iv].
  specialize (IH stacks1 stats1).
  destruct (replay stacks1 stats1 evs) as [[stacks2 stats2] ivs].
  cbn [fst snd] in *. rewrite IH. destruct iv as [[m d] |]; cbn [from_option app].
  - destruct H as [_ ->]. reflexivity.
  - now rewrite H.
Qed.

Lemma nested_replay (tid : text) (evs : list (event * Z)) (ivs : list interval) :
  nested tid evs ivs ->
  forall stacks stats,
    (replay stacks stats evs).2 = ivs /\
    forall tid', stack_of (replay stacks stats evs).1.1 tid' = stack_of stacks tid'.
Proof.
  induction 1 as [| method t_in t_out body rest ivs_body ivs_rest _ IHbody _ IHrest];
    intros stacks stats; [split; reflexivity |].
  cbn [replay entry_of ev_tid ev_arrow ev_method fst snd].
  rewrite apply_entry. cbn [from_option app].
  set (stacks1 := <[tid := stack_of stacks tid ++ [(method, t_in)]]> stacks).
  rewrite replay_app.
  destruct (IHbody stacks1 stats) as [Hivs1 Hstk1].
  destruct (replay stacks1 stats body) as [[stacks2 stats2] ivs1].
  cbn [fst snd] in Hivs1, Hstk1. subst ivs1.
  cbn [replay exit_of ev_tid ev_arrow ev_method fst snd].
  rewrite (apply_exit_found stacks2 stats2 tid (lit "<") method t_out t_in
             (stack_of stacks tid) []).
  2: discriminate.
  2: { rewrite Hstk1. unfold stacks1. now rewrite stack_of_insert. }
  2: constructor.
  rewrite app_nil_r. cbn [from_option].
  set (stacks3 := <[tid := stack_of stacks tid]> stacks2).
  set (stats3 := if t_out - t_in >=? 0 then bump stats2 method (t_out - t_in)
                 else stats2).
  destruct (IHrest stacks3 stats3) as [Hivs3 Hstk3].
  destruct (replay stacks3 stats3 rest) as [[stacks4 stats4] ivs3].
  cbn [fst snd] in *. subst ivs3. split; [reflexivity |].
  intros tid'. rewrite Hstk3. unfold stacks3.
  destruct (decide (tid' = tid)) as [-> | Hne].
  - now rewrite stack_of_insert.
  - unfold stack_of at 1. rewrite lookup_insert_ne by congruence.
    fold (stack_of stacks2 tid'). rewrite Hstk1. unfold stacks1, stack_of.
    now rewrite lookup_insert_ne by congruence.
Qed.

(** X8. A well-nested run of calls of one thread is read back call by call,
    whatever is open below it and on the other threads: the intervals
    completed are those of its calls, each [exit - entry], in the order of
    the exits; the statistics are those intervals added up; and every stack
    ends as it began. *)
Theorem nested_calls_reconstructed (tid : text) (evs : list (event * Z))
    (ivs : list interval) stacks stats :
  nested tid evs ivs ->
  let '(stacks', stats', ivs') := replay stacks stats evs in
  ivs' = ivs /\ stats' = aggregate stats ivs /\
  forall tid', stack_of stacks' tid' = stack_of stacks tid'.
Proof.
  intros Hn. destruct (nested_replay tid evs ivs Hn stacks stats) as [Hivs Hstk].
  pose proof (replay_stats evs stacks stats) as Hstats.
  destruct (replay stacks stats evs) as [[stacks' stats'] ivs'].
  cbn [fst snd] in *. subst ivs'. auto.
Qed.

Lemma nested_calls_reconstructed_witness :
  let evs := [entry_of (lit "0x1") (lit "f") 10;
              entry_of (lit "0x1") (lit "f") 12; exit_of (lit "0x1") (lit "f") 19;
              exit_of (lit "0x1") (lit "f") 30;
              entry_of (lit "0x1") (lit "g") 31; exit_of (lit "0x1") (lit "g") 31] in
  let ivs := [(lit "f", 19 - 12); (lit "f", 30 - 10); (lit "g", 31 - 31)] in
  let '(stacks', stats', ivs') := replay (stacks sample_state) [] evs in
  ivs' = ivs /\ stats' = aggregate [] ivs /\
  forall tid', stack_of stacks' tid' = stack_of (stacks sample_state) tid'.
Proof.
  apply (nested_calls_reconstructed (lit "0x1")).
  apply (nested_call (lit "0x1") (lit "f") 10 30
           [entry_of (lit "0x1") (lit "f") 12; exit_of (lit "0x1") (lit "f") 19]
           [entry_of (lit "0x1") (lit "g") 31; exit_of (lit "0x1") (lit "g") 31]
           [(lit "f", 19 - 12)] [(lit "g", 31 - 31)]).
  - apply (nested_call (lit "0x1") (lit "f") 12 19 [] [] [] []); constructor.
  - apply (nested_call (lit "0x1") (lit "g") 31 31 [] [] [] []); constructor.
Defined.

(** ** Durations under a valid clock *)

Lemma stack_of_started (t : Z) stacks (tid : text) :
  started_by t stacks -> Forall (fun f : frame => snd f <= t) (stack_of stacks tid).
Proof.
  intros H. unfold stack_of. destruct (stacks !! tid) as [stk |] eqn:E; simpl.
  - exact (H tid stk E).
  - constructor.
Qed.

Lemma started_by_mono (t t' : Z) stacks :
  t <= t' -> started_by t stacks -> started_by t' stacks.
Proof.
  intros Hle H tid stk E. specialize (H tid stk E). simpl in *.
  eapply List.Forall_impl; [| exact H]. intros f Hf. simpl in Hf. lia.
Qed.

Lemma started_by_insert (t : Z) stacks (tid : text) (stk : list frame) :
  started_by t stacks -> Forall (fun f : frame => snd f <= t) stk ->
  started_by t (<[tid := stk]> stacks).
Proof. intros H Hstk. now apply map_Forall_insert_2. Qed.

Lemma apply_event_started (t t' : Z) stacks stats (tid arrow method : text) :
  started_by t stacks -> t <= t' ->
  started_by t' (apply_event stacks stats tid arrow method t').1.1 /\
  match (apply_event stacks stats tid arrow method t').2 with
  | Some iv => 0 <= snd iv
  | None => True
  end.
Proof.
  intros Hst Hle. apply (started_by_mono t t' stacks Hle) in Hst.
  pose proof (stack_of_started t' stacks tid Hst) as Hstk.
  destruct (decide (arrow = lit ">")) as [-> | Harrow].
  - rewrite apply_entry. cbn [fst snd]. split; [| exact I].
    apply started_by_insert; [assumption |].
    apply Forall_app. split; [assumption |]. repeat constructor. simpl. lia.
  - destruct (split_topmost method (stack_of stacks tid))
      as [Hall | (s_ms & below & above & Heq & Habove)].
    + rewrite apply_exit_missing by assumption. cbn [fst snd]. split; [| exact I].
      now apply started_by_insert.
    + rewrite (apply_exit_found _ _ _ _ _ _ s_ms below above) by assumption.
      cbn [fst snd]. rewrite Heq in Hstk.
      apply Forall_app in Hstk as [Hbelow Hrest].
      apply Forall_cons_iff in Hrest as [Hs Habove'].
      split; [| simpl in Hs; lia].
      apply started_by_insert; [assumption |].
      apply Forall_app. split; assumption.
Qed.

Lemma replay_started (evs : list (event * Z)) :
  forall (t : Z) stacks stats,
    started_by t stacks ->
    Sorted Z.le (t :: map snd evs) ->
    Forall (fun iv : interval => 0 <= snd iv) (replay stacks stats evs).2.
Proof.
  induction evs as [| [ev t'] evs IH]; intros t stacks stats Hst Hs;
    cbn [replay]; [constructor |].
  cbn [map snd] in Hs. apply Sorted_inv in Hs as [Hs Hle]. apply HdRel_inv in Hle.
  destruct (apply_event_started t t' stacks stats (ev_tid ev) (ev_arrow ev)
              (ev_method ev) Hst Hle) as [Hst1 Hiv].
  destruct (apply_event stacks stats (ev_tid ev) (ev_arrow ev) (ev_method ev) t')
    as [[stacks1 stats1] iv].
  specialize (IH t' stacks1 stats1 Hst1 Hs).
  destruct (replay stacks1 stats1 evs) as [[stacks2 stats2] ivs].
  cbn [fst snd] in *. apply Forall_app. split; [| exact IH].
  destruct iv; cbn [from_option]; repeat constructor. exact Hiv.
Qed.

Lemma length_absolute_times (tods : list Z) :
  forall last offset, length (absolute_times last offset tods) = length tods.
Proof.
  induction tods as [| ms tods IH]; intros last offset; cbn [absolute_times];
    [reflexivity |].
  destruct (normalize last offset ms). simpl. now rewrite IH.
Qed.

Lemma combine_snd {A B} (l1 : list A) (l2 : list B) :
  length l1 = length l2 -> map snd (combine l1 l2) = l2.
Proof.
  revert l2. induction l1 as [| a l1 IH]; intros [| b l2] H; try discriminate;
    [reflexivity |].
  simpl. f_equal. apply IH. now injection H.
Qed.

Lemma combine_fst {A B} (l1 : list A) (l2 : list B) :
  length l1 = length l2 -> map fst (combine l1 l2) = l1.
Proof.
  revert l2. induction l1 as [| a l1 IH]; intros [| b l2] H; try discriminate;
    [reflexivity |].
  simpl. f_equal. apply IH. now injection H.
Qed.

Lemma clock_time_of_day (ev : event) :
  clock_time ev ->
  exists ms, parse_ts_ms (ev_ts ev) = Some ms /\ time_of_day ms.
Proof.
  intros [Hts Hrange]. apply parse_ts_ms_timestamp in Hts.
  destruct (ts_fields (ev_ts ev)) as [[[h m] s] f].
  destruct Hts as (Hv & Hh & Hm & Hs & Hf). destruct Hrange as (Hh' & Hm' & Hs').
  eexists. split; [exact Hv |]. unfold time_of_day, day_ms. lia.
Qed.

Lemma clock_times (evs : list event) :
  Forall clock_time evs ->
  exists tods,
    map (fun ev => parse_ts_ms (ev_ts ev)) evs = map Some tods /\
    Forall time_of_day tods.
Proof.
  induction 1 as [| ev evs Hev _ (tods & Hmap & Hall)]; [exists []; split; constructor |].
  destruct (clock_time_of_day ev Hev) as (ms & Hms & Htod).
  exists (ms :: tods). split; [simpl; now rewrite Hms, Hmap | now constructor].
Qed.

Lemma stamped_times (evs : list event) :
  Forall stamped evs ->
  exists tods, map (fun ev => parse_ts_ms (ev_ts ev)) evs = map Some tods.
Proof.
  induction 1 as [| ev evs Hev _ (tods & Hmap)]; [exists []; reflexivity |].
  destruct (parse_ts_ms_total _ Hev) as (ms & Hms & _).
  exists (ms :: tods). simpl. now rewrite Hms, Hmap.
Qed.

Lemma counted_nonneg (m : text) (ivs : list interval) :
  Forall (fun iv : interval => 0 <= snd iv) ivs ->
  List.filter (counted m) ivs = List.filter (fun iv => text_eqb (fst iv) m) ivs.
Proof.
  induction 1 as [| iv ivs Hiv _ IH]; [reflexivity |].
  cbn [List.filter]. unfold counted at 1. rewrite IH.
  destruct (Z.leb_spec 0 (snd iv)); [| lia]. now rewrite andb_true_r.
Qed.

(** X9. When every time stamp of a file is a clock time (hours up to 23,
    minutes and seconds up to 59), no completed interval is negative: the
    guard on the duration never drops one, and each method's count is the
    number of its exits that found their entry. *)
Theorem durations_never_negative (fp : list text) :
  Forall clock_time (iter_lines fp) ->
  exists st ivs,
    loop init (iter_lines fp) = Some (st, ivs) /\
    Forall (fun iv : interval => 0 <= snd iv) ivs /\
    forall m, count_of (stats st) m = completed m ivs /\
              total_of (stats st) m =
                durations (List.filter (fun iv => text_eqb (fst iv) m) ivs).
Proof.
  intros Hclock.
  destruct (loop_total (iter_lines fp) (iter_lines_stamped fp 1) init)
    as (st & ivs & Hloop).
  destruct (clock_times _ Hclock) as (tods & Hmap & Htods).
  exists st, ivs. split; [exact Hloop |].
  assert (Hnonneg : Forall (fun iv : interval => 0 <= snd iv) ivs).
  { pose proof (loop_replay _ _ _ _ _ Hloop Hmap) as Hreplay.
    cbn [init last_abs_ms day_offset stacks stats] in Hreplay.
    assert (Hlen : length (iter_lines fp) = length (absolute_times None 0 tods)).
    { rewrite length_absolute_times, <- (length_map Some tods), <- Hmap.
      now rewrite length_map. }
    pose proof (absolute_times_sorted tods Htods) as Hsorted.
    apply StronglySorted_Sorted in Hsorted.
    destruct (absolute_times None 0 tods) as [| t0 times] eqn:Etimes.
    - destruct (iter_lines fp); [| discriminate].
      simpl in Hreplay. injection Hreplay as _ _ <-. constructor.
    - pose proof (replay_started (combine (iter_lines fp) (t0 :: times)) t0 ∅ []) as H.
      rewrite Hreplay, combine_snd in H by exact Hlen.
      apply H; [apply map_Forall_empty |].
      constructor; [exact Hsorted | constructor; lia]. }
  split; [exact Hnonneg |].
  intros m. destruct (loop_counts _ _ _ _ Hloop m) as [Hc Ht].
  rewrite Hc, Ht. unfold completed, count_of, total_of. simpl.
  now rewrite counted_nonneg.
Qed.

Lemma durations_never_negative_witness :
  exists st ivs,
    loop init (iter_lines four_lines) = Some (st, ivs) /\
    Forall (fun iv : interval => 0 <= snd iv) ivs /\
    forall m, count_of (stats st) m = completed m ivs /\
              total_of (stats st) m =
                durations (List.filter (fun iv => text_eqb (fst iv) m) ivs).
Proof.
  apply durations_never_negative.
  let evs := eval vm_compute in (iter_lines four_lines) in
  change (iter_lines four_lines) with evs.
  repeat constructor; vm_compute; discriminate.
Defined.

(** ** Entries, open frames and completed calls *)

Lemma frames_of_app (m : text) (s1 s2 : list frame) :
  frames_of m (s1 ++ s2) = frames_of m s1 + frames_of m s2.
Proof. unfold frames_of. now rewrite List.filter_app, len_app. Qed.

Lemma frames_of_cons (m : text) (f : frame) (s : list frame) :
  frames_of m (f :: s) = (if text_eqb (fst f) m then 1 else 0) + frames_of m s.
Proof.
  unfold frames_of, len. cbn [List.filter].
  destruct (text_eqb (fst f) m); simpl length; lia.
Qed.

Lemma open_frames_insert (m : text) stacks (tid : text) (stk : list frame) :
  open_frames m (<[tid := stk]> stacks) =
    open_frames m stacks - frames_of m (stack_of stacks tid) + frames_of m stk.
Proof.
  unfold open_frames, stack_of.
  assert (Hcomm : forall (mp : gmap text (list frame)),
             forall (j1 j2 : text) (z1 z2 : list frame) (y : Z),
               j1 <> j2 -> mp !! j1 = Some z1 -> mp !! j2 = Some z2 ->
               frames_of m z1 + (frames_of m z2 + y) =
                 frames_of m z2 + (frames_of m z1 + y)) by (intros; lia).
  rewrite <- (insert_delete_eq stacks tid stk).
  rewrite map_fold_insert_L by (apply Hcomm || apply lookup_delete_eq).
  destruct (stacks !! tid) as [old |] eqn:E; simpl.
  - rewrite <- (insert_delete_id stacks tid old E) at 2.
    rewrite map_fold_insert_L by (apply Hcomm || apply lookup_delete_eq).
    match goal with
    | |- _ + ?a = _ + ?b - _ + _ => replace b with a by reflexivity
    end.
    lia.
  - rewrite (delete_id stacks tid E).
    replace (frames_of m []) with 0 by reflexivity. lia.
Qed.

(** One event: an entry opens a frame of its method, and an exit that finds
    its entry turns one open frame of its method into an interval. *)
Lemma apply_event_open (m : text) stacks stats (tid arrow method : text) (t : Z) :
  let r := apply_event stacks stats tid arrow method t in
  open_frames m r.1.1 + completed m (from_option (fun i => [i]) [] r.2) =
    open_frames m stacks +
    (if text_eqb arrow (lit ">") && text_eqb method m then 1 else 0) /\
  completed m (from_option (fun i => [i]) [] r.2) <=
    (if negb (text_eqb arrow (lit ">")) && text_eqb method m then 1 else 0).
Proof.
  destruct (decide (arrow = lit ">")) as [-> | Harrow].
  - rewrite apply_entry. cbn [fst snd from_option]. rewrite text_eqb_refl.
    rewrite open_frames_insert, frames_of_app, frames_of_cons. cbn [fst andb negb].
    unfold completed, frames_of at 3, len. simpl.
    destruct (text_eqb method m); lia.
  - rewrite (text_eqb_neq _ _ Harrow). cbn [andb negb].
    destruct (split_topmost method (stack_of stacks tid))
      as [Hall | (s_ms & below & above & Heq & Habove)].
    + rewrite apply_exit_missing by assumption. cbn [fst snd from_option].
      rewrite open_frames_insert. unfold completed, len. simpl.
      destruct (text_eqb method m); lia.
    + rewrite (apply_exit_found _ _ _ _ _ _ s_ms below above) by assumption.
      cbn [fst snd from_option].
      rewrite open_frames_insert, Heq, !frames_of_app, frames_of_cons.
      unfold completed, len. cbn [List.filter fst].
      destruct (text_eqb method m); simpl length; lia.
Qed.

Lemma completed_app (m : text) (ivs1 ivs2 : list interval) :
  completed m (ivs1 ++ ivs2) = completed m ivs1 + completed m ivs2.
Proof. unfold completed. now rewrite List.filter_app, len_app. Qed.

Lemma entries_cons (m : text) (ev : event) (evs : list event) :
  entries m (ev :: evs) = (if is_entry_of m ev then 1 else 0) + entries m evs.
Proof.
  unfold entries, len. cbn [List.filter].
  destruct (is_entry_of m ev); simpl length; lia.
Qed.

Lemma exits_cons (m : text) (ev : event) (evs : list event) :
  exits m (ev :: evs) = (if is_exit_of m ev then 1 else 0) + exits m evs.
Proof.
  unfold exits, len. cbn [List.filter].
  destruct (is_exit_of m ev); simpl length; lia.
Qed.

Lemma replay_open (m : text) (evs : list (event * Z)) :
  forall stacks stats,
    let r := replay stacks stats evs in
    open_frames m r.1.1 + completed m r.2 =
      open_frames m stacks + entries m (map fst evs) /\
    completed m r.2 <= exits m (map fst evs).
Proof.
  induction evs as [| [ev t] evs IH]; intros stacks stats; cbn [replay map fst].
  - cbn [fst snd]. unfold completed, entries, exits, len. simpl. lia.
  - destruct (apply_event_open m stacks stats (ev_tid ev) (ev_arrow ev)
                (ev_method ev) t) as [Hopen Hexit].
    change (text_eqb (ev_arrow ev) (lit ">") && text_eqb (ev_method ev) m)
      with (is_entry_of m ev) in Hopen.
    change (negb (text_eqb (ev_arrow ev) (lit ">")) && text_eqb (ev_method ev) m)
      with (is_exit_of m ev) in Hexit.
    destruct (apply_event stacks stats (ev_tid ev) (ev_arrow ev) (ev_method ev) t)
      as [[stacks1 stats1] iv].
    destruct (IH stacks1 stats1) as [IHopen IHexit].
    destruct (replay stacks1 stats1 evs) as [[stacks2 stats2] ivs].
    cbn [fst snd] in *. rewrite completed_app, entries_cons, exits_cons.
    split; lia.
Qed.

Lemma completed_counted (m : text) (ivs : list interval) :
  len (List.filter (counted m) ivs) <= completed m ivs.
Proof.
  unfold completed, len. induction ivs as [| iv ivs IH]; [simpl; lia |].
  cbn [List.filter]. unfold counted at 1.
  destruct (text_eqb (fst iv) m), (0 <=? snd iv); cbn [andb]; simpl length; lia.
Qed.

Lemma open_frames_nonneg (m : text) stacks : 0 <= open_frames m stacks.
Proof.
  unfold open_frames. apply (map_fold_weak_ind (fun acc _ => 0 <= acc)); [lia |].
  intros tid stk mp acc _ Hacc. unfold frames_of, len. lia.
Qed.

(** X10. After any file, for every method: the entry lines of the method
    are its frames still open on the stacks plus its completed calls.  So
    no method is counted more often than it was entered, nor more often
    than it was exited. *)
Theorem calls_accounted_for (fp : list text) (m : text) :
  exists st ivs,
    loop init (iter_lines fp) = Some (st, ivs) /\
    entries m (iter_lines fp) = open_frames m (stacks st) + completed m ivs /\
    count_of (stats st) m <= completed m ivs /\
    count_of (stats st) m <= entries m (iter_lines fp) /\
    count_of (stats st) m <= exits m (iter_lines fp).
Proof.
  destruct (loop_total (iter_lines fp) (iter_lines_stamped fp 1) init)
    as (st & ivs & Hloop).
  destruct (stamped_times _ (iter_lines_stamped fp 1)) as (tods & Hmap).
  exists st, ivs. split; [exact Hloop |].
  pose proof (loop_replay _ _ _ _ _ Hloop Hmap) as Hreplay.
  cbn [init last_abs_ms day_offset stacks stats] in Hreplay.
  assert (Hlen : length (iter_lines fp) = length (absolute_times None 0 tods)).
  { rewrite length_absolute_times, <- (length_map Some tods), <- Hmap.
    now rewrite length_map. }
  destruct (replay_open m (combine (iter_lines fp) (absolute_times None 0 tods)) ∅ [])
    as [Hopen Hexit].
  rewrite Hreplay, combine_fst in Hopen, Hexit by exact Hlen.
  cbn [fst snd] in Hopen, Hexit.
  assert (Hempty : open_frames m ∅ = 0) by reflexivity.
  destruct (loop_counts _ _ _ _ Hloop m) as [Hc _].
  assert (Hcount : count_of (stats st) m <= completed m ivs).
  { rewrite Hc. unfold count_of. simpl. apply completed_counted. }
  pose proof (open_frames_nonneg m (stacks st)).
  repeat split; lia.
Qed.

(** ** The rows of the result *)

Lemma stats_get_none stats (m : text) :
  stats_get stats m = None <-> ~ In m (map fst stats).
Proof.
  induction stats as [| [k s] stats IH]; cbn [stats_get map fst In]; [tauto |].
  destruct (text_eqb k m) eqn:E.
  - apply text_eqb_eq in E. split; [discriminate | tauto].
  - assert (k <> m) by (intros ->; rewrite text_eqb_refl in E; discriminate).
    tauto.
Qed.

Lemma stats_get_in stats (m : text) (s : method_stats) :
  stats_get stats m = Some s -> In (m, s) stats.
Proof.
  induction stats as [| [k s'] stats IH]; cbn [stats_get]; [discriminate |].
  destruct (text_eqb k m) eqn:E.
  - apply text_eqb_eq in E as ->. intros [= ->]. now left.
  - intros H. right. auto.
Qed.

Lemma bump_keys stats (m : text) (d : Z) :
  map fst (bump stats m d) =
    map fst stats ++ (match stats_get stats m with Some _ => [] | None => [m] end).
Proof.
  induction stats as [| [k s] stats IH]; cbn [bump stats_get map fst app];
    [reflexivity |].
  destruct (text_eqb k m); cbn [map fst].
  - now rewrite app_nil_r.
  - now rewrite IH.
Qed.

Lemma bump_values stats (m : text) (d : Z) :
  0 <= d ->
  Forall (fun e => 1 <= count (snd e) /\ 0 <= total_ms (snd e)) stats ->
  Forall (fun e => 1 <= count (snd e) /\ 0 <= total_ms (snd e)) (bump stats m d).
Proof.
  intros Hd. induction 1 as [| [k s] stats [Hc Ht] Hall IH]; cbn [bump].
  - repeat constructor; simpl; lia.
  - simpl in Hc, Ht. destruct (text_eqb k m).
    + constructor; [simpl; lia | assumption].
    + constructor; [simpl; lia | assumption].
Qed.

Lemma bump_ok stats (m : text) (d : Z) :
  0 <= d -> stats_ok stats -> stats_ok (bump stats m d).
Proof.
  intros Hd [Hnodup Hall]. split; [| now apply bump_values].
  rewrite bump_keys. destruct (stats_get stats m) eqn:E.
  - now rewrite app_nil_r.
  - apply stats_get_none in E.
    apply NoDup_app. split; [assumption |]. split; [| apply NoDup_singleton].
    intros x Hx Hin. apply list_elem_of_singleton in Hin as ->.
    apply E. now apply list_elem_of_In.
Qed.

Lemma loop_stats_ok (evs : list event) :
  forall st st' ivs,
    loop st evs = Some (st', ivs) -> stats_ok (stats st) -> stats_ok (stats st').
Proof.
  induction evs as [| ev evs IH]; intros st st' ivs Hloop Hok; cbn [loop] in Hloop.
  - now injection Hloop as <- _.
  - destruct (loop_body st ev) as [[st1 iv] |] eqn:Hstep; [| discriminate].
    destruct (loop st1 evs) as [[st2 ivs2] |] eqn:Hrest; [| discriminate].
    injection Hloop as <- _.
    apply (IH _ _ _ Hrest). apply loop_body_stats in Hstep.
    destruct iv as [[m d] |]; [| now rewrite Hstep].
    destruct Hstep as [_ ->]. destruct (Z.geb_spec d 0); [| assumption].
    apply bump_ok; [lia | assumption].
Qed.

Lemma truediv_nonneg (a b : Z) : 0 <= a -> 0 < b -> (0 <= truediv a b)%Q.
Proof.
  intros Ha Hb. unfold truediv.
  destruct (Z.eqb_spec a 0) as [Hz | Hnz]; [apply Qle_refl |].
  set (sh := if _ <? 2 ^ 52 then _ else _).
  assert (Hscaled : forall s,
            0 <= fst (if 0 <=? s then (a * 2 ^ s, b) else (a, b * 2 ^ (- s))) /\
            0 < snd (if 0 <=? s then (a * 2 ^ s, b) else (a, b * 2 ^ (- s)))).
  { intros s. destruct (Z.leb_spec 0 s); cbn [fst snd]; split; try assumption.
    - apply Z.mul_nonneg_nonneg; [assumption | apply Z.pow_nonneg; lia].
    - apply Z.mul_pos_pos; [assumption | apply Z.pow_pos_nonneg; lia]. }
  specialize (Hscaled sh).
  destruct (if 0 <=? sh then (a * 2 ^ sh, b) else (a, b * 2 ^ (- sh))) as [n d].
  cbn [fst snd] in Hscaled. destruct Hscaled as [Hn Hd].
  assert (Hq : 0 <= n / d) by (apply Z.div_pos; assumption).
  match goal with
  | |- context [if ?c then (n / d + 1)%Z else n / d] =>
      set (m := if c then (n / d + 1)%Z else n / d);
      assert (Hm : 0 <= m) by (subst m; destruct c; lia)
  end.
  rewrite Qred_correct. unfold Qle.
  destruct (0 <=? sh); cbn [Qnum Qden]; rewrite Z.mul_0_l.
  - nia.
  - assert (0 <= 2 ^ (- sh)) by (apply Z.pow_nonneg; lia). nia.
Qed.

Lemma rows_of_methods stats : map r_method (rows_of stats) = map fst stats.
Proof.
  unfold rows_of. rewrite map_map. apply map_ext. now intros [m s].
Qed.

Lemma rows_of_ok stats : stats_ok stats -> Forall row_ok (rows_of stats).
Proof.
  intros [_ Hall]. unfold rows_of. apply Forall_map.
  eapply List.Forall_impl; [| exact Hall].
  intros [m s] [Hc Ht]. simpl in *. unfold row_ok. cbn [r_count r_total_ms r_avg].
  destruct (Z.eqb_spec (count s) 0) as [Hz | Hnz]; [lia |].
  repeat split; try assumption. apply truediv_nonneg; lia.
Qed.

Lemma stats_ok_nil : stats_ok [].
Proof. split; constructor. Qed.

Lemma compute_stats_rows (fp : list text) :
  exists st ivs,
    loop init (iter_lines fp) = Some (st, ivs) /\
    compute_stats fp = Some (sort_default (rows_of (stats st))) /\
    stats_ok (stats st).
Proof.
  destruct (loop_total (iter_lines fp) (iter_lines_stamped fp 1) init)
    as (st & ivs & Hloop).
  exists st, ivs. split; [exact Hloop |]. split.
  - unfold compute_stats. now rewrite Hloop.
  - apply (loop_stats_ok _ _ _ _ Hloop). apply stats_ok_nil.
Qed.

(** X11. [compute_stats] raises on no file, and its rows are sound: no
    method has two rows, every count is at least one and every total is not
    negative, so the average of a row is always the quotient of its total
    by its count (the fallback [0.0] for a zero count is never taken) and is
    not negative. *)
Theorem rows_well_formed (fp : list text) :
  exists rows,
    compute_stats fp = Some rows /\
    NoDup (map r_method rows) /\
    Forall row_ok rows.
Proof.
  destruct (compute_stats_rows fp) as (st & ivs & _ & Hrows & Hok).
  exists (sort_default (rows_of (stats st))). split; [exact Hrows |].
  pose proof (sort_default_perm (rows_of (stats st))) as Hperm.
  split.
  - rewrite <- (Permutation_map r_method Hperm), rows_of_methods. apply Hok.
  - eapply Permutation_Forall; [exact Hperm | now apply rows_of_ok].
Qed.

Lemma stats_get_nodup stats (m : text) (s : method_stats) :
  NoDup (map fst stats) -> In (m, s) stats -> stats_get stats m = Some s.
Proof.
  induction stats as [| [k s'] stats IH]; cbn [map fst stats_get]; [contradiction |].
  intros Hnd [Heq | Hin].
  - injection Heq as -> ->. now rewrite text_eqb_refl.
  - apply NoDup_cons in Hnd as [Hk Hnd].
    rewrite text_eqb_neq; [now apply IH |].
    intros ->. apply Hk. apply list_elem_of_In, in_map_iff. now exists (m, s).
Qed.

Lemma filter_nonempty {A} (f : A -> bool) (l : list A) :
  1 <= len (List.filter f l) <-> exists x, In x l /\ f x = true.
Proof.
  unfold len. split.
  - destruct (List.filter f l) as [| x r] eqn:E; [simpl; lia |].
    intros _. exists x. apply List.filter_In. rewrite E. now left.
  - intros (x & Hx). apply List.filter_In in Hx.
    destruct (List.filter f l); [contradiction | simpl; lia].
Qed.

Lemma counted_spec (m : text) (iv : interval) :
  counted m iv = true <-> fst iv = m /\ 0 <= snd iv.
Proof.
  unfold counted. rewrite andb_true_iff, text_eqb_eq, Z.leb_le. tauto.
Qed.

(** X12. The result has a row for a method exactly when one of its calls
    was completed with a duration that is not negative, and the row holds
    the number of those calls and the sum of their durations. *)
Theorem rows_of_completed_calls (fp : list text) :
  exists st ivs rows,
    loop init (iter_lines fp) = Some (st, ivs) /\
    compute_stats fp = Some rows /\
    (forall m, In m (map r_method rows) <-> exists d, 0 <= d /\ In (m, d) ivs) /\
    Forall (fun x =>
              r_count x = len (List.filter (counted (r_method x)) ivs) /\
              r_total_ms x = durations (List.filter (counted (r_method x)) ivs))
           rows.
Proof.
  destruct (compute_stats_rows fp) as (st & ivs & Hloop & Hrows & Hok).
  exists st, ivs, (sort_default (rows_of (stats st))).
  split; [exact Hloop |]. split; [exact Hrows |].
  pose proof (sort_default_perm (rows_of (stats st))) as Hperm.
  assert (Hcounts : forall m,
            count_of (stats st) m = len (List.filter (counted m) ivs) /\
            total_of (stats st) m = durations (List.filter (counted m) ivs)).
  { intros m. destruct (loop_counts _ _ _ _ Hloop m) as [Hc Ht].
    rewrite Hc, Ht. unfold count_of, total_of. simpl. lia. }
  destruct Hok as [Hnd Hall]. split.
  - intros m.
    assert (Hkeys : In m (map r_method (sort_default (rows_of (stats st)))) <->
                    In m (map fst (stats st))).
    { rewrite <- rows_of_methods. split; apply Permutation_in, Permutation_map;
        [now symmetry | assumption]. }
    rewrite Hkeys. destruct (Hcounts m) as [Hc _].
    assert (Hin : In m (map fst (stats st)) <-> 1 <= count_of (stats st) m).
    { unfold count_of. split.
      - intros Hm. destruct (stats_get (stats st) m) as [s |] eqn:E.
        + apply stats_get_in in E. rewrite List.Forall_forall in Hall.
          apply (Hall _ E).
        + apply stats_get_none in E. contradiction.
      - intros Hone. destruct (stats_get (stats st) m) as [s |] eqn:E.
        + apply stats_get_in in E. apply in_map_iff. now exists (m, s).
        + simpl in Hone. lia. }
    rewrite Hin, Hc, filter_nonempty. split.
    + intros ([m' d] & Hiv & Hcnt). apply counted_spec in Hcnt as [Hm Hd].
      simpl in Hm, Hd. subst m'. eauto.
    + intros (d & Hd & Hiv). exists (m, d). split; [assumption |].
      now apply counted_spec.
  - eapply Permutation_Forall; [exact Hperm |].
    unfold rows_of. apply Forall_map. rewrite List.Forall_forall.
    intros [m s] Hin. cbn [r_method r_count r_total_ms].
    pose proof (stats_get_nodup _ _ _ Hnd Hin) as Hget.
    destruct (Hcounts m) as [Hc Ht]. unfold count_of, total_of in Hc, Ht.
    rewrite Hget in Hc, Ht. simpl in Hc, Ht. auto.
Qed.

(** ** Sorting again, and the other orders of [main] *)

Section SortMore.
Context {A K : Type} (lt : K -> K -> bool) (key : A -> K).

Lemma insert_sorted_last (x : A) (l : list A) :
  Forall (fun y => lt (key x) (key y) = false) l ->
  insert_sorted lt key x l = l ++ [x].
Proof.
  induction 1 as [| y l Hy _ IH]; [reflexivity |].
  cbn [insert_sorted app]. now rewrite Hy, IH.
Qed.

Lemma sort_acc_sorted (l : list A) :
  forall acc,
    StronglySorted (fun x y => lt (key y) (key x) = false) (acc ++ l) ->
    fold_left (fun acc x => insert_sorted lt key x acc) l acc = acc ++ l.
Proof.
  induction l as [| x l IH]; intros acc Hs; cbn [fold_left].
  - now rewrite app_nil_r.
  - rewrite insert_sorted_last.
    + rewrite IH; rewrite <- app_assoc; [reflexivity | exact Hs].
    + clear IH. induction acc as [| y acc IHacc]; [constructor |].
      cbn [app] in Hs. apply StronglySorted_inv in Hs as [Hs Hy].
      constructor; [| now apply IHacc].
      apply Forall_app in Hy as [_ Hy]. now apply Forall_inv in Hy.
Qed.

(** A list already in order is left as it is. *)
Lemma sort_sorted_id (l : list A) :
  StronglySorted (fun x y => lt (key y) (key x) = false) l -> sort lt key l = l.
Proof. intros Hs. unfold sort. now rewrite sort_acc_sorted. Qed.

Hypothesis lt_asym : forall a b, lt a b = true -> lt b a = false.
Hypothesis le_trans :
  forall a b c, lt b a = false -> lt c b = false -> lt c a = false.

Lemma sort_idempotent (l : list A) : sort lt key (sort lt key l) = sort lt key l.
Proof. apply sort_sorted_id. now apply sort_sorted. Qed.

(** The sort is stable: the elements of one key keep their order. *)
Variable same : A -> bool.
Hypothesis same_key : forall x y, same x = true -> same y = true -> key x = key y.

Lemma insert_sorted_stable (x : A) (l : list A) :
  StronglySorted (fun x y => lt (key y) (key x) = false) l ->
  List.filter same (insert_sorted lt key x l) =
    List.filter same l ++ List.filter same [x].
Proof.
  induction l as [| y l IH]; intros Hs; [reflexivity |].
  apply StronglySorted_inv in Hs as [Hs Hy]. cbn [insert_sorted].
  destruct (lt (key x) (key y)) eqn:E.
  - destruct (same x) eqn:Ex.
    + assert (Hnone : List.filter same (y :: l) = []).
      { assert (Hall : Forall (fun z => same z = false) (y :: l)).
        { constructor.
          - destruct (same y) eqn:Ey; [| reflexivity].
            rewrite (same_key x y Ex Ey) in E.
            pose proof (lt_asym _ _ E). congruence.
          - eapply List.Forall_impl; [| exact Hy]. intros z Hz.
            destruct (same z) eqn:Ez; [| reflexivity].
            rewrite (same_key x z Ex Ez) in E. congruence. }
        clear -Hall. induction Hall as [| z r Hz _ IHr]; [reflexivity |].
        cbn [List.filter]. now rewrite Hz. }
      change (x :: y :: l) with ([x] ++ y :: l).
      rewrite List.filter_app, Hnone. now rewrite app_nil_r.
    + cbn [List.filter]. rewrite Ex. now rewrite app_nil_r.
  - cbn [List.filter]. rewrite (IH Hs).
    destruct (same y); [reflexivity | reflexivity].
Qed.

Lemma sort_acc_stable (l : list A) :
  forall acc,
    StronglySorted (fun x y => lt (key y) (key x) = false) acc ->
    List.filter same (fold_left (fun acc x => insert_sorted lt key x acc) l acc) =
      List.filter same acc ++ List.filter same l.
Proof.
  induction l as [| x l IH]; intros acc Hs; cbn [fold_left].
  - now rewrite app_nil_r.
  - rewrite IH by now apply insert_sorted_sorted.
    rewrite insert_sorted_stable by assumption.
    rewrite <- app_assoc. f_equal. symmetry.
    change (x :: l) with ([x] ++ l). apply List.filter_app.
Qed.

Lemma sort_stable (l : list A) :
  List.filter same (sort lt key l) = List.filter same l.
Proof. unfold sort. rewrite sort_acc_stable; [reflexivity | constructor]. Qed.
End SortMore.

Lemma count_key_lt_false (k1 k2 : Z * Q * text) :
  count_key_lt k2 k1 = false <-> count_key_le k1 k2.
Proof.
  destruct k1 as [[c1 a1] m1], k2 as [[c2 a2] m2]. unfold count_key_lt, count_key_le.
  destruct (Z.eqb_spec c2 c1) as [-> | Hne].
  - destruct (a2 ?= a1)%Q eqn:E.
    + apply Qeq_alt in E. rewrite text_ltb_lex_le. split.
      * intros H. right. split; [reflexivity |]. right. split; [now symmetry | exact H].
      * intros [H | [_ [H | [_ H]]]]; [lia | lra | assumption].
    + apply Qlt_alt in E. split; [discriminate |].
      intros [H | [_ [H | [H _]]]]; [lia | lra | lra].
    + apply Qgt_alt in E. split; [| reflexivity].
      intros _. right. split; [reflexivity |]. left. lra.
  - destruct (Z.ltb_spec c2 c1); split; try discriminate; try reflexivity.
    + intros [H' | [H' _]]; lia.
    + intros _. left. lia.
Qed.

Lemma count_key_le_total (k1 k2 : Z * Q * text) :
  count_key_le k1 k2 \/ count_key_le k2 k1.
Proof.
  destruct k1 as [[c1 a1] m1], k2 as [[c2 a2] m2]. unfold count_key_le.
  destruct (Z.lt_total c1 c2) as [Hc | [Hc | Hc]]; [left; left; exact Hc | | right; left; exact Hc].
  destruct (Q_dec a1 a2) as [[H | H] | H].
  - left. right. split; [assumption |]. left. assumption.
  - right. right. split; [now symmetry |]. left. assumption.
  - destruct (lex_le_total m1 m2); [left | right]; right;
      (split; [assumption || now symmetry |]); right;
      (split; [assumption || now symmetry | assumption]).
Qed.

Lemma count_key_le_trans (k1 k2 k3 : Z * Q * text) :
  count_key_le k1 k2 -> count_key_le k2 k3 -> count_key_le k1 k3.
Proof.
  destruct k1 as [[c1 a1] m1], k2 as [[c2 a2] m2], k3 as [[c3 a3] m3].
  unfold count_key_le.
  intros [H12 | [-> H12]] [H23 | [-> H23]]; try (left; lia).
  right. split; [reflexivity |].
  destruct H12 as [H12 | [E12 H12]], H23 as [H23 | [E23 H23]]; try (left; lra).
  right. split; [lra |]. eapply lex_le_trans; eassumption.
Qed.

Lemma count_key_lt_asym (k1 k2 : Z * Q * text) :
  count_key_lt k1 k2 = true -> count_key_lt k2 k1 = false.
Proof.
  intros H. apply count_key_lt_false.
  destruct (count_key_le_total k1 k2) as [Hle | Hle]; [assumption |].
  apply count_key_lt_false in Hle. congruence.
Qed.

Lemma count_key_lt_le_trans (k1 k2 k3 : Z * Q * text) :
  count_key_lt k2 k1 = false -> count_key_lt k3 k2 = false ->
  count_key_lt k3 k1 = false.
Proof. rewrite !count_key_lt_false. apply count_key_le_trans. Qed.

Lemma total_key_lt_false (k1 k2 : Z * Z * text) :
  total_key_lt k2 k1 = false <-> total_key_le k1 k2.
Proof.
  destruct k1 as [[t1 c1] m1], k2 as [[t2 c2] m2]. unfold total_key_lt, total_key_le.
  destruct (Z.eqb_spec t2 t1) as [-> | Hne].
  - destruct (Z.eqb_spec c2 c1) as [-> | Hne].
    + rewrite text_ltb_lex_le. split; [auto | ].
      intros [H | [_ [H | [_ H]]]]; [lia | lia | assumption].
    + destruct (Z.ltb_spec c2 c1); split; try discriminate; try reflexivity.
      * intros [H' | [_ [H' | [H' _]]]]; lia.
      * intros _. right. split; [reflexivity |]. left. lia.
  - destruct (Z.ltb_spec t2 t1); split; try discriminate; try reflexivity.
    + intros [H' | [H' _]]; lia.
    + intros _. left. lia.
Qed.

Lemma total_key_le_total (k1 k2 : Z * Z * text) :
  total_key_le k1 k2 \/ total_key_le k2 k1.
Proof.
  destruct k1 as [[t1 c1] m1], k2 as [[t2 c2] m2]. unfold total_key_le.
  destruct (Z.lt_total t1 t2) as [Ht | [Ht | Ht]]; [left; left; exact Ht | | right; left; exact Ht].
  destruct (Z.lt_total c1 c2) as [Hc | [Hc | Hc]].
  - left. right. split; [assumption |]. left. assumption.
  - destruct (lex_le_total m1 m2); [left | right]; right;
      (split; [assumption || now symmetry |]); right;
      (split; [assumption || now symmetry | assumption]).
  - right. right. split; [now symmetry |]. left. assumption.
Qed.

Lemma total_key_le_trans (k1 k2 k3 : Z * Z * text) :
  total_key_le k1 k2 -> total_key_le k2 k3 -> total_key_le k1 k3.
Proof.
  destruct k1 as [[t1 c1] m1], k2 as [[t2 c2] m2], k3 as [[t3 c3] m3].
  unfold total_key_le.
  intros [H12 | [-> H12]] [H23 | [-> H23]]; try (left; lia).
  right. split; [reflexivity |].
  destruct H12 as [H12 | [-> H12]], H23 as [H23 | [-> H23]]; try (left; lia).
  right. split; [reflexivity |]. eapply lex_le_trans; eassumption.
Qed.

Lemma total_key_lt_asym (k1 k2 : Z * Z * text) :
  total_key_lt k1 k2 = true -> total_key_lt k2 k1 = false.
Proof.
  intros H. apply total_key_lt_false.
  destruct (total_key_le_total k1 k2) as [Hle | Hle]; [assumption |].
  apply total_key_lt_false in Hle. congruence.
Qed.

Lemma total_key_lt_le_trans (k1 k2 k3 : Z * Z * text) :
  total_key_lt k2 k1 = false -> total_key_lt k3 k2 = false ->
  total_key_lt k3 k1 = false.
Proof. rewrite !total_key_lt_false. apply total_key_le_trans. Qed.

Lemma text_ltb_asym (s1 s2 : text) : text_ltb s1 s2 = true -> text_ltb s2 s1 = false.
Proof.
  intros H. apply text_ltb_lex_le.
  destruct (lex_le_total s1 s2) as [Hle | Hle]; [assumption |].
  apply text_ltb_lex_le in Hle. congruence.
Qed.

Lemma text_ltb_le_trans (s1 s2 s3 : text) :
  text_ltb s2 s1 = false -> text_ltb s3 s2 = false -> text_ltb s3 s1 = false.
Proof. rewrite !text_ltb_lex_le. apply lex_le_trans. Qed.

Lemma count_key_ordered (x y : row) :
  count_key_le (count_key x) (count_key y) <-> ordered_by_count x y.
Proof.
  unfold count_key_le, count_key, ordered_by_count. split.
  - intros [H | [E [H | [H1 H2]]]];
      [left; lia | right; split; [lia | left; lra] |].
    right. split; [lia |]. right. split; [lra | assumption].
  - intros [H | [E [H | [H1 H2]]]];
      [left; lia | right; split; [lia | left; lra] |].
    right. split; [lia |]. right. split; [lra | assumption].
Qed.

Lemma total_key_ordered (x y : row) :
  total_key_le (total_key x) (total_key y) <-> ordered_by_total x y.
Proof.
  unfold total_key_le, total_key, ordered_by_total. split.
  - intros [H | [E [H | [H1 H2]]]];
      [left; lia | right; split; [lia | left; lia] |].
    right. split; [lia |]. right. split; [lia | assumption].
  - intros [H | [E [H | [H1 H2]]]];
      [left; lia | right; split; [lia | left; lia] |].
    right. split; [lia |]. right. split; [lia | assumption].
Qed.

Lemma StronglySorted_impl {A} (R1 R2 : A -> A -> Prop) (l : list A) :
  (forall x y, R1 x y -> R2 x y) -> StronglySorted R1 l -> StronglySorted R2 l.
Proof.
  intros Himp. induction 1 as [| x l _ IH Hx]; constructor; [exact IH |].
  eapply List.Forall_impl; [| exact Hx]. intros y. apply Himp.
Qed.

(** X13. Sorting again changes nothing: the default sort of its own result
    is that result, so the rows [compute_stats] returns are already in the
    default order, as [main] takes for granted under [--sort avg]. *)
Theorem sort_default_idempotent (result : list row) :
  sort_default (sort_default result) = sort_default result /\
  (forall fp : list text,
     exists rows,
       compute_stats fp = Some rows /\ sort_default rows = rows /\
       resort SortAvg rows = sort_default rows).
Proof.
  assert (Hid : forall l, sort_default (sort_default l) = sort_default l).
  { intros l. apply sort_idempotent; [apply key_lt_asym | apply key_lt_le_trans]. }
  split; [apply Hid |].
  intros fp. destruct (compute_stats_rows fp) as (st & ivs & _ & Hrows & _).
  exists (sort_default (rows_of (stats st))).
  split; [exact Hrows |]. split; [apply Hid |]. cbn [resort]. now rewrite Hid.
Qed.

(** X14. Each [--sort] choice of [main] only reorders the rows: the result
    is a permutation of them, with every row before all later ones in the
    order of the choice: by count, then average, then name; by total, then
    count, then name; or by the lower-cased name. *)
Theorem resort_ordered (choice : sort_choice) (rows : list row) :
  Permutation rows (resort choice rows) /\
  match choice with
  | SortAvg => resort choice rows = rows
  | SortCount => StronglySorted ordered_by_count (resort choice rows)
  | SortTotal => StronglySorted ordered_by_total (resort choice rows)
  | SortMethod => StronglySorted ordered_by_method (resort choice rows)
  end.
Proof.
  destruct choice; cbn [resort].
  - split; reflexivity.
  - split; [apply sort_perm; [apply count_key_lt_asym | apply count_key_lt_le_trans] |].
    eapply StronglySorted_impl;
      [| apply (sort_sorted count_key_lt count_key count_key_lt_asym
                  count_key_lt_le_trans)].
    intros x y H. now apply count_key_ordered, count_key_lt_false.
  - split; [apply sort_perm; [apply total_key_lt_asym | apply total_key_lt_le_trans] |].
    eapply StronglySorted_impl;
      [| apply (sort_sorted total_key_lt total_key total_key_lt_asym
                  total_key_lt_le_trans)].
    intros x y H. now apply total_key_ordered, total_key_lt_false.
  - split; [apply sort_perm; [apply text_ltb_asym | apply text_ltb_le_trans] |].
    eapply StronglySorted_impl;
      [| apply (sort_sorted text_ltb method_key text_ltb_asym text_ltb_le_trans)].
    intros x y H. now apply text_ltb_lex_le.
Qed.

(** X15. [--sort method] compares the names without their case and is
    stable: the rows whose names differ in case only keep the order they
    had, that of the default sort. *)
Theorem resort_method_stable (rows : list row) (k : text) :
  List.filter (fun x => text_eqb (lower (r_method x)) k) (resort SortMethod rows) =
    List.filter (fun x => text_eqb (lower (r_method x)) k) rows.
Proof.
  cbn [resort].
  apply (sort_stable text_ltb method_key text_ltb_asym text_ltb_le_trans).
  intros x y Hx Hy. apply text_eqb_eq in Hx, Hy. unfold method_key. congruence.
Qed.

(** ** The table of [main] *)

Lemma len_repeat {A} (x : A) (n : nat) : len (repeat x n) = Z.of_nat n.
Proof. unfold len. now rewrite repeat_length. Qed.

Lemma len_ljust (s : text) (w : Z) : len (ljust s w) = Z.max (len s) w.
Proof. unfold ljust. rewrite len_app, len_repeat. pose proof (len_nonneg s). lia. Qed.

Lemma len_rjust (s : text) (w : Z) : len (rjust s w) = Z.max (len s) w.
Proof. unfold rjust. rewrite len_app, len_repeat. pose proof (len_nonneg s). lia. Qed.

Lemma len_cons {A} (x : A) (l : list A) : len (x :: l) = 1 + len l.
Proof. unfold len. simpl length. lia. Qed.

Lemma len_digits_of (fuel : nat) :
  forall (n : Z) (k : nat),
    0 <= n < 10 ^ Z.of_nat (S k) -> len (digits_of fuel n) <= Z.of_nat (S k).
Proof.
  induction fuel as [| fuel IH]; intros n k Hn; cbn [digits_of].
  - unfold len. simpl. lia.
  - destruct (Z.ltb_spec n 10).
    + unfold len. simpl length. lia.
    + rewrite len_app, len_cons. unfold len at 2. simpl length.
      destruct k as [| k].
      * simpl in Hn. lia.
      * assert (Hdiv : 0 <= n / 10 < 10 ^ Z.of_nat (S k)).
        { split; [apply Z.div_pos; lia |].
          apply Z.div_lt_upper_bound; [lia |].
          replace (Z.of_nat (S (S k))) with (Z.succ (Z.of_nat (S k))) in Hn by lia.
          rewrite Z.pow_succ_r in Hn by lia. lia. }
        specialize (IH _ _ Hdiv). lia.
Qed.

Lemma len_format_d (n : Z) (k : nat) :
  0 <= n < 10 ^ Z.of_nat (S k) -> len (format_d n) <= Z.of_nat (S k).
Proof.
  intros Hn. unfold format_d. destruct (Z.ltb_spec n 0); [lia |].
  now apply len_digits_of.
Qed.

Lemma digit_char_val (d : Z) :
  0 <= d <= 9 -> is_digit (digit_char d) = true /\ digit_val (digit_char d) = d.
Proof.
  intros H.
  assert (Hd : d = 0 \/ d = 1 \/ d = 2 \/ d = 3 \/ d = 4 \/ d = 5 \/ d = 6 \/
               d = 7 \/ d = 8 \/ d = 9) by lia.
  repeat (destruct Hd as [-> | Hd]; [split; reflexivity |]). subst d.
  split; reflexivity.
Qed.

(** The digits written are those of the number, and the fuel of [format_d]
    is enough for them: [int] reads the number back. *)
Lemma digits_of_value (fuel : nat) :
  forall n : Z,
    0 <= n < 2 ^ Z.of_nat (S fuel) ->
    py_int (digits_of (S fuel) n) = Some n.
Proof.
  assert (Hstep : forall s d, 0 <= d <= 9 -> forall v, py_int s = Some v ->
            py_int (s ++ [digit_char d]) = Some (10 * v + d)).
  { intros s d Hd v. destruct (digit_char_val d Hd) as [Hdig Hval].
    unfold py_int. destruct s as [| c s]; [discriminate |]. cbn [app].
    change (c :: s ++ [digit_char d]) with ((c :: s) ++ [digit_char d]).
    rewrite forallb_app, fold_left_app.
    destruct (forallb is_digit (c :: s)); [| discriminate].
    intros [= <-]. cbn [forallb fold_left andb]. now rewrite Hdig, Hval. }
  induction fuel as [| fuel IH]; intros n Hn.
  - cbn [digits_of]. change (2 ^ Z.of_nat 1) with 2 in Hn.
    destruct (Z.ltb_spec n 10); [| lia].
    destruct (digit_char_val n ltac:(lia)) as [Hdig Hval].
    unfold py_int. cbn [forallb fold_left andb]. rewrite Hdig, Hval.
    cbn [andb]. f_equal; lia.
  - change (digits_of (S (S fuel)) n)
      with (if n <? 10 then [digit_char n]
            else digits_of (S fuel) (n / 10) ++ [digit_char (n mod 10)]).
    destruct (Z.ltb_spec n 10).
    + destruct (digit_char_val n ltac:(lia)) as [Hdig Hval].
      unfold py_int. cbn [forallb fold_left andb]. rewrite Hdig, Hval.
      cbn [andb]. f_equal; lia.
    + replace (Z.of_nat (S (S fuel))) with (Z.succ (Z.of_nat (S fuel))) in Hn by lia.
      rewrite Z.pow_succ_r in Hn by lia.
      assert (Hdiv : 0 <= n / 10 < 2 ^ Z.of_nat (S fuel)).
      { split; [apply Z.div_pos; lia |]. apply Z.div_lt_upper_bound; lia. }
      rewrite (Hstep _ (n mod 10) ltac:(pose proof (Z.mod_pos_bound n 10); lia)
                 (n / 10) (IH _ Hdiv)).
      f_equal. pose proof (Z.div_mod n 10). lia.
Qed.

Lemma format_d_value (n : Z) : 0 <= n -> py_int (format_d n) = Some n.
Proof.
  intros Hn. unfold format_d. destruct (Z.ltb_spec n 0); [lia |].
  apply digits_of_value. split; [exact Hn |].
  rewrite Nat2Z.inj_succ, Z2Nat.id by apply Z.log2_nonneg.
  destruct (Z.eq_dec n 0) as [-> | Hne]; [reflexivity |].
  apply Z.log2_spec. lia.
Qed.

Lemma round_half_even_le (q : Q) (N : Z) :
  (0 <= q)%Q -> (q <= inject_Z N)%Q -> 0 <= round_half_even q <= N.
Proof.
  destruct q as [n d]. unfold Qle, round_half_even. cbn [Qnum Qden inject_Z].
  rewrite ?Z.mul_1_r, ?Z.mul_0_l. intros Hn HN.
  pose proof (Z.div_mod n (Z.pos d) ltac:(lia)) as Hdm.
  pose proof (Z.mod_pos_bound n (Z.pos d) ltac:(lia)) as Hr.
  assert (Hf : 0 <= n / Z.pos d) by (apply Z.div_pos; lia).
  assert (HfN : n / Z.pos d <= N) by (apply Z.div_le_upper_bound; lia).
  destruct ((Z.pos d <? 2 * (n mod Z.pos d)) ||
            (Z.pos d =? 2 * (n mod Z.pos d)) && Z.odd (n / Z.pos d)) eqn:E;
    [| lia].
  split; [lia |].
  destruct (Z.eq_dec (n / Z.pos d) N) as [Heq | Hne]; [| lia].
  assert (n mod Z.pos d = 0) by nia.
  rewrite H in E. simpl in E.
  destruct (Z.ltb_spec (Z.pos d) 0); [lia |].
  destruct (Z.eqb_spec (Z.pos d) 0); [lia |]. discriminate.
Qed.

Lemma len_format_3f (q : Q) :
  (0 <= q)%Q -> (q <= 999999)%Q -> len (format_3f q) <= 10.
Proof.
  intros H0 Hq. unfold format_3f.
  assert (Hpos : Qle_bool 0 q = true) by now apply Qle_bool_iff.
  rewrite Hpos. cbn [app].
  assert (Hr : 0 <= round_half_even (q * 1000) <= 999999000).
  { apply round_half_even_le.
    - apply Qmult_le_0_compat; [assumption | discriminate].
    - change (inject_Z 999999000) with (999999 * 1000)%Q.
      apply Qmult_le_compat_r; [assumption | discriminate]. }
  set (n := round_half_even (q * 1000)) in *.
  rewrite len_app, !len_cons. unfold len at 2. simpl length.
  assert (len (format_d (n / 1000)) <= Z.of_nat 6).
  { apply len_format_d. split; [apply Z.div_pos; lia |].
    apply Z.div_lt_upper_bound; [lia |]. simpl. lia. }
  lia.
Qed.

Lemma len_header_line (w : Z) : 6 <= w -> len (header_line w) = w + 32.
Proof.
  intros Hw. unfold header_line.
  repeat (rewrite len_app || rewrite len_cons).
  rewrite len_ljust, !len_rjust.
  change (len (lit "Method")) with 6. change (len (lit "Count")) with 5.
  change (len (lit "Total(ms)")) with 9. change (len (lit "Avg(ms)")) with 7.
  lia.
Qed.

Lemma len_row_line (w : Z) (x : row) :
  0 < w ->
  len (row_line w x) =
    w + 1 + Z.max (len (format_d (r_count x))) 7 + 1 +
    Z.max (len (format_d (r_total_ms x))) 12 + 1 +
    Z.max (len (format_3f (r_avg x))) 10.
Proof.
  intros Hw. unfold row_line.
  repeat (rewrite len_app || rewrite len_cons).
  rewrite len_ljust, !len_rjust.
  rewrite ellipsize_middle_len. pose proof (len_nonneg (r_method x)). lia.
Qed.

(** X16. In every row that [main] prints the name column is exactly
    [w = max(10, width)] wide, and the line is at least as long as the
    header, [w + 32]; it is exactly that long, the columns under their
    headings, when the count is below 10^7, the total below 10^12 and the
    average at most 999999.  The rule under the header has the length of
    the header. *)
Theorem row_line_width (width : Z) (x : row) :
  let w := Z.max 10 width in
  len (ljust (ellipsize_middle (r_method x) w dots) w) = w /\
  firstn (Z.to_nat w) (row_line w x) = ljust (ellipsize_middle (r_method x) w dots) w /\
  len (header_line w) = w + 32 /\
  len (rule_line w) = len (header_line w) /\
  w + 32 <= len (row_line w x) /\
  (0 <= r_count x < 10 ^ 7 -> 0 <= r_total_ms x < 10 ^ 12 ->
   (0 <= r_avg x)%Q -> (r_avg x <= 999999)%Q ->
   len (row_line w x) = w + 32).
Proof.
  intros w. assert (Hw : 10 <= w) by (subst w; lia).
  assert (Hname : len (ljust (ellipsize_middle (r_method x) w dots) w) = w).
  { rewrite len_ljust, ellipsize_middle_len. pose proof (len_nonneg (r_method x)). lia. }
  split; [exact Hname |]. split.
  { unfold row_line. rewrite firstn_app.
    replace (Z.to_nat w) with (length (ljust (ellipsize_middle (r_method x) w dots) w))
      by (unfold len in Hname; lia).
    now rewrite firstn_all, Nat.sub_diag, firstn_O, app_nil_r. }
  split; [apply len_header_line; lia |].
  split; [unfold rule_line; now rewrite len_repeat |].
  rewrite len_row_line by lia. split; [lia |].
  intros Hc Ht Ha0 Ha.
  pose proof (len_format_d (r_count x) 6 Hc).
  pose proof (len_format_d (r_total_ms x) 11 Ht).
  pose proof (len_format_3f (r_avg x) Ha0 Ha). lia.
Qed.

Lemma row_line_width_witness :
  let x := Row (lit "com/ibm/ws/util/BoundedBuffer$GetQueueLock.lock()V") 12 345 (truediv 345 12) in
  len (row_line (Z.max 10 20) x) = Z.max 10 20 + 32.
Proof.
  intros x.
  apply (row_line_width 20 x);
    vm_compute; try (split; [discriminate | reflexivity]); discriminate.
Defined.

Lemma take_top_spec (top : Z) (rows : list row) :
  take_top top rows = if 0 <? top then firstn (Z.to_nat top) rows else rows.
Proof.
  unfold take_top. destruct (Z.eqb_spec top 0) as [-> | Hne]; [reflexivity |].
  cbn [negb andb]. destruct (Z.gtb_spec top 0), (Z.ltb_spec 0 top); try lia.
  - apply slice_to_nonneg. lia.
  - reflexivity.
Qed.

(** X17. [main] raises on no file and prints the header, the rule and one
    line per row kept: all the rows of [compute_stats], reordered, when
    [--top] is zero or negative, and the first [top] of them otherwise (all
    of them when there are fewer). *)
Theorem main_lines (fp : list text) (top : Z) (choice : sort_choice) (width : Z) :
  exists rows,
    compute_stats fp = Some rows /\
    let kept := if 0 <? top then firstn (Z.to_nat top) (resort choice rows)
                else resort choice rows in
    let w := Z.max 10 width in
    main fp top choice width =
      Some (header_line w :: rule_line w :: map (row_line w) kept) /\
    len kept = (if 0 <? top then Z.min top (len rows) else len rows).
Proof.
  destruct (compute_stats_rows fp) as (st & ivs & _ & Hrows & _).
  exists (sort_default (rows_of (stats st))). split; [exact Hrows |].
  intros kept w. split.
  - unfold main. rewrite Hrows. now rewrite take_top_spec.
  - subst kept.
    assert (Hlen : len (resort choice (sort_default (rows_of (stats st)))) =
                   len (sort_default (rows_of (stats st)))).
    { unfold len. f_equal. symmetry. apply Permutation_length.
      destruct choice; cbn [resort]; [reflexivity | | |]; apply sort_perm;
        first [apply count_key_lt_asym | apply count_key_lt_le_trans
              | apply total_key_lt_asym | apply total_key_lt_le_trans
              | apply text_ltb_asym | apply text_ltb_le_trans]. }
    destruct (Z.ltb_spec 0 top); [| exact Hlen].
    rewrite <- Hlen. unfold len. rewrite length_firstn. lia.
Qed.

(** ** The events of [iter_lines] *)

Lemma iter_line_ln (ln : Z) (raw : text) (ev : event) :
  iter_line ln raw = Some ev -> ev_ln ev = ln.
Proof.
  intros H. apply iter_line_spec in H as (ts & tid & a & method & -> & _).
  reflexivity.
Qed.

Lemma iter_line_any_ln (ln ln' : Z) (raw : text) (ev : event) :
  iter_line ln raw = Some ev ->
  iter_line ln' raw = Some (Event ln' (ev_ts ev) (ev_tid ev) (ev_arrow ev) (ev_method ev)).
Proof.
  intros H. apply iter_line_spec in H as (ts & tid & a & method & -> & Hline).
  apply iter_line_spec. exists ts, tid, a, method. split; [reflexivity | assumption].
Qed.

Lemma iter_lines_from_in (fp : list text) :
  forall ln ev,
    In ev (iter_lines_from ln fp) <->
    exists i raw,
      nth_error fp i = Some raw /\ ev_ln ev = ln + Z.of_nat i /\
      iter_line (ev_ln ev) raw = Some ev.
Proof.
  induction fp as [| raw fp IH]; intros ln ev; cbn [iter_lines_from].
  - split; [contradiction |]. intros ([| i] & raw & H & _); discriminate.
  - assert (Htail : In ev (iter_lines_from (ln + 1) fp) <->
                    exists i raw',
                      nth_error (raw :: fp) (S i) = Some raw' /\
                      ev_ln ev = ln + Z.of_nat (S i) /\
                      iter_line (ev_ln ev) raw' = Some ev).
    { rewrite IH. split; intros (i & raw' & Hn & Hl & He); exists i, raw';
        (split; [exact Hn | split; [lia | exact He]]). }
    assert (Hhead : forall e, iter_line ln raw = Some e ->
              (e = ev <-> nth_error (raw :: fp) 0 = Some raw /\
                          ev_ln ev = ln + Z.of_nat 0 /\
                          iter_line (ev_ln ev) raw = Some ev)).
    { intros e He. split.
      - intros <-. rewrite (iter_line_ln _ _ _ He).
        split; [reflexivity | split; [lia | exact He]].
      - intros (_ & Hl & Hev). rewrite Z.add_0_r in Hl. rewrite Hl in Hev.
        congruence. }
    destruct (iter_line ln raw) as [e |] eqn:E.
    + cbn [In]. rewrite Htail, (Hhead e eq_refl). split.
      * intros [H | (i & raw' & H)]; [exists 0%nat, raw; exact H | exists (S i), raw'; exact H].
      * intros ([| i] & raw' & H).
        -- left. destruct H as (Hn & H). injection Hn as <-. split; [reflexivity | exact H].
        -- right. exists i, raw'. exact H.
    + rewrite Htail. split.
      * intros (i & raw' & H). exists (S i), raw'. exact H.
      * intros ([| i] & raw' & H); [| exists i, raw'; exact H].
        destruct H as (Hn & Hl & Hev). injection Hn as <-.
        rewrite Z.add_0_r in Hl. rewrite Hl in Hev. congruence.
Qed.

Lemma iter_lines_from_sorted (fp : list text) :
  forall ln,
    StronglySorted Z.lt (map ev_ln (iter_lines_from ln fp)) /\
    Forall (fun ev => ln <= ev_ln ev) (iter_lines_from ln fp).
Proof.
  induction fp as [| raw fp IH]; intros ln; cbn [iter_lines_from].
  - split; constructor.
  - destruct (IH (ln + 1)) as [Hs Hge].
    assert (Hge' : Forall (fun ev => ln < ev_ln ev) (iter_lines_from (ln + 1) fp)).
    { eapply List.Forall_impl; [| exact Hge]. intros ev H. simpl in H. lia. }
    destruct (iter_line ln raw) as [e |] eqn:E.
    + apply iter_line_ln in E. cbn [map]. split.
      * constructor; [exact Hs |]. rewrite E. now apply Forall_map.
      * constructor; [lia |]. eapply List.Forall_impl; [| exact Hge'].
        intros ev H. simpl in H. lia.
    + split; [exact Hs |]. eapply List.Forall_impl; [| exact Hge'].
      intros ev H. simpl in H. lia.
Qed.

(** X18. [iter_lines] yields the events in the order of the lines, each
    with the number of its line counted from 1: the line numbers increase
    strictly, and an event is yielded exactly when the line of its number
    parses to it. *)
Theorem iter_lines_numbers (fp : list text) :
  StronglySorted Z.lt (map ev_ln (iter_lines fp)) /\
  (length (iter_lines fp) <= length fp)%nat /\
  forall ev,
    In ev (iter_lines fp) <->
    exists i raw,
      nth_error fp i = Some raw /\ ev_ln ev = Z.of_nat i + 1 /\
      iter_line (ev_ln ev) raw = Some ev.
Proof.
  split; [apply (iter_lines_from_sorted fp 1) |]. split.
  - unfold iter_lines. generalize 1.
    induction fp as [| raw fp IH]; intros ln; cbn [iter_lines_from].
    + apply Nat.le_refl.
    + specialize (IH (ln + 1)).
      destruct (iter_line ln raw); cbn [length]; lia.
  - intros ev. unfold iter_lines. rewrite iter_lines_from_in.
    split; intros (i & raw & Hn & Hl & He); exists i, raw;
      (split; [exact Hn | split; [lia | exact He]]).
Qed.

Lemma arrow_cases (a : ascii) : is_arrow a = true -> a = "<"%char \/ a = ">"%char.
Proof.
  unfold is_arrow. rewrite orb_true_iff.
  intros [H | H]; [left | right]; now apply (is_char_eq _ a).
Qed.

(** X19. Every event of [iter_lines] is either an entry or an exit: its
    direction is [>] or [<], so the [else] branch of [compute_stats] only
    sees exits.  Its time stamp has the twelve characters of the pattern,
    its thread is [0x] and hexadecimal digits, and its method is not empty
    and holds no white space. *)
Theorem iter_lines_events (fp : list text) (ev : event) :
  In ev (iter_lines fp) ->
  (ev_arrow ev = lit ">" \/ ev_arrow ev = lit "<") /\
  is_timestamp (ev_ts ev) = true /\
  (exists hex, ev_tid ev = lit "0x" ++ hex /\ run_of is_hex hex) /\
  run_of is_nonspace (ev_method ev).
Proof.
  intros Hin. apply iter_lines_from_in in Hin as (i & raw & _ & _ & Hev).
  apply iter_line_spec in Hev as (ts & tid & a & method & -> & Hline).
  destruct Hline as (ws1 & hex & ws2 & slack & ws3 & rest & _ & Hts & _ & Htid &
                     Hhex & _ & _ & Ha & _ & Hm & _).
  cbn [ev_arrow ev_ts ev_tid ev_method].
  split; [destruct (arrow_cases a Ha) as [-> | ->]; auto |].
  split; [exact Hts |]. split; [exists hex; auto | exact Hm].
Qed.

Lemma iter_lines_events_witness :
  let ev := Event 3 (lit "10:00:00:080") (lit "0x1") (lit "<") (lit "bar()V") in
  In ev (iter_lines four_lines) /\
  (ev_arrow ev = lit ">" \/ ev_arrow ev = lit "<").
Proof.
  intros ev.
  assert (Hin : In ev (iter_lines four_lines)) by (vm_compute; tauto).
  split; [exact Hin |]. apply (iter_lines_events four_lines ev Hin).
Defined.

Lemma method_here_nonspace (c : ascii) (s : text) :
  is_space c = false -> method_here (c :: s) <> None.
Proof. intros H. unfold method_here, is_nonspace. now rewrite H. Qed.

(** Text added to a line never turns a place of the slack text before the
    marker into a marker: what follows such a place holds the marker itself,
    which is not white space. *)
Lemma marker_here_slack (v : text) (a : ascii) (t e : text) :
  v <> [] -> is_arrow a = true ->
  marker_here (v ++ a :: t) = None -> marker_here (v ++ a :: t ++ e) = None.
Proof.
  intros Hv Ha. pose proof (arrow_not_space a Ha) as Hsp.
  destruct v as [| x [| y v]]; [contradiction | |]; cbn [app marker_here].
  - now rewrite Hsp, andb_false_r.
  - destruct (is_arrow x && is_space y); [| reflexivity].
    rewrite (lstrip_app_stop is_space v a t Hsp). intros H. exfalso.
    pose proof (lstrip_head is_space v) as Hhead.
    destruct (lstrip is_space v) as [| c0 s0]; cbn [app] in H.
    + now apply (method_here_nonspace a t Hsp); destruct (method_here (a :: t)).
    + now apply (method_here_nonspace c0 (s0 ++ a :: t) Hhead);
        destruct (method_here (c0 :: s0 ++ a :: t)).
Qed.

Lemma trace_line_trailing (line ts tid : text) (a : ascii) (method : text)
      (c : ascii) (junk : text) :
  is_space c = true ->
  trace_line line ts tid a method ->
  trace_line (line ++ c :: junk) ts tid a method.
Proof.
  intros Hc (ws1 & hex & ws2 & slack & ws3 & rest & -> & Hts & Hws1 & Htid & Hhex &
             Hws2 & Hdot & Ha & Hws3 & Hm & Hrest & Hfirst).
  exists ws1, hex, ws2, slack, ws3, (rest ++ c :: junk).
  split; [repeat (rewrite <- app_assoc; cbn [app]); reflexivity |].
  do 9 (split; [assumption |]). split.
  - destruct rest as [| r rest]; cbn [app]; unfold method_here in *.
    + now rewrite (space_nonspace c Hc).
    + destruct (is_nonspace r); [discriminate | reflexivity].
  - intros u v Hslack Hv.
    replace (ws3 ++ method ++ rest ++ c :: junk)
      with ((ws3 ++ method ++ rest) ++ c :: junk)
      by (repeat (rewrite <- app_assoc; cbn [app]); reflexivity).
    apply marker_here_slack; [exact Hv | exact Ha | exact (Hfirst u v Hslack Hv)].
Qed.

(** X20. What follows the method token on a line plays no part: white
    space and any text added to the end of a line that [LINE_RE] matches
    leaves the match and its four groups as they are (the source's example
    lines go on with [compiled method, this = 0x...]). *)
Theorem line_re_ignores_trailing_text (line : text) (c : ascii) (junk : text)
        (m : Re.groups) :
  is_space c = true ->
  Re.search LINE_RE line = Some m ->
  Re.search LINE_RE (line ++ c :: junk) = Some m.
Proof.
  intros Hc. rewrite !search_line.
  destruct (scan_line line) as [[[[ts tid] a] method] |] eqn:E; [| discriminate].
  apply scan_line_spec in E.
  apply (trace_line_trailing _ _ _ _ _ c junk Hc), scan_line_spec in E.
  now rewrite E.
Qed.

Lemma line_re_ignores_trailing_text_witness :
  Re.search LINE_RE (lit "21:00:05.736 0x2a7b500 mt.3 > a/B.lock()V" ++
                     " "%char :: lit "compiled method, this = 0x70b3568f0") =
  Re.search LINE_RE (lit "21:00:05.736 0x2a7b500 mt.3 > a/B.lock()V").
Proof.
  set (line := lit "21:00:05.736 0x2a7b500 mt.3 > a/B.lock()V").
  destruct (Re.search LINE_RE line) as [m |] eqn:E; [| vm_compute in E; discriminate].
  apply (line_re_ignores_trailing_text line " "%char _ m); [reflexivity | exact E].
Defined.
